(** * filezipper: the Huffman codec of [modiHuffman.py]

    A shallow embedding of the class [HuffmanCoding] and of the library
    routines it calls ([heapq], [json], the bit-string helpers of [str] and
    [int]), followed by the properties of the codec.

    Conventions.
    - A Python [str] is a list of code points ([pystr]); a character is a
      [str] of length one, as in Python.
    - The bit-strings of the program are [str] values over the alphabet
      ['0'], ['1']; they are modelled as [list bool] ([true] is ['1']).
    - A Python [dict] keeps its keys in insertion order; it is modelled as
      an association list without duplicate keys ([dict_set]).
    - Methods that mutate [self] are state passing functions over the
      record [HuffmanCoding]. *)

From Stdlib Require Import ZArith NArith Lia.
From Stdlib Require Import DecimalFacts DecimalPos DecimalN DecimalZ.
From stdpp Require Import base numbers option list.

Local Open Scope nat_scope.

(** ** Outcomes of Python code *)

(** The exceptions the modelled code can raise.  [EmptyInputError],
    [CorruptStreamError], [FormatError] and [UnsupportedSymbolError] are the
    error kinds the specification names; no definition below raises them,
    because the source never does. *)
Inductive exn : Type :=
  | IndexError
  | KeyError
  | ValueError
  | TypeError
  | JSONDecodeError
  | UnicodeDecodeError
  | UnicodeEncodeError
  | EmptyInputError
  | CorruptStreamError
  | FormatError
  | UnsupportedSymbolError.

(** [Diverge]: the call never returns.  [OutOfModel]: the input leaves the
    fragment of Python values this development models. *)
Inductive outcome (A : Type) : Type :=
  | Ok (a : A)
  | Raise (e : exn)
  | Diverge
  | OutOfModel.

Arguments Ok {A} a.
Arguments Raise {A} e.
Arguments Diverge {A}.
Arguments OutOfModel {A}.

#[global] Instance outcome_bind : MBind outcome := fun A B k m =>
  match m with
  | Ok a => k a
  | Raise e => Raise e
  | Diverge => Diverge
  | OutOfModel => OutOfModel
  end.

Fixpoint mapM_outcome {A B} (f : A -> outcome B) (l : list A) : outcome (list B) :=
  match l with
  | [] => Ok []
  | a :: l' => b ← f a; bs ← mapM_outcome f l'; Ok (b :: bs)
  end.

(** ** Strings and bit-strings *)

#[warnings="-notation-for-abbreviation"]
Notation codepoint := N (only parsing).
#[warnings="-notation-for-abbreviation"]
Notation pystr := (list N) (only parsing).
#[warnings="-notation-for-abbreviation"]
Notation bitstring := (list bool) (only parsing).

Definition bit_value (b : bool) : N := if b then 1%N else 0%N.

(** Binary digits of a positive number, most significant first. *)
Fixpoint pos_bits (p : positive) (acc : bitstring) : bitstring :=
  match p with
  | xH => true :: acc
  | xO q => pos_bits q (false :: acc)
  | xI q => pos_bits q (true :: acc)
  end.

(** [bin(n)[2:]], which is also the ['b'] presentation of [format]. *)
Definition bin (n : N) : bitstring :=
  match n with
  | N0 => [false]
  | Npos p => pos_bits p []
  end.

(** [s.rjust(w, '0')] *)
Definition rjust (w : nat) (s : bitstring) : bitstring :=
  replicate (w - length s) false ++ s.

(** ["{0:08b}".format(n)] for [n >= 0]. *)
Definition format_08b (n : N) : bitstring := rjust 8 (bin n).

(** [int(s, 2)] on a bit-string; the empty string is not a number. *)
Definition int2 (s : bitstring) : outcome N :=
  match s with
  | [] => Raise ValueError
  | _ => Ok (fold_left (fun acc b => (2 * acc + bit_value b)%N) s 0%N)
  end.

(** [s[start:-e]] for [e >= 0]: the stop index [-e] counts from the end when
    [e > 0] and is the index [0] when [e = 0]. *)
Definition slice_to_neg {A} (s : list A) (start e : nat) : list A :=
  let stop := match e with 0 => 0 | _ => length s - e end in
  take (stop - start) (drop start s).

(** [range(0, stop, step)] *)
Definition range_step (stop step : nat) : list nat :=
  (fun k => k * step) <$> seq 0 ((stop + step - 1) / step).

(** ** BitPacker *)

Definition pad_encoded_text (encoded_text : bitstring) : bitstring :=
  let extra_padding := 8 - length encoded_text mod 8 in
  format_08b (N.of_nat extra_padding) ++ encoded_text
    ++ replicate extra_padding false.

(** An element of a [bytearray] must be in [range(256)]. *)
Definition as_byte (n : N) : outcome N :=
  if (n <? 256)%N then Ok n else Raise ValueError.

Definition get_byte_array (padded_encoded_text : bitstring) : outcome (list N) :=
  mapM_outcome
    (fun i => n ← int2 (take 8 (drop i padded_encoded_text)); as_byte n)
    (range_step (length padded_encoded_text) 8).

Definition remove_padding (padded_encoded_text : bitstring) : outcome bitstring :=
  extra_padding ← int2 (take 8 padded_encoded_text);
  Ok (slice_to_neg padded_encoded_text 8 (N.to_nat extra_padding)).

(** The loop of [decompress] that turns the payload bytes into a bit-string:
    [bin(int.from_bytes(byte, 'big'))[2:].rjust(8, '0')] for each byte. *)
Definition bits_of_byte (b : N) : bitstring := rjust 8 (bin b).

Definition bit_string_of_bytes (bs : list N) : bitstring :=
  concat (bits_of_byte <$> bs).

(** ** Dictionaries

    A [dict] is the list of its items in insertion order.  Assigning to a key
    that is present replaces its value in place; a new key goes to the end. *)

Definition dict (K V : Type) : Type := list (K * V).

Section dict.
Context {K V : Type} `{EqDecision K}.

Fixpoint dict_get (k : K) (d : dict K V) : option V :=
match d with
| [] => None
| (k', v) :: d' => if decide (k = k') then Some v else dict_get k d'
end.

(** [d[k]] *)
Definition dict_getitem (k : K) (d : dict K V) : outcome V :=
match dict_get k d with
| Some v => Ok v
| None => Raise KeyError
end.

(** [d[k] = v] *)
Fixpoint dict_set (k : K) (v : V) (d : dict K V) : dict K V :=
match d with
| [] => [(k, v)]
| (k', v') :: d' =>
    if decide (k = k') then (k', v) :: d' else (k', v') :: dict_set k v d'
end.

Definition dict_keys (d : dict K V) : list K := fst <$> d.

(** [dict(pairs)] *)
Definition dict_of_pairs (pairs : list (K * V)) : dict K V :=
fold_left (fun d kv => dict_set kv.1 kv.2 d) pairs [].
End dict.

(** ** Python lists indexed in place *)

Section pylist.
Context {A : Type}.

(** [l[i]] for [i >= 0] *)
Definition getitem (l : list A) (i : nat) : outcome A :=
match l !! i with
| Some x => Ok x
| None => Raise IndexError
end.

(** [l[i] = x] for [i >= 0] *)
Definition setitem (l : list A) (i : nat) (x : A) : outcome (list A) :=
if decide (i < length l) then Ok (<[i:=x]> l) else Raise IndexError.

(** [l.pop()]: the last element and the list without it. *)
Definition list_pop (l : list A) : outcome (A * list A) :=
match last l with
| Some x => Ok (x, take (length l - 1) l)
| None => Raise IndexError
end.
End pylist.

(** ** heapq

    [heappush], [heappop] and the two sift routines of the standard library,
    over any item type with a [<].  A loop runs on fuel; a loop that has not
    left when the fuel is gone is [Diverge], and the callers below supply
    fuel that is never used up. *)

Section heapq.
Context {A : Type} (lt : A -> A -> bool).

(** The [while pos > startpos] loop of [_siftdown]. *)
Fixpoint siftdown_loop (fuel : nat) (heap : list A) (newitem : A)
  (startpos pos : nat) : outcome (list A) :=
if decide (startpos < pos) then
  match fuel with
  | 0 => Diverge
  | S fuel' =>
      let parentpos := (pos - 1) / 2 in
      parent ← getitem heap parentpos;
      if lt newitem parent then
        heap ← setitem heap pos parent;
        siftdown_loop fuel' heap newitem startpos parentpos
      else setitem heap pos newitem
  end
else setitem heap pos newitem.

Definition _siftdown (heap : list A) (startpos pos : nat) : outcome (list A) :=
newitem ← getitem heap pos;
siftdown_loop pos heap newitem startpos pos.

(** The [while childpos < endpos] loop of [_siftup]; it returns the heap
  and the position of the leaf that was emptied. *)
Fixpoint siftup_loop (fuel : nat) (heap : list A) (endpos pos : nat)
  : outcome (list A * nat) :=
let childpos := 2 * pos + 1 in
if decide (childpos < endpos) then
  match fuel with
  | 0 => Diverge
  | S fuel' =>
      let rightpos := childpos + 1 in
      childpos ←
        (if decide (rightpos < endpos) then
           l ← getitem heap childpos;
           r ← getitem heap rightpos;
           Ok (if negb (lt l r) then rightpos else childpos)
         else Ok childpos);
      child ← getitem heap childpos;
      heap ← setitem heap pos child;
      siftup_loop fuel' heap endpos childpos
  end
else Ok (heap, pos).

Definition _siftup (heap : list A) (pos : nat) : outcome (list A) :=
let endpos := length heap in
let startpos := pos in
newitem ← getitem heap pos;
'(heap, pos) ← siftup_loop endpos heap endpos pos;
heap ← setitem heap pos newitem;
_siftdown heap startpos pos.

Definition heappush (heap : list A) (item : A) : outcome (list A) :=
let heap := heap ++ [item] in
_siftdown heap 0 (length heap - 1).

Definition heappop (heap : list A) : outcome (A * list A) :=
'(lastelt, heap) ← list_pop heap;
match heap with
| _ :: _ =>
    returnitem ← getitem heap 0;
    heap ← setitem heap 0 lastelt;
    heap ← _siftup heap 0;
    Ok (returnitem, heap)
| [] => Ok (lastelt, heap)
end.
End heapq.

(** ** HeapNode

    [oid] is the identity of the Python object (what [id] returns); it is
    not an attribute of the class.  [char], [freq], [left] and [right] are
    the attributes [__init__] sets, [None] being [None]. *)

#[warnings="-register-all"]
Inductive HeapNode : Type :=
  | mkHeapNode (oid : N) (char : option pystr) (freq : Z)
      (left right : option HeapNode).

Definition oid (n : HeapNode) : N := let 'mkHeapNode i _ _ _ _ := n in i.
Definition char (n : HeapNode) : option pystr := let 'mkHeapNode _ c _ _ _ := n in c.
Definition freq (n : HeapNode) : Z := let 'mkHeapNode _ _ f _ _ := n in f.
Definition left (n : HeapNode) : option HeapNode := let 'mkHeapNode _ _ _ l _ := n in l.
Definition right (n : HeapNode) : option HeapNode := let 'mkHeapNode _ _ _ _ r := n in r.

(** [HeapNode.__lt__] *)
Definition HeapNode_lt (self other : HeapNode) : bool :=
  (freq self <? freq other)%Z.

(** ** HuffmanCoding

    The attributes [heap], [codes] and [reverse_mapping] of the object.
    [path] only names the files that are read and written; the methods below
    take the content of the file and the extension of the path as arguments
    and return what is written. *)

Record HuffmanCoding : Type := mkHuffmanCoding {
  heap : list HeapNode;
  codes : dict pystr bitstring;
  reverse_mapping : dict bitstring pystr
}.

(** [HuffmanCoding.__init__] *)
Definition init : HuffmanCoding :=
  {| heap := []; codes := []; reverse_mapping := [] |}.

Definition set_heap (h : list HeapNode) (self : HuffmanCoding) : HuffmanCoding :=
  {| heap := h; codes := codes self; reverse_mapping := reverse_mapping self |}.

Definition set_codes (c : dict pystr bitstring) (self : HuffmanCoding)
    : HuffmanCoding :=
  {| heap := heap self; codes := c; reverse_mapping := reverse_mapping self |}.

(** A method is run on the object and leaves the object behind, also when
    it raises. *)
Definition method (A : Type) : Type := HuffmanCoding -> outcome A * HuffmanCoding.

#[global] Instance method_bind : MBind method := fun A B k m self =>
  match m self with
  | (Ok a, self') => k a self'
  | (Raise e, self') => (Raise e, self')
  | (Diverge, self') => (Diverge, self')
  | (OutOfModel, self') => (OutOfModel, self')
  end.

Definition ret {A} (a : A) : method A := fun self => (Ok a, self).
Definition lift {A} (m : outcome A) : method A := fun self => (m, self).
Definition get_attr {A} (f : HuffmanCoding -> A) : method A :=
  fun self => (Ok (f self), self).
Definition put_heap (h : list HeapNode) : method unit :=
  fun self => (Ok tt, set_heap h self).
Definition put_codes (c : dict pystr bitstring) : method unit :=
  fun self => (Ok tt, set_codes c self).

(** [ident i] is the identity of the [i]-th [HeapNode] a call creates. *)
Definition identities : Type := nat -> N.

Definition make_frequency_dict (text : pystr) : dict pystr Z :=
  fold_left
    (fun frequency c =>
       let character := [c] in
       dict_set character (default 0%Z (dict_get character frequency) + 1)%Z
         frequency)
    text [].

(** The loop of [make_heap] over the keys that are still to come. *)
Fixpoint make_heap_loop (ident : identities) (i : nat) (frequency : dict pystr Z)
    (keys : list pystr) : method unit :=
  match keys with
  | [] => ret tt
  | key :: keys' =>
      f ← lift (dict_getitem key frequency);
      h ← get_attr heap;
      h ← lift (heappush HeapNode_lt h (mkHeapNode (ident i) (Some key) f None None));
      _ ← put_heap h;
      make_heap_loop ident (S i) frequency keys'
  end.

Definition make_heap (ident : identities) (frequency : dict pystr Z) : method unit :=
  make_heap_loop ident 0 frequency (dict_keys frequency).

(** The loop of [merge_nodes]. *)
Fixpoint merge_loop (fuel : nat) (ident : identities) (i : nat) : method unit :=
  fun self =>
  if decide (1 < length (heap self)) then
    match fuel with
    | 0 => (Diverge, self)
    | S fuel' =>
        (h ← get_attr heap;
         '(node1, h) ← lift (heappop HeapNode_lt h);
         _ ← put_heap h;
         '(node2, h) ← lift (heappop HeapNode_lt h);
         _ ← put_heap h;
         let merged :=
           mkHeapNode (ident i) None (freq node1 + freq node2)
             (Some node1) (Some node2) in
         h ← lift (heappush HeapNode_lt h merged);
         _ ← put_heap h;
         merge_loop fuel' ident (S i)) self
    end
  else (Ok tt, self).

Definition merge_nodes (ident : identities) : method unit :=
  fun self => merge_loop (length (heap self)) ident 0 self.

(** [make_codes_helper] on a node that is not [None]; the test
    [root is None] is the [match] on [left] and [right] before each call. *)
Fixpoint make_codes_helper (root : HeapNode) (current_code : bitstring)
    (codes : dict pystr bitstring) : dict pystr bitstring :=
  match root with
  | mkHeapNode _ (Some c) _ _ _ => dict_set c current_code codes
  | mkHeapNode _ None _ l r =>
      let codes :=
        match l with
        | Some n => make_codes_helper n (current_code ++ [false]) codes
        | None => codes
        end in
      match r with
      | Some n => make_codes_helper n (current_code ++ [true]) codes
      | None => codes
      end
  end.

Definition make_codes : method unit :=
  h ← get_attr heap;
  '(root, h) ← lift (heappop HeapNode_lt h);
  _ ← put_heap h;
  c ← get_attr codes;
  put_codes (make_codes_helper root [] c).

Definition get_encoded_text (text : pystr) : method bitstring :=
  c ← get_attr codes;
  chunks ← lift (mapM_outcome (fun ch => dict_getitem [ch] c) text);
  ret (concat chunks).

(** ** The decode tree

    [build_decode_tree] makes nested dictionaries whose keys are the bits
    ['0'] and ['1'] and the string ['char'].  A dictionary of the tree is the
    record of what it holds under each of the three keys. *)

#[warnings="-register-all"]
Inductive dnode : Type :=
  | DNode (zero one : option dnode) (chr : option pystr).

Definition dnode_empty : dnode := DNode None None None.

Definition dnode_child (node : dnode) (bit : bool) : option dnode :=
  let 'DNode z o _ := node in if bit then o else z.

Definition dnode_chr (node : dnode) : option pystr :=
  let 'DNode _ _ c := node in c.

Definition dnode_set_child (node : dnode) (bit : bool) (child : dnode) : dnode :=
  let 'DNode z o c := node in
  if bit then DNode z (Some child) c else DNode (Some child) o c.

Definition dnode_set_chr (node : dnode) (ch : pystr) : dnode :=
  let 'DNode z o _ := node in DNode z o (Some ch).

(** One pass of the outer loop of [build_decode_tree]: follow [code] from
    [node] with [setdefault], then store [ch] under ['char'].  The
    dictionaries are shared by reference, so the update is seen from the
    root. *)
Fixpoint decode_tree_add (code : bitstring) (ch : pystr) (node : dnode) : dnode :=
  match code with
  | [] => dnode_set_chr node ch
  | bit :: code' =>
      let child := default dnode_empty (dnode_child node bit) in
      dnode_set_child node bit (decode_tree_add code' ch child)
  end.

Definition build_decode_tree : method dnode :=
  c ← get_attr codes;
  ret (fold_left (fun tree item => decode_tree_add item.2 item.1 tree) c dnode_empty).

(** The loop of [decode_text_tree]. *)
Fixpoint decode_loop (tree : dnode) (encoded_text : bitstring) (node : dnode)
    (decoded_text : list pystr) : outcome (list pystr) :=
  match encoded_text with
  | [] => Ok decoded_text
  | bit :: rest =>
      match dnode_child node bit with
      | None => Raise KeyError
      | Some node =>
          match dnode_chr node with
          | Some ch => decode_loop tree rest tree (decoded_text ++ [ch])
          | None => decode_loop tree rest node decoded_text
          end
      end
  end.

Definition decode_text_tree (encoded_text : bitstring) (tree : dnode)
    : outcome pystr :=
  decoded_text ← decode_loop tree encoded_text tree [];
  Ok (concat decoded_text).

(** ** json

    The values the header is made of: integers, strings and objects.  An
    object is the [dict] that [json.loads] builds. *)

#[warnings="-register-all"]
Inductive json : Type :=
  | JInt (z : Z)
  | JStr (s : pystr)
  | JObj (items : list (pystr * json)).

(** *** json.dumps with its default options: [ensure_ascii], a comma and a
    space between members, a colon and a space after a key *)

Definition hex_digit (d : N) : codepoint :=
  if (d <? 10)%N then (48 + d)%N else (87 + d)%N.

(** ['{0:04x}'.format(n)] for [n < 0x10000], the only values it is given. *)
Definition hex4 (n : N) : pystr :=
  [hex_digit (n / 4096 mod 16); hex_digit (n / 256 mod 16);
   hex_digit (n / 16 mod 16); hex_digit (n mod 16)]%N.

(** The replacement of one character in [encode_basestring_ascii]:
    [ESCAPE_DCT] for the quote, the backslash and the control characters,
    the character itself from [' '] to ['~'], a [\uXXXX] escape or a
    surrogate pair of escapes otherwise. *)
Definition escape_char (c : codepoint) : pystr :=
  (if c =? 34 then [92; 34]
   else if c =? 92 then [92; 92]
   else if c =? 10 then [92; 110]
   else if c =? 13 then [92; 114]
   else if c =? 9 then [92; 116]
   else if c =? 12 then [92; 102]
   else if c =? 8 then [92; 98]
   else if (32 <=? c) && (c <=? 126) then [c]
   else if c <? 0x10000 then [92; 117] ++ hex4 c
   else
     let n := c - 0x10000 in
     let s1 := N.lor 0xd800 (N.land (N.shiftr n 10) 0x3ff) in
     let s2 := N.lor 0xdc00 (N.land n 0x3ff) in
     [92; 117] ++ hex4 s1 ++ [92; 117] ++ hex4 s2)%N.

Definition encode_basestring_ascii (s : pystr) : pystr :=
  [34%N] ++ concat (escape_char <$> s) ++ [34%N].

Definition digit_char (d : N) : codepoint := (48 + d)%N.

Fixpoint uint_digits (u : Decimal.uint) : pystr :=
  match u with
  | Decimal.Nil => []
  | Decimal.D0 u => digit_char 0 :: uint_digits u
  | Decimal.D1 u => digit_char 1 :: uint_digits u
  | Decimal.D2 u => digit_char 2 :: uint_digits u
  | Decimal.D3 u => digit_char 3 :: uint_digits u
  | Decimal.D4 u => digit_char 4 :: uint_digits u
  | Decimal.D5 u => digit_char 5 :: uint_digits u
  | Decimal.D6 u => digit_char 6 :: uint_digits u
  | Decimal.D7 u => digit_char 7 :: uint_digits u
  | Decimal.D8 u => digit_char 8 :: uint_digits u
  | Decimal.D9 u => digit_char 9 :: uint_digits u
  end.

(** [int.__repr__] *)
Definition int_repr (z : Z) : pystr :=
  match Z.to_int z with
  | Decimal.Pos u => uint_digits u
  | Decimal.Neg u => 45%N :: uint_digits u
  end.

(** The members of an object, in the order of the dictionary; [dumps] writes
    a value. *)
Section dumps_members.
Variable dumps : json -> pystr.

Fixpoint dumps_members (items : list (pystr * json)) (first : bool) : pystr :=
match items with
| [] => []
| (k, v) :: rest =>
    (if first then [] else [44; 32]%N)
    ++ encode_basestring_ascii k ++ [58; 32]%N ++ dumps v
    ++ dumps_members rest false
end.
End dumps_members.

Fixpoint json_dumps (v : json) : pystr :=
  match v with
  | JInt z => int_repr z
  | JStr s => encode_basestring_ascii s
  | JObj items => [123%N] ++ dumps_members json_dumps items true ++ [125%N]
  end.

(** *** json.loads (default options), on the texts of integers, strings and
    objects.  Arrays, floats and the literals are [OutOfModel]. *)

Definition is_ws (c : codepoint) : bool :=
  ((c =? 32) || (c =? 9) || (c =? 10) || (c =? 13))%N.

Fixpoint skip_ws (s : pystr) : pystr :=
  match s with
  | c :: s' => if is_ws c then skip_ws s' else s
  | [] => []
  end.

Definition is_digit (c : codepoint) : bool := ((48 <=? c) && (c <=? 57))%N.

Definition hex_val (c : codepoint) : option N :=
  (if (48 <=? c) && (c <=? 57) then Some (c - 48)
   else if (97 <=? c) && (c <=? 102) then Some (c - 87)
   else if (65 <=? c) && (c <=? 70) then Some (c - 55)
   else None)%N.

Definition hex4_val (h1 h2 h3 h4 : codepoint) : option N :=
  d1 ← hex_val h1; d2 ← hex_val h2; d3 ← hex_val h3; d4 ← hex_val h4;
  Some (((d1 * 16 + d2) * 16 + d3) * 16 + d4)%N.

Definition is_high_surrogate (c : N) : bool := ((0xd800 <=? c) && (c <=? 0xdbff))%N.
Definition is_low_surrogate (c : N) : bool := ((0xdc00 <=? c) && (c <=? 0xdfff))%N.

Definition join_surrogates (hi lo : N) : N :=
  (0x10000 + N.lor (N.shiftl (hi - 0xd800) 10) (lo - 0xdc00))%N.

(** The escapes of one letter: quote, backslash, slash, [b], [f], [n], [r]
    and [t]. *)
Definition simple_escape (c : codepoint) : option codepoint :=
  (if c =? 34 then Some 34
   else if c =? 92 then Some 92
   else if c =? 47 then Some 47
   else if c =? 98 then Some 8
   else if c =? 102 then Some 12
   else if c =? 110 then Some 10
   else if c =? 114 then Some 13
   else if c =? 116 then Some 9
   else None)%N.

(** [scanstring] in strict mode, from the character after the opening
    quote: the string and the text after the closing quote. *)
Fixpoint scanstring (s : pystr) : outcome (pystr * pystr) :=
  match s with
  | [] => Raise JSONDecodeError
  | c :: rest =>
      if (c =? 34)%N then Ok ([], rest)
      else if (c =? 92)%N then
        match rest with
        | [] => Raise JSONDecodeError
        | esc :: rest1 =>
            if (esc =? 117)%N then
              match rest1 with
              | h1 :: h2 :: h3 :: h4 :: ((_ :: _) as rest2) =>
                  match hex4_val h1 h2 h3 h4 with
                  | None => Raise JSONDecodeError
                  | Some uni =>
                      let lone :=
                        '(str, rest') ← scanstring rest2; Ok (uni :: str, rest') in
                      if is_high_surrogate uni then
                        match rest2 with
                        | b :: u :: g1 :: g2 :: g3 :: g4 :: ((_ :: _) as rest3) =>
                            if ((b =? 92) && (u =? 117))%N then
                              match hex4_val g1 g2 g3 g4 with
                              | None => Raise JSONDecodeError
                              | Some uni2 =>
                                  if is_low_surrogate uni2 then
                                    '(str, rest') ← scanstring rest3;
                                    Ok (join_surrogates uni uni2 :: str, rest')
                                  else lone
                              end
                            else lone
                        | _ => lone
                        end
                      else lone
                  end
              | _ => Raise JSONDecodeError
              end
            else
              match simple_escape esc with
              | Some ch => '(str, rest') ← scanstring rest1; Ok (ch :: str, rest')
              | None => Raise JSONDecodeError
              end
        end
      else if (c <=? 31)%N then Raise JSONDecodeError
      else '(str, rest') ← scanstring rest; Ok (c :: str, rest')
  end.

Fixpoint scan_digits (s : pystr) : pystr * pystr :=
  match s with
  | c :: s' =>
      if is_digit c then let '(ds, rest) := scan_digits s' in (c :: ds, rest)
      else ([], s)
  | [] => ([], [])
  end.

Definition digit_uint (c : codepoint) (u : Decimal.uint) : Decimal.uint :=
  (if c =? 48 then Decimal.D0 u else if c =? 49 then Decimal.D1 u
   else if c =? 50 then Decimal.D2 u else if c =? 51 then Decimal.D3 u
   else if c =? 52 then Decimal.D4 u else if c =? 53 then Decimal.D5 u
   else if c =? 54 then Decimal.D6 u else if c =? 55 then Decimal.D7 u
   else if c =? 56 then Decimal.D8 u else Decimal.D9 u)%N.

(** [int(ds)] for a string of decimal digits. *)
Definition int_of_digits (ds : pystr) : Z :=
  Z.of_N (N.of_uint (foldr digit_uint Decimal.Nil ds)).

(** Does the text go on with a fraction or an exponent? *)
Definition float_follows (s : pystr) : bool :=
  match s with
  | c :: d :: s' =>
      ((c =? 46) && is_digit d
       || ((c =? 101) || (c =? 69))
          && (is_digit d
              || ((d =? 43) || (d =? 45))
                 && match s' with e :: _ => is_digit e | [] => false end))%N
  | _ => false
  end.

(** A number at the head of [s], as [NUMBER_RE] matches it: an optional
    minus sign, then [0] or a digit from [1] to [9] and the digits after
    it. *)
Definition parse_number (s : pystr) : outcome (json * pystr) :=
  let '(negative, s1) :=
    match s with
    | c :: s' => if (c =? 45)%N then (true, s') else (false, s)
    | [] => (false, s)
    end in
  let '(ds, rest) :=
    match s1 with
    | c :: s2 => if (c =? 48)%N then ([c], s2) else scan_digits s1
    | [] => ([], [])
    end in
  match ds with
  | [] => Raise JSONDecodeError
  | _ =>
      if float_follows rest then OutOfModel
      else Ok (JInt (if negative then - int_of_digits ds else int_of_digits ds)%Z, rest)
  end.

Fixpoint starts_with (p s : pystr) : bool :=
  match p, s with
  | [], _ => true
  | a :: p', b :: s' => (a =? b)%N && starts_with p' s'
  | _ :: _, [] => false
  end.

(** The values [json.loads] reads that are not modelled: an array, [null],
    [true], [false], [NaN], [Infinity] and [-Infinity]. *)
Definition unmodelled_value (s : pystr) : bool :=
  starts_with [91%N] s
  || starts_with [110; 117; 108; 108]%N s
  || starts_with [116; 114; 117; 101]%N s
  || starts_with [102; 97; 108; 115; 101]%N s
  || starts_with [78; 97; 78]%N s
  || starts_with [73; 110; 102; 105; 110; 105; 116; 121]%N s
  || starts_with [45; 73; 110; 102; 105; 110; 105; 116; 121]%N s.

(** [scan_once] and the loop of [JSONObject].  [parse_members] starts after
    the opening quote of a key and returns the pairs up to the closing
    brace. *)
Fixpoint parse_value (fuel : nat) (s : pystr) : outcome (json * pystr) :=
  match fuel with
  | 0 => Diverge
  | S fuel' =>
      match s with
      | [] => Raise JSONDecodeError
      | c :: rest =>
          if (c =? 34)%N then
            '(str, rest') ← scanstring rest; Ok (JStr str, rest')
          else if (c =? 123)%N then
            match skip_ws rest with
            | c' :: rest' =>
                if (c' =? 125)%N then Ok (JObj [], rest')
                else if (c' =? 34)%N then
                  '(pairs, rest'') ← parse_members fuel' rest';
                  Ok (JObj (dict_of_pairs pairs), rest'')
                else Raise JSONDecodeError
            | [] => Raise JSONDecodeError
            end
          else if unmodelled_value s then OutOfModel
          else parse_number s
      end
  end
with parse_members (fuel : nat) (s : pystr) : outcome (list (pystr * json) * pystr) :=
  match fuel with
  | 0 => Diverge
  | S fuel' =>
      '(key, rest) ← scanstring s;
      match skip_ws rest with
      | c :: rest =>
          if (c =? 58)%N then
            '(value, rest) ← parse_value fuel' (skip_ws rest);
            match skip_ws rest with
            | c :: rest =>
                if (c =? 125)%N then Ok ([(key, value)], rest)
                else if (c =? 44)%N then
                  match skip_ws rest with
                  | c :: rest =>
                      if (c =? 34)%N then
                        '(pairs, rest) ← parse_members fuel' rest;
                        Ok ((key, value) :: pairs, rest)
                      else Raise JSONDecodeError
                  | [] => Raise JSONDecodeError
                  end
                else Raise JSONDecodeError
            | [] => Raise JSONDecodeError
            end
          else Raise JSONDecodeError
      | [] => Raise JSONDecodeError
      end
  end.

(** [json.loads(s)] for a [str]: a byte order mark is refused, white space
    may surround the value, nothing else may follow it. *)
Definition json_loads (s : pystr) : outcome json :=
  if starts_with [0xfeff%N] s then Raise JSONDecodeError
  else
    '(v, rest) ← parse_value (S (length s)) (skip_ws s);
    match skip_ws rest with
    | [] => Ok v
    | _ :: _ => Raise JSONDecodeError
    end.

(** [v[key]] with a [str] key. *)
Definition subscript (v : json) (key : pystr) : outcome json :=
  match v with
  | JObj items => dict_getitem key items
  | JInt _ | JStr _ => Raise TypeError
  end.

(** ** UTF-8 *)

(** [c.encode('utf-8')] for one code point; a surrogate has no encoding. *)
Definition utf8_encode_char (c : codepoint) : outcome (list N) :=
  (if c <? 0x80 then Ok [c]
   else if c <? 0x800 then Ok [0xc0 + c / 64; 0x80 + c mod 64]
   else if c <? 0x10000 then
     if (0xd800 <=? c) && (c <=? 0xdfff) then Raise UnicodeEncodeError
     else Ok [0xe0 + c / 4096; 0x80 + c / 64 mod 64; 0x80 + c mod 64]
   else if c <? 0x110000 then
     Ok [0xf0 + c / 262144; 0x80 + c / 4096 mod 64; 0x80 + c / 64 mod 64;
         0x80 + c mod 64]
   else Raise UnicodeEncodeError)%N.

Definition utf8_encode (s : pystr) : outcome (list N) :=
  chunks ← mapM_outcome utf8_encode_char s; Ok (concat chunks).

Definition in_range (lo hi b : N) : bool := ((lo <=? b) && (b <=? hi))%N.

(** [bs.decode('utf-8')], strict: shortest forms only, no surrogates,
    nothing above [U+10FFFF]. *)
Fixpoint utf8_decode (bs : list N) : outcome pystr :=
  match bs with
  | [] => Ok []
  | b0 :: r0 =>
      if (b0 <? 0x80)%N then s ← utf8_decode r0; Ok (b0 :: s)
      else if in_range 0xc2 0xdf b0 then
        match r0 with
        | b1 :: r1 =>
            if in_range 0x80 0xbf b1 then
              s ← utf8_decode r1; Ok (((b0 - 0xc0) * 64 + (b1 - 0x80))%N :: s)
            else Raise UnicodeDecodeError
        | _ => Raise UnicodeDecodeError
        end
      else if in_range 0xe0 0xef b0 then
        match r0 with
        | b1 :: b2 :: r2 =>
            if in_range
                 (if (b0 =? 0xe0)%N then 0xa0 else 0x80)%N
                 (if (b0 =? 0xed)%N then 0x9f else 0xbf)%N b1
               && in_range 0x80 0xbf b2 then
              s ← utf8_decode r2;
              Ok ((((b0 - 0xe0) * 64 + (b1 - 0x80)) * 64 + (b2 - 0x80))%N :: s)
            else Raise UnicodeDecodeError
        | _ => Raise UnicodeDecodeError
        end
      else if in_range 0xf0 0xf4 b0 then
        match r0 with
        | b1 :: b2 :: b3 :: r3 =>
            if in_range
                 (if (b0 =? 0xf0)%N then 0x90 else 0x80)%N
                 (if (b0 =? 0xf4)%N then 0x8f else 0xbf)%N b1
               && in_range 0x80 0xbf b2 && in_range 0x80 0xbf b3 then
              s ← utf8_decode r3;
              Ok (((((b0 - 0xf0) * 64 + (b1 - 0x80)) * 64 + (b2 - 0x80)) * 64
                   + (b3 - 0x80))%N :: s)
            else Raise UnicodeDecodeError
        | _ => Raise UnicodeDecodeError
        end
      else Raise UnicodeDecodeError
  end.

(** ** compress and decompress *)

Definition key_frequency : pystr :=
  [102; 114; 101; 113; 117; 101; 110; 99; 121]%N.

Definition key_original_extension : pystr :=
  [111; 114; 105; 103; 105; 110; 97; 108; 95; 101; 120; 116; 101; 110; 115;
   105; 111; 110]%N.

Definition frequency_json (frequency : dict pystr Z) : json :=
  JObj ((fun item => (item.1, JInt item.2)) <$> frequency).

(** The dictionary [header] of [compress]. *)
Definition header_json (frequency : dict pystr Z) (ext : pystr) : json :=
  JObj [(key_frequency, frequency_json frequency);
        (key_original_extension, JStr ext)].

(** [compress], from the text read from the file at [path] and the
    extension [ext] of [path] to the bytes written to the output file.  The
    figures it returns (sizes, ratio, time) are not modelled. *)
Definition compress (ident : identities) (ext text : pystr) : method (list N) :=
  let frequency := make_frequency_dict text in
  _ ← make_heap ident frequency;
  _ ← merge_nodes (fun i => ident (length frequency + i));
  _ ← make_codes;
  encoded_text ← get_encoded_text text;
  let padded_encoded_text := pad_encoded_text encoded_text in
  byte_array ← lift (get_byte_array padded_encoded_text);
  let header := header_json frequency ext in
  header_bytes ← lift (utf8_encode (json_dumps header ++ [10%N]));
  ret (header_bytes ++ byte_array).

(** The first loop of [decompress]: the bytes before the first newline and
    the bytes after it.  At the end of the file [read(1)] returns the empty
    bytes object, which is not the newline, and the loop goes on forever. *)
Fixpoint read_header (file : list N) : outcome (list N * list N) :=
  match file with
  | [] => Diverge
  | byte :: file' =>
      if (byte =? 10)%N then Ok ([], file')
      else '(header_bytes, rest) ← read_header file'; Ok (byte :: header_bytes, rest)
  end.

(** What [make_heap] reads when it iterates over the parsed [frequency] and
    subscripts it.  Weights that are not integers are not modelled. *)
Definition as_frequency (v : json) : outcome (dict pystr Z) :=
  match v with
  | JObj items =>
      mapM_outcome
        (fun item =>
           match item.2 with
           | JInt z => Ok (item.1, z)
           | _ => OutOfModel
           end)
        items
  | JStr [] => Ok []
  | JStr (_ :: _) => Raise TypeError
  | JInt _ => Raise TypeError
  end.

(** [decompress], from the bytes of the file at [path] to the text written
    to the output file and the value put into its name. *)
Definition decompress (ident : identities) (file : list N) : method (pystr * json) :=
  '(header_bytes, payload) ← lift (read_header file);
  header_text ← lift (utf8_decode header_bytes);
  header ← lift (json_loads header_text);
  frequency ← lift (subscript header key_frequency);
  ext ← lift (subscript header key_original_extension);
  frequency ← lift (as_frequency frequency);
  _ ← make_heap ident frequency;
  _ ← merge_nodes (fun i => ident (length frequency + i));
  _ ← make_codes;
  let bit_string := bit_string_of_bytes payload in
  encoded_text ← lift (remove_padding bit_string);
  decode_tree ← build_decode_tree;
  decompressed_text ← lift (decode_text_tree encoded_text decode_tree);
  ret (decompressed_text, ext).

(** * Definitions for the statements *)

(** The leaves below a node with the code of each, as [make_codes_helper]
    meets them. *)
Fixpoint leaf_codes (root : HeapNode) (current_code : bitstring)
    : list (pystr * bitstring) :=
  match root with
  | mkHeapNode _ (Some c) _ _ _ => [(c, current_code)]
  | mkHeapNode _ None _ l r =>
      match l with
      | Some n => leaf_codes n (current_code ++ [false])
      | None => []
      end
      ++ match r with
         | Some n => leaf_codes n (current_code ++ [true])
         | None => []
         end
  end.

(** The nodes [make_heap] and [merge_nodes] build: a leaf with its character
    and no child, or a node without character over two such nodes. *)
Inductive built : HeapNode -> Prop :=
  | built_leaf i c f : built (mkHeapNode i (Some c) f None None)
  | built_merged i f l r :
      built l -> built r -> built (mkHeapNode i None f (Some l) (Some r)).

Definition node_leaves (n : HeapNode) : list pystr := (leaf_codes n []).*1.

Definition heap_leaves (h : list HeapNode) : list pystr :=
  concat (node_leaves <$> h).

(** The three calls by which [compress] and [decompress] get the codes. *)
Definition build_codes (ident : identities) (frequency : dict pystr Z)
    : method unit :=
  _ ← make_heap ident frequency;
  _ ← merge_nodes (fun i => ident (length frequency + i));
  make_codes.


Definition store_all (items : list (pystr * bitstring)) (d : dict pystr bitstring)
    : dict pystr bitstring :=
  fold_left (fun d kv => dict_set kv.1 kv.2 d) items d.


#[global] Instance outcome_fmap : FMap outcome := fun A B f m =>
  match m with
  | Ok a => Ok (f a)
  | Raise e => Raise e
  | Diverge => Diverge
  | OutOfModel => OutOfModel
  end.

(** The node with the identity of every object in it forgotten. *)
Fixpoint erase_oid (n : HeapNode) : HeapNode :=
  match n with
  | mkHeapNode _ c f l r =>
      mkHeapNode 0 c f
        (match l with Some l' => Some (erase_oid l') | None => None end)
        (match r with Some r' => Some (erase_oid r') | None => None end)
  end.

Definition erase_self (self : HuffmanCoding) : HuffmanCoding :=
  set_heap (erase_oid <$> heap self) self.

(** [m'] does on the object without identities what [m] does on the
    object, and returns the image under [g] of what [m] returns. *)
Definition commutes {A A'} (g : A -> A') (m : method A) (m' : method A') : Prop :=
  forall s, m' (erase_self s) = (g <$> (m s).1, erase_self (m s).2).

Definition no_identity : identities := fun _ => 0%N.

(** The dictionary on which the loop of [decode_text_tree] stands after
    [bits], started on [node]; [None] when a bit has no entry. *)
Fixpoint position (tree : dnode) (bits : bitstring) (node : dnode) : option dnode :=
  match bits with
  | [] => Some node
  | bit :: rest =>
      match dnode_child node bit with
      | None => None
      | Some node =>
          match dnode_chr node with
          | Some _ => position tree rest tree
          | None => position tree rest node
          end
      end
  end.


(** A code point of a [str] that is not a high surrogate.  Text decoded
    from UTF-8 has only such code points. *)
Definition text_char (c : codepoint) : Prop :=
  (c < 0x110000)%N /\ is_high_surrogate c = false.

Definition text (s : pystr) : Prop := Forall text_char s.

(** The characters from the space to the tilde. *)
Definition printable (c : codepoint) : Prop := (32 <= c <= 126)%N.

Definition leading_nonzero (u : Decimal.uint) : Prop :=
  match u with
  | Decimal.Nil | Decimal.D0 _ => False
  | _ => True
  end.

Definition frequency_items (frequency : dict pystr Z) : list (pystr * json) :=
  (fun item => (item.1, JInt item.2)) <$> frequency.

(** The steps of [compress] after the codes are made. *)
Definition write_artifact (ext text : pystr) (frequency : dict pystr Z)
    : method (list N) :=
  encoded_text ← get_encoded_text text;
  let padded_encoded_text := pad_encoded_text encoded_text in
  byte_array ← lift (get_byte_array padded_encoded_text);
  let header := header_json frequency ext in
  header_bytes ← lift (utf8_encode (json_dumps header ++ [10%N]));
  ret (header_bytes ++ byte_array).

(** The steps of [decompress] after the codes are made. *)
Definition read_payload (payload : list N) (ext : json) : method (pystr * json) :=
  let bit_string := bit_string_of_bytes payload in
  encoded_text ← lift (remove_padding bit_string);
  decode_tree ← build_decode_tree;
  decompressed_text ← lift (decode_text_tree encoded_text decode_tree);
  ret (decompressed_text, ext).

(** The steps of [decompress] before the heap is made. *)
Definition read_artifact_header (file : list N)
    : outcome (dict pystr Z * json * list N) :=
  '(header_bytes, payload) ← read_header file;
  header_text ← utf8_decode header_bytes;
  header ← json_loads header_text;
  frequency ← subscript header key_frequency;
  ext ← subscript header key_original_extension;
  frequency ← as_frequency frequency;
  Ok (frequency, ext, payload).

(** The decode tree that has the shape of a node of the heap. *)
Fixpoint mirror (n : HeapNode) : dnode :=
  match n with
  | mkHeapNode _ (Some c) _ _ _ => DNode None None (Some c)
  | mkHeapNode _ None _ l r =>
      DNode (match l with Some l' => Some (mirror l') | None => None end)
            (match r with Some r' => Some (mirror r') | None => None end)
            None
  end.

(** [f] applied to the dictionary at the end of [p], where [setdefault]
    makes the dictionaries that are missing on the way. *)
Fixpoint update_at (p : bitstring) (f : dnode -> dnode) (node : dnode) : dnode :=
  match p with
  | [] => f node
  | bit :: p' =>
      dnode_set_child node bit
        (update_at p' f (default dnode_empty (dnode_child node bit)))
  end.

Definition add_all (items : list (pystr * bitstring)) (tree : dnode) : dnode :=
  fold_left (fun tree item => decode_tree_add item.2 item.1 tree) items tree.

Definition under (p : bitstring) (item : pystr * bitstring) : pystr * bitstring :=
  (item.1, p ++ item.2).

#[global] Instance text_char_dec c : Decision (text_char c).
Proof. unfold text_char. apply _. Defined.

#[global] Instance text_dec s : Decision (text s).
Proof. unfold text. apply _. Defined.

(** The texts and objects of the examples. *)
Definition abracadabra : pystr := [97; 98; 114; 97; 99; 97; 100; 97; 98; 114; 97]%N.
Definition aaaa : pystr := [97; 97; 97; 97]%N.
Definition dot_txt : pystr := [46; 116; 120; 116]%N.





(** How often the character [c] is in the text [s]. *)
Definition occurrences (c : codepoint) (s : pystr) : Z :=
  Z.of_nat (length (filter (fun x => x = c) s)).

(** The sum of the values of a frequency table. *)
Definition values_sum (frequency : dict pystr Z) : Z :=
  foldr (fun item acc => (item.2 + acc)%Z) 0%Z frequency.

(** The step of the loop of [make_frequency_dict]. *)
Definition count_character (frequency : dict pystr Z) (c : codepoint)
    : dict pystr Z :=
  dict_set [c] (default 0%Z (dict_get [c] frequency) + 1)%Z frequency.

(** The characters of a text, each once, in the order in which they come
    first. *)
Definition first_occurrences (s : pystr) : pystr :=
  fold_left (fun seen c => if decide (c ∈ seen) then seen else seen ++ [c]) s [].

(** The leaves [make_heap] creates for [keys], the first with the identity
    [ident i]. *)
Fixpoint leaf_nodes (ident : identities) (i : nat) (frequency : dict pystr Z)
    (keys : list pystr) : list HeapNode :=
  match keys with
  | [] => []
  | key :: keys' =>
      mkHeapNode (ident i) (Some key) (default 0%Z (dict_get key frequency))
        None None
      :: leaf_nodes ident (S i) frequency keys'
  end.

(** The sum of the frequencies of the leaves below a node. *)
Fixpoint leaf_weight (n : HeapNode) : Z :=
  match n with
  | mkHeapNode _ (Some _) f _ _ => f
  | mkHeapNode _ None _ l r =>
      (match l with Some n => leaf_weight n | None => 0 end
       + match r with Some n => leaf_weight n | None => 0 end)%Z
  end.

(** The frequency of a node is the sum of the frequencies of its leaves. *)
Definition weighed (n : HeapNode) : Prop := freq n = leaf_weight n.

(** The sum of the frequencies of the nodes of a heap. *)
Definition heap_weight (h : list HeapNode) : Z :=
  foldr (fun n acc => (freq n + acc)%Z) 0%Z h.

(** The two calls that build the tree. *)
Definition build_tree (ident : identities) (frequency : dict pystr Z)
    : method unit :=
  _ ← make_heap ident frequency;
  merge_nodes (fun i => ident (length frequency + i)).

(** The decode tree of a file with one symbol: the root holds the
    character and has no branch. *)
Definition single_symbol_tree : dnode := DNode None None (Some [97%N]).

(** A method that leaves the attribute [reverse_mapping] as it is. *)
Definition keeps_reverse_mapping {A} (m : method A) : Prop :=
  forall self, reverse_mapping (m self).2 = reverse_mapping self.

Section heap_order.
Context {A : Type} (key : A -> Z).

(** The item at [i], when there is one, is not above the item at [j]. *)
Definition le_at (h : list A) (i j : nat) : Prop :=
forall x y, h !! i = Some x -> h !! j = Some y -> (key x <= key y)%Z.

(** The invariant of [heapq]: no item is below its parent, the item at
  [(j - 1) >> 1]. *)
Definition heap_ok (h : list A) : Prop :=
forall j, 0 < j -> le_at h ((j - 1) / 2) j.
End heap_order.

(** The trees that come from merging, again and again, two nodes of least
    frequency, the lesser to the left. *)
Inductive merged_greedily : list HeapNode -> HeapNode -> Prop :=
  | greedy_done root : merged_greedily [root] root
  | greedy_step h node1 node2 rest i root :
      h ≡ₚ node1 :: node2 :: rest ->
      (freq node1 <= freq node2)%Z ->
      Forall (fun n => (freq node2 <= freq n)%Z) rest ->
      merged_greedily
        (mkHeapNode i None (freq node1 + freq node2) (Some node1) (Some node2)
         :: rest) root ->
      merged_greedily h root.

(** * Lemmas *)

Lemma mapM_outcome_ext {A B} (f g : A -> outcome B) l :
  (forall a, a ∈ l -> f a = g a) -> mapM_outcome f l = mapM_outcome g l.
Proof.
  induction l as [|a l IH]; intros H; simpl; [done|].
  rewrite (H a) by constructor. rewrite IH; [done|].
  intros b Hb. apply H. by constructor.
Qed.

Lemma mapM_outcome_fmap {A B C} (f : B -> outcome C) (g : A -> B) l :
  mapM_outcome f (g <$> l) = mapM_outcome (fun a => f (g a)) l.
Proof. induction l as [|a l IH]; [done|]. rewrite fmap_cons. simpl. by rewrite IH. Qed.

Lemma extra_padding_range n : 1 <= 8 - n mod 8 <= 8.
Proof. pose proof (Nat.mod_upper_bound n 8). lia. Qed.

Lemma format_08b_small k :
  1 <= k <= 8 ->
  length (format_08b (N.of_nat k)) = 8
  /\ int2 (format_08b (N.of_nat k)) = Ok (N.of_nat k).
Proof.
  intros Hk.
  assert (k = 1 \/ k = 2 \/ k = 3 \/ k = 4 \/ k = 5 \/ k = 6 \/ k = 7 \/ k = 8)
    as Hc by lia.
  repeat (destruct Hc as [-> | Hc]; [by vm_compute|]). subst. by vm_compute.
Qed.

Lemma byte_chunk (c : bitstring) :
  length c = 8 ->
  exists v, int2 c = Ok v /\ as_byte v = Ok v /\ bits_of_byte v = c.
Proof.
  intros Hc.
  do 8 (destruct c as [|[] c]; [discriminate|..]);
    (destruct c; [|discriminate]); eexists; by vm_compute.
Qed.

Lemma range_step_8 m : range_step (8 * m) 8 = (fun k => k * 8) <$> seq 0 m.
Proof.
  unfold range_step. f_equal. f_equal.
  replace (8 * m + 8 - 1) with (7 + m * 8) by lia.
  rewrite Nat.div_add by lia. reflexivity.
Qed.

Lemma get_byte_array_chunks m : forall s : bitstring,
  length s = 8 * m ->
  exists bytes,
    mapM_outcome (fun i => n ← int2 (take 8 (drop i s)); as_byte n)
      ((fun k => k * 8) <$> seq 0 m) = Ok bytes
    /\ length bytes = m
    /\ bit_string_of_bytes bytes = s.
Proof.
  induction m as [|m IH]; intros s Hs.
  - exists []. destruct s; [done|discriminate].
  - destruct (byte_chunk (take 8 s)) as (v & Hv & Hb & Hbits).
    { rewrite length_take. lia. }
    destruct (IH (drop 8 s)) as (bytes & Hbytes & Hlen & Hcat).
    { rewrite length_drop. lia. }
    exists (v :: bytes). split_and!.
    + rewrite <- cons_seq, fmap_cons. simpl mapM_outcome.
      rewrite drop_0, Hv. simpl. rewrite Hb. simpl.
      rewrite <- fmap_S_seq, <- list_fmap_compose, mapM_outcome_fmap.
      rewrite mapM_outcome_fmap in Hbytes.
      erewrite mapM_outcome_ext; [rewrite Hbytes; done|].
      intros k _. simpl. rewrite drop_drop. reflexivity.
    + simpl. by rewrite Hlen.
    + unfold bit_string_of_bytes in *. rewrite fmap_cons. simpl.
      rewrite Hbits, Hcat. apply take_drop.
Qed.

Lemma pad_encoded_text_length b :
  length (pad_encoded_text b) = 8 + length b + (8 - length b mod 8).
Proof.
  unfold pad_encoded_text.
  destruct (format_08b_small (8 - length b mod 8)) as [Hl _];
    [apply extra_padding_range|].
  rewrite !length_app, Hl, length_replicate. lia.
Qed.

Lemma pad_encoded_text_aligned b :
  exists m, length (pad_encoded_text b) = 8 * m.
Proof.
  rewrite pad_encoded_text_length.
  pose proof (Nat.div_mod_eq (length b) 8).
  pose proof (Nat.mod_upper_bound (length b) 8).
  exists (2 + length b / 8). lia.
Qed.

Lemma remove_padding_framed (k : nat) (hdr b : bitstring) :
  1 <= k -> length hdr = 8 -> int2 hdr = Ok (N.of_nat k) ->
  remove_padding (hdr ++ b ++ replicate k false) = Ok b.
Proof.
  intros Hk Hl Hv. unfold remove_padding.
  rewrite take_app_length' by done. rewrite Hv.
  change (Ok (N.of_nat k) ≫= ?f) with (f (N.of_nat k)). cbv beta.
  rewrite Nat2N.id. unfold slice_to_neg.
  destruct k as [|k]; [lia|].
  rewrite drop_app_length' by done.
  rewrite !length_app, length_replicate, Hl.
  replace (8 + (length b + S k) - S k - 8) with (length b) by lia.
  by rewrite take_app_length.
Qed.

Lemma remove_padding_pad b : remove_padding (pad_encoded_text b) = Ok b.
Proof.
  pose proof (extra_padding_range (length b)) as Hk.
  destruct (format_08b_small _ Hk) as [Hl Hv].
  apply remove_padding_framed; [lia|done..].
Qed.

Lemma bind_Ok {A B} (a : A) (f : A -> outcome B) : Ok a ≫= f = f a.
Proof. reflexivity. Qed.

Section pylist_facts.
Context {A : Type}.
Implicit Types l : list A.

Lemma getitem_Ok l i x : l !! i = Some x -> getitem l i = Ok x.
Proof. unfold getitem. by intros ->. Qed.

Lemma setitem_Ok l i x : i < length l -> setitem l i x = Ok (<[i:=x]> l).
Proof. unfold setitem. intros H. by rewrite decide_True. Qed.

Lemma insert_move l i j x y :
i ≠ j -> i < length l -> l !! j = Some y ->
<[j:=x]> (<[i:=y]> l) ≡ₚ <[i:=x]> l.
Proof.
intros Hij Hi Hj.
rewrite <- (list_insert_insert_eq l i y x).
apply Permutation_insert_swap.
- by apply list_lookup_insert_eq.
- by rewrite list_lookup_insert_ne.
Qed.

Lemma list_pop_snoc l x : list_pop (l ++ [x]) = Ok (x, l).
Proof.
unfold list_pop. rewrite last_snoc, length_app. simpl.
replace (length l + 1 - 1) with (length l) by lia.
by rewrite take_app_length.
Qed.

Lemma list_pop_nil : list_pop (@nil A) = Raise IndexError.
Proof. reflexivity. Qed.
End pylist_facts.

Section heapq_facts.
Context {A : Type} (lt : A -> A -> bool).
Implicit Types heap : list A.

Lemma siftdown_loop_0 heap newitem startpos pos :
siftdown_loop lt 0 heap newitem startpos pos =
if decide (startpos < pos) then Diverge else setitem heap pos newitem.
Proof. reflexivity. Qed.

Lemma siftdown_loop_S fuel heap newitem startpos pos :
siftdown_loop lt (S fuel) heap newitem startpos pos =
if decide (startpos < pos) then
  parent ← getitem heap ((pos - 1) / 2);
  if lt newitem parent then
    heap ← setitem heap pos parent;
    siftdown_loop lt fuel heap newitem startpos ((pos - 1) / 2)
  else setitem heap pos newitem
else setitem heap pos newitem.
Proof. reflexivity. Qed.

Lemma siftup_loop_0 heap endpos pos :
siftup_loop lt 0 heap endpos pos =
if decide (2 * pos + 1 < endpos) then Diverge else Ok (heap, pos).
Proof. reflexivity. Qed.

Lemma siftup_loop_S fuel heap endpos pos :
siftup_loop lt (S fuel) heap endpos pos =
if decide (2 * pos + 1 < endpos) then
  childpos ←
    (if decide (2 * pos + 1 + 1 < endpos) then
       l ← getitem heap (2 * pos + 1);
       r ← getitem heap (2 * pos + 1 + 1);
       Ok (if negb (lt l r) then 2 * pos + 1 + 1 else 2 * pos + 1)
     else Ok (2 * pos + 1));
  child ← getitem heap childpos;
  heap ← setitem heap pos child;
  siftup_loop lt fuel heap endpos childpos
else Ok (heap, pos).
Proof. reflexivity. Qed.

Lemma siftdown_loop_spec fuel : forall heap newitem startpos pos,
pos <= fuel -> pos < length heap ->
exists heap',
  siftdown_loop lt fuel heap newitem startpos pos = Ok heap'
  /\ heap' ≡ₚ <[pos:=newitem]> heap.
Proof.
induction fuel as [|fuel IH]; intros heap newitem startpos pos Hfuel Hpos;
  rewrite ?siftdown_loop_0, ?siftdown_loop_S;
  destruct (decide (startpos < pos)) as [Hlt|Hge];
  try (rewrite setitem_Ok by done; eauto; fail); [lia|].
assert ((pos - 1) / 2 < pos) as Hparent.
{ apply Nat.Div0.div_lt_upper_bound. lia. }
destruct (lookup_lt_is_Some_2 heap ((pos - 1) / 2)) as [parent Hp]; [lia|].
rewrite (getitem_Ok _ _ _ Hp), bind_Ok.
destruct (lt newitem parent); [|rewrite setitem_Ok by done; eauto].
rewrite setitem_Ok, bind_Ok by done.
destruct (IH (<[pos:=parent]> heap) newitem startpos ((pos - 1) / 2))
  as (heap' & -> & Hperm); [lia|rewrite length_insert; lia|].
exists heap'. split; [done|]. rewrite Hperm.
apply insert_move; [lia|done..].
Qed.

Lemma _siftdown_spec heap startpos pos :
pos < length heap ->
exists heap', _siftdown lt heap startpos pos = Ok heap' /\ heap' ≡ₚ heap.
Proof.
intros Hpos. unfold _siftdown.
destruct (lookup_lt_is_Some_2 heap pos Hpos) as [newitem Hn].
rewrite (getitem_Ok _ _ _ Hn), bind_Ok.
destruct (siftdown_loop_spec pos heap newitem startpos pos)
  as (heap' & -> & Hperm); [done..|].
exists heap'. split; [done|]. by rewrite Hperm, list_insert_id.
Qed.

Lemma siftup_loop_spec fuel : forall heap pos,
length heap <= fuel + pos -> pos < length heap ->
exists heap' pos',
  siftup_loop lt fuel heap (length heap) pos = Ok (heap', pos')
  /\ pos' < length heap
  /\ length heap' = length heap
  /\ forall x, <[pos':=x]> heap' ≡ₚ <[pos:=x]> heap.
Proof.
induction fuel as [|fuel IH]; intros heap pos Hfuel Hpos;
  rewrite ?siftup_loop_0, ?siftup_loop_S;
  destruct (decide (2 * pos + 1 < length heap)) as [Hc|Hc];
  try (by eauto 10); [lia|].
set (childpos := 2 * pos + 1) in *.
assert (exists c, c < length heap /\ pos < c /\
  (if decide (childpos + 1 < length heap)
   then l ← getitem heap childpos; r ← getitem heap (childpos + 1);
        Ok (if negb (lt l r) then childpos + 1 else childpos)
   else Ok childpos) = Ok c) as (c & Hc1 & Hc2 & ->).
{ destruct (decide (childpos + 1 < length heap)) as [Hr|Hr].
  - destruct (lookup_lt_is_Some_2 heap childpos) as [l Hl]; [lia|].
    destruct (lookup_lt_is_Some_2 heap (childpos + 1)) as [r Hr']; [lia|].
    rewrite (getitem_Ok _ _ _ Hl), bind_Ok, (getitem_Ok _ _ _ Hr'), bind_Ok.
    destruct (negb (lt l r)); eexists; (split_and!; [| |done]); lia.
  - exists childpos. split_and!; [lia|lia|done]. }
rewrite bind_Ok.
destruct (lookup_lt_is_Some_2 heap c Hc1) as [child Hchild].
rewrite (getitem_Ok _ _ _ Hchild), bind_Ok, setitem_Ok, bind_Ok by done.
destruct (IH (<[pos:=child]> heap) c) as (heap' & pos' & Hrun & Hp & Hl & Hperm).
{ rewrite length_insert. lia. }
{ rewrite length_insert. lia. }
rewrite length_insert in Hrun, Hp, Hl. rewrite Hrun.
exists heap', pos'. split_and!; [done..|].
intros x. rewrite Hperm. apply insert_move; [lia|done..].
Qed.

Lemma _siftup_spec heap pos :
pos < length heap ->
exists heap', _siftup lt heap pos = Ok heap' /\ heap' ≡ₚ heap.
Proof.
intros Hpos. unfold _siftup.
destruct (lookup_lt_is_Some_2 heap pos Hpos) as [newitem Hn].
rewrite (getitem_Ok _ _ _ Hn), bind_Ok.
destruct (siftup_loop_spec (length heap) heap pos)
  as (heap1 & pos1 & -> & Hp & Hl & Hperm); [lia|done|].
rewrite bind_Ok, setitem_Ok, bind_Ok by lia.
destruct (_siftdown_spec (<[pos1:=newitem]> heap1) pos pos1)
  as (heap' & -> & Hperm'); [rewrite length_insert; lia|].
exists heap'. split; [done|].
by rewrite Hperm', Hperm, list_insert_id.
Qed.

Lemma heappush_spec heap item :
exists heap', heappush lt heap item = Ok heap' /\ heap' ≡ₚ item :: heap.
Proof.
unfold heappush.
destruct (_siftdown_spec (heap ++ [item]) 0 (length (heap ++ [item]) - 1))
  as (heap' & -> & Hperm); [rewrite length_app; simpl; lia|].
exists heap'. split; [done|].
by rewrite Hperm, Permutation_app_comm.
Qed.

Lemma heappop_nil : heappop lt [] = Raise IndexError.
Proof. reflexivity. Qed.

Lemma heappop_spec heap :
heap ≠ [] ->
exists item heap', heappop lt heap = Ok (item, heap') /\ item :: heap' ≡ₚ heap.
Proof.
intros Hne. destruct (exists_last Hne) as (h & lastelt & ->).
unfold heappop. rewrite list_pop_snoc, bind_Ok.
destruct h as [|returnitem h].
- by exists lastelt, [].
- change (getitem (returnitem :: h) 0) with (Ok (A:=A) returnitem).
  rewrite bind_Ok, setitem_Ok, bind_Ok by (simpl; lia).
  simpl insert.
  destruct (_siftup_spec (lastelt :: h) 0) as (heap' & -> & Hperm);
    [simpl; lia|].
  exists returnitem, heap'. split; [done|].
  rewrite Hperm. simpl. f_equiv. apply Permutation_cons_append.
Qed.
End heapq_facts.

Lemma method_bind_Ok {A B} (m : method A) (k : A -> method B) self a self' :
  m self = (Ok a, self') -> (m ≫= k) self = k a self'.
Proof. intros H. unfold mbind, method_bind. by rewrite H. Qed.

Section dict_facts.
Context {K V : Type} `{EqDecision K}.
Implicit Types d : dict K V.

Lemma dict_get_None k d : dict_get k d = None <-> k ∉ dict_keys d.
Proof.
induction d as [|[k' v] d IH]; simpl.
- split; [intros _; apply not_elem_of_nil|done].
- rewrite not_elem_of_cons. destruct (decide (k = k')); [|tauto].
  split; [done|]. intros [? _]. done.
Qed.

Lemma dict_get_Some_elem k v d : dict_get k d = Some v -> (k, v) ∈ d.
Proof.
induction d as [|[k' v'] d IH]; simpl; [done|].
destruct (decide (k = k')) as [->|]; intros H.
- injection H as ->. left.
- right. auto.
Qed.

Lemma dict_get_NoDup k v d :
NoDup (dict_keys d) -> (k, v) ∈ d -> dict_get k d = Some v.
Proof.
induction d as [|[k' v'] d IH]; simpl; intros Hnd Hin.
- by apply elem_of_nil in Hin.
- apply NoDup_cons in Hnd as [Hk' Hnd].
  apply elem_of_cons in Hin as [Heq|Hin].
  + injection Heq as -> ->. by rewrite decide_True.
  + destruct (decide (k = k')) as [->|]; [|by apply IH].
    exfalso. apply Hk'. apply list_elem_of_fmap. by exists (k', v).
Qed.

Lemma dict_set_fresh k v d :
k ∉ dict_keys d -> dict_set k v d = d ++ [(k, v)].
Proof.
induction d as [|[k' v'] d IH]; simpl; [done|].
rewrite not_elem_of_cons. intros [Hne Hk].
rewrite decide_False by done. by rewrite IH.
Qed.

Lemma dict_keys_set k v d :
dict_keys (dict_set k v d) =
if decide (k ∈ dict_keys d) then dict_keys d else dict_keys d ++ [k].
Proof.
induction d as [|[k' v'] d IH].
- case_decide as H; [by apply elem_of_nil in H|done].
- cbn [dict_set]. unfold dict_keys in *. rewrite !fmap_cons. cbn [fst].
  destruct (decide (k = k')) as [->|Hne].
  + rewrite fmap_cons, decide_True; [done|left].
  + rewrite fmap_cons, IH. cbn [fst].
    destruct (decide (k ∈ d.*1)) as [Hin|Hin].
    * rewrite decide_True; [done|by right].
    * rewrite decide_False; [done|]. by apply not_elem_of_cons.
Qed.

Lemma dict_get_set k k' v d :
dict_get k (dict_set k' v d) = if decide (k = k') then Some v else dict_get k d.
Proof.
induction d as [|[k'' v''] d IH]; simpl.
- by destruct (decide (k = k')).
- destruct (decide (k' = k'')) as [->|Hne]; simpl.
  + by destruct (decide (k = k'')).
  + rewrite IH. destruct (decide (k = k'')) as [->|]; [|done].
    by rewrite decide_False.
Qed.

Lemma dict_set_NoDup k v d : NoDup (dict_keys d) -> NoDup (dict_keys (dict_set k v d)).
Proof.
intros Hnd. rewrite dict_keys_set. case_decide; [done|].
apply NoDup_app. split_and!; [done| |apply NoDup_singleton].
intros x Hx Hx'. apply list_elem_of_singleton in Hx'. by subst.
Qed.

(** Storing items whose keys are new and distinct appends them. *)
Lemma dict_set_all_fresh (items : list (K * V)) d :
NoDup (dict_keys d ++ items.*1) ->
fold_left (fun d kv => dict_set kv.1 kv.2 d) items d = d ++ items.
Proof.
revert d. induction items as [|[k v] items IH]; intros d Hnd; simpl.
- by rewrite app_nil_r.
- rewrite dict_set_fresh.
  + rewrite IH; [by rewrite <- app_assoc|].
    unfold dict_keys in *. rewrite fmap_app, <- app_assoc. done.
  + apply NoDup_app in Hnd as (_ & Hd & _). intros Hin.
    apply (Hd k Hin). left.
Qed.

End dict_facts.

Lemma make_codes_helper_leaf_codes root :
  built root ->
  forall p d, make_codes_helper root p d = store_all (leaf_codes root p) d.
Proof.
  unfold store_all.
  induction 1 as [i c f|i f l r _ IHl _ IHr]; intros p d; simpl; [done|].
  by rewrite fold_left_app, IHl, IHr.
Qed.

Lemma leaf_codes_prefix root :
  built root ->
  forall p, Forall (fun kv => p `prefix_of` kv.2) (leaf_codes root p).
Proof.
  induction 1 as [i c f|i f l r _ IHl _ IHr]; intros p; simpl.
  - by repeat constructor.
  - apply Forall_app. split;
      (eapply Forall_impl; [apply IHl || apply IHr|]); simpl;
      intros kv [k Hk]; eexists; rewrite Hk, <- app_assoc; reflexivity.
Qed.

Lemma leaf_codes_nonempty root :
  built root -> forall p, leaf_codes root p ≠ [].
Proof.
  induction 1 as [i c f|i f l r Hl IHl _ _]; intros p; simpl; [done|].
  intros [H _]%app_eq_nil. by apply IHl in H.
Qed.

Lemma leaf_codes_keys root :
  built root -> forall p, (leaf_codes root p).*1 = node_leaves root.
Proof.
  unfold node_leaves.
  induction 1 as [i c f|i f l r _ IHl _ IHr]; intros p; simpl; [done|].
  by rewrite !fmap_app, IHl, IHr, (IHl [false]), (IHr [true]).
Qed.




Lemma heap_leaves_Permutation (h h' : list HeapNode) :
  h ≡ₚ h' -> heap_leaves h ≡ₚ heap_leaves h'.
Proof.
  unfold heap_leaves. induction 1; simpl; try done.
  - by f_equiv.
  - rewrite !app_assoc. f_equiv. apply Permutation_app_comm.
  - etrans; eauto.
Qed.

Lemma heap_leaves_cons n h : heap_leaves (n :: h) = node_leaves n ++ heap_leaves h.
Proof. reflexivity. Qed.

Lemma built_Permutation (h h' : list HeapNode) :
  h ≡ₚ h' -> Forall built h -> Forall built h'.
Proof. intros Hp. by rewrite Hp. Qed.

Section build.
Variable ident : identities.

Lemma make_heap_loop_spec frequency : forall keys i h0,
Forall built h0 ->
(forall key, key ∈ keys -> is_Some (dict_get key frequency)) ->
exists h,
  (forall self, heap self = h0 ->
     make_heap_loop ident i frequency keys self = (Ok tt, set_heap h self))
  /\ Forall built h
  /\ heap_leaves h ≡ₚ heap_leaves h0 ++ keys
  /\ length h = length h0 + length keys.
Proof.
induction keys as [|key keys IH]; intros i h0 Hb Hk.
- exists h0. rewrite app_nil_r, Nat.add_0_r. split_and!; [|done..].
  intros [] <-. reflexivity.
- destruct (Hk key) as [f Hf]; [left|].
  destruct (heappush_spec HeapNode_lt h0
              (mkHeapNode (ident i) (Some key) f None None))
    as (h1 & Hpush & Hperm).
  destruct (IH (S i) h1) as (h & Hrun & Hbh & Hl & Hlen).
  { rewrite Hperm. constructor; [constructor|done]. }
  { intros k' Hk'. apply Hk. by right. }
  exists h. split_and!; [|done| |].
  + intros self <-. cbn [make_heap_loop].
    unfold mbind at 1, method_bind, lift.
    unfold dict_getitem. rewrite Hf.
    unfold mbind at 1, method_bind, get_attr.
    unfold mbind at 1, method_bind. rewrite Hpush.
    unfold mbind at 1, method_bind, put_heap.
    rewrite (Hrun (set_heap h1 self)) by done. by destruct self.
  + rewrite Hl, (heap_leaves_Permutation _ _ Hperm), heap_leaves_cons.
    unfold node_leaves at 1. simpl.
    by rewrite <- Permutation_middle.
  + rewrite Hlen. apply Permutation_length in Hperm.
    rewrite Hperm. simpl. lia.
Qed.
End build.

Section build2.
Variable ident : identities.

Lemma merge_loop_spec : forall fuel i h0,
length h0 <= S fuel ->
Forall built h0 ->
exists h,
  (forall self, heap self = h0 ->
     merge_loop fuel ident i self = (Ok tt, set_heap h self))
  /\ Forall built h
  /\ heap_leaves h ≡ₚ heap_leaves h0
  /\ length h = Nat.min 1 (length h0).
Proof.
induction fuel as [|fuel IH]; intros i h0 Hfuel Hb;
  (destruct (decide (1 < length h0)) as [Hlen|Hlen];
   [|exists h0; split_and!; [|done|done|lia];
     intros self <-; destruct fuel || idtac; simpl;
     rewrite decide_False by done; by destruct self]); [lia|].
destruct (heappop_spec HeapNode_lt h0) as (node1 & h1 & Hpop1 & Hp1).
{ intros E. rewrite E in Hlen. simpl in Hlen. lia. }
destruct (heappop_spec HeapNode_lt h1) as (node2 & h2 & Hpop2 & Hp2).
{ intros ->. apply Permutation_length in Hp1. simpl in Hp1. lia. }
set (merged := mkHeapNode (ident i) None (freq node1 + freq node2)
                 (Some node1) (Some node2)).
destruct (heappush_spec HeapNode_lt h2 merged) as (h3 & Hpush & Hp3).
assert (built node1 /\ built node2 /\ Forall built h2) as (B1 & B2 & B3).
{ rewrite <- Hp1, <- Hp2 in Hb.
  by apply Forall_cons in Hb as [? [? ?]%Forall_cons]. }
destruct (IH (S i) h3) as (h & Hrun & Hbh & Hl & Hlenh).
{ apply Permutation_length in Hp1, Hp2, Hp3. simpl in *. lia. }
{ rewrite Hp3. constructor; [by constructor|done]. }
exists h. split_and!; [|done| |].
- intros self <-. cbn [merge_loop]. rewrite decide_True by done.
  unfold mbind at 1, method_bind, get_attr.
  unfold mbind at 1, method_bind, lift. rewrite Hpop1.
  unfold mbind at 1, method_bind, put_heap.
  unfold mbind at 1, method_bind. simpl heap. rewrite Hpop2.
  unfold mbind at 1, method_bind.
  unfold mbind at 1, method_bind. fold merged. rewrite Hpush.
  unfold mbind at 1, method_bind.
  rewrite (Hrun (set_heap h3 (set_heap h2 (set_heap h1 self)))) by done.
  by destruct self.
- rewrite Hl, (heap_leaves_Permutation _ _ Hp3).
  rewrite <- (heap_leaves_Permutation _ _ Hp1), !heap_leaves_cons.
  rewrite <- (heap_leaves_Permutation _ _ Hp2), heap_leaves_cons.
  rewrite app_assoc. f_equiv.
  unfold node_leaves at 1. simpl. rewrite fmap_app.
  by rewrite (leaf_codes_keys _ B1), (leaf_codes_keys _ B2).
- apply Permutation_length in Hp3.
  rewrite Hp3 in Hlenh. cbn [length] in Hlenh. lia.
Qed.
End build2.

Lemma heappop_singleton (root : HeapNode) :
  heappop HeapNode_lt [root] = Ok (root, []).
Proof. reflexivity. Qed.

Lemma dict_getitem_keys (frequency : dict pystr Z) key :
  key ∈ dict_keys frequency -> is_Some (dict_get key frequency).
Proof.
  intros Hin. destruct (dict_get key frequency) eqn:E; [by eexists|].
  by apply dict_get_None in E.
Qed.

(** What the three calls do on an object whose heap is empty. *)
Lemma build_codes_spec ident frequency :
  frequency ≠ [] ->
  exists root,
    built root
    /\ node_leaves root ≡ₚ dict_keys frequency
    /\ forall self, heap self = [] ->
         build_codes ident frequency self
         = (Ok tt, set_codes (make_codes_helper root [] (codes self)) self).
Proof.
  intros Hne. unfold build_codes, make_heap, merge_nodes.
  destruct (make_heap_loop_spec ident frequency (dict_keys frequency) 0 [])
    as (h1 & Hrun1 & Hb1 & Hl1 & Hlen1); [constructor|apply dict_getitem_keys|].
  simpl in Hl1, Hlen1.
  destruct (merge_loop_spec (fun i => ident (length frequency + i))
              (length h1) 0 h1)
    as (h2 & Hrun2 & Hb2 & Hl2 & Hlen2); [lia|done|].
  assert (length h1 ≠ 0) as Hh1.
  { rewrite Hlen1. unfold dict_keys. rewrite length_fmap.
    by destruct frequency. }
  destruct h2 as [|root [|? ?]]; cbn [length] in Hlen2; [lia| |lia].
  exists root. split_and!.
  - by apply Forall_cons in Hb2 as [? _].
  - rewrite <- Hl1, <- Hl2. unfold heap_leaves. simpl. by rewrite app_nil_r.
  - intros self Hheap.
    unfold mbind at 1, method_bind. rewrite (Hrun1 self Hheap).
    unfold mbind at 1, method_bind.
    change (heap (set_heap h1 self)) with h1.
    rewrite (Hrun2 (set_heap h1 self)) by done.
    unfold make_codes.
    unfold mbind at 1, method_bind, get_attr.
    unfold mbind at 1, method_bind, lift. simpl heap.
    rewrite heappop_singleton.
    unfold mbind at 1, method_bind, put_heap.
    unfold mbind at 1, method_bind, put_codes.
    destruct self; simpl in *. by subst.
Qed.

Lemma fresh_codes root :
  built root -> NoDup (node_leaves root) ->
  make_codes_helper root [] [] = leaf_codes root [].
Proof.
  intros Hb Hnd. rewrite make_codes_helper_leaf_codes by done.
  unfold store_all. by rewrite dict_set_all_fresh.
Qed.

Section pylist_fmap.
Context {A B : Type} (f : A -> B).

Lemma getitem_fmap (l : list A) i : getitem (f <$> l) i = f <$> getitem l i.
Proof. unfold getitem. rewrite list_lookup_fmap. by destruct (l !! i). Qed.

Lemma setitem_fmap (l : list A) i x :
setitem (f <$> l) i (f x) = fmap (M:=list) f <$> setitem l i x.
Proof.
unfold setitem. rewrite length_fmap. case_decide; [|done].
simpl. by rewrite list_fmap_insert.
Qed.

Lemma list_pop_fmap (l : list A) :
list_pop (f <$> l) = prod_map f (fmap (M:=list) f) <$> list_pop l.
Proof.
unfold list_pop. rewrite length_fmap, <- fmap_take.
destruct l as [|x l _] using rev_ind; [done|].
rewrite fmap_app. change (f <$> [x]) with [f x]. by rewrite !last_snoc.
Qed.
End pylist_fmap.

Lemma outcome_bind_fmap {A A' B'} (g : A -> A') (m : outcome A) (k : A' -> outcome B') :
  (g <$> m) ≫= k = m ≫= (fun a => k (g a)).
Proof. by destruct m. Qed.

Lemma outcome_fmap_bind {A B B'} (h : B -> B') (m : outcome A) (k : A -> outcome B) :
  h <$> (m ≫= k) = m ≫= (fun a => h <$> k a).
Proof. by destruct m. Qed.

Lemma outcome_bind_ext {A B} (m : outcome A) (k k' : A -> outcome B) :
  (forall a, k a = k' a) -> m ≫= k = m ≫= k'.
Proof. intros H. destruct m; simpl; auto. Qed.

Section heapq_fmap.
Context {A B : Type} (ltA : A -> A -> bool) (ltB : B -> B -> bool) (f : A -> B).
Hypothesis lt_f : forall a b, ltB (f a) (f b) = ltA a b.

Lemma siftdown_loop_fmap fuel : forall heap newitem startpos pos,
siftdown_loop ltB fuel (f <$> heap) (f newitem) startpos pos
= fmap (M:=list) f <$> siftdown_loop ltA fuel heap newitem startpos pos.
Proof.
induction fuel as [|fuel IH]; intros heap newitem startpos pos;
  rewrite ?siftdown_loop_0, ?siftdown_loop_S;
  case_decide; rewrite ?setitem_fmap; try done.
rewrite getitem_fmap, outcome_bind_fmap, outcome_fmap_bind.
apply outcome_bind_ext. intros parent. rewrite lt_f.
destruct (ltA newitem parent); [|done].
rewrite setitem_fmap, outcome_bind_fmap, outcome_fmap_bind.
apply outcome_bind_ext. intros heap'. apply IH.
Qed.

Lemma _siftdown_fmap heap startpos pos :
_siftdown ltB (f <$> heap) startpos pos = fmap (M:=list) f <$> _siftdown ltA heap startpos pos.
Proof.
unfold _siftdown.
rewrite getitem_fmap, outcome_bind_fmap, outcome_fmap_bind.
apply outcome_bind_ext. intros newitem. apply siftdown_loop_fmap.
Qed.

Lemma siftup_loop_fmap fuel : forall heap endpos pos,
siftup_loop ltB fuel (f <$> heap) endpos pos
= prod_map (fmap (M:=list) f) id <$> siftup_loop ltA fuel heap endpos pos.
Proof.
induction fuel as [|fuel IH]; intros heap endpos pos;
  rewrite ?siftup_loop_0, ?siftup_loop_S; case_decide; try done.
rewrite outcome_fmap_bind.
assert ((if decide (2 * pos + 1 + 1 < endpos) then
           l ← getitem (f <$> heap) (2 * pos + 1);
           r ← getitem (f <$> heap) (2 * pos + 1 + 1);
           Ok (if negb (ltB l r) then 2 * pos + 1 + 1 else 2 * pos + 1)
         else Ok (2 * pos + 1))
        = (if decide (2 * pos + 1 + 1 < endpos) then
           l ← getitem heap (2 * pos + 1);
           r ← getitem heap (2 * pos + 1 + 1);
           Ok (if negb (ltA l r) then 2 * pos + 1 + 1 else 2 * pos + 1)
         else Ok (2 * pos + 1))) as ->.
{ case_decide; [|done]. rewrite !getitem_fmap, outcome_bind_fmap.
  apply outcome_bind_ext. intros l.
  rewrite outcome_bind_fmap.
  apply outcome_bind_ext. intros r. by rewrite lt_f. }
apply outcome_bind_ext. intros childpos.
rewrite getitem_fmap, outcome_bind_fmap, outcome_fmap_bind.
apply outcome_bind_ext. intros child.
rewrite setitem_fmap, outcome_bind_fmap, outcome_fmap_bind.
apply outcome_bind_ext. intros heap'. apply IH.
Qed.

Lemma _siftup_fmap heap pos :
_siftup ltB (f <$> heap) pos = fmap (M:=list) f <$> _siftup ltA heap pos.
Proof.
unfold _siftup. rewrite length_fmap.
rewrite getitem_fmap, outcome_bind_fmap, outcome_fmap_bind.
apply outcome_bind_ext. intros newitem.
rewrite siftup_loop_fmap, outcome_bind_fmap, outcome_fmap_bind.
apply outcome_bind_ext. intros [heap' pos']. simpl.
rewrite setitem_fmap, outcome_bind_fmap, outcome_fmap_bind.
apply outcome_bind_ext. intros heap''. apply _siftdown_fmap.
Qed.

Lemma heappush_fmap heap item :
heappush ltB (f <$> heap) (f item) = fmap (M:=list) f <$> heappush ltA heap item.
Proof.
unfold heappush.
change [f item] with (f <$> [item]). rewrite <- fmap_app, length_fmap.
apply _siftdown_fmap.
Qed.

Lemma heappop_fmap heap :
heappop ltB (f <$> heap) = prod_map f (fmap (M:=list) f) <$> heappop ltA heap.
Proof.
unfold heappop.
rewrite list_pop_fmap, outcome_bind_fmap, outcome_fmap_bind.
apply outcome_bind_ext. intros [lastelt heap']. simpl.
destruct heap' as [|x heap']; [done|]. rewrite fmap_cons.
change (f x :: (f <$> heap')) with (f <$> (x :: heap')).
rewrite getitem_fmap, outcome_bind_fmap, outcome_fmap_bind.
apply outcome_bind_ext. intros returnitem.
rewrite setitem_fmap, outcome_bind_fmap, outcome_fmap_bind.
apply outcome_bind_ext. intros heap''.
rewrite _siftup_fmap, outcome_bind_fmap, outcome_fmap_bind.
done.
Qed.
End heapq_fmap.

Lemma HeapNode_lt_erase a b :
  HeapNode_lt (erase_oid a) (erase_oid b) = HeapNode_lt a b.
Proof. by destruct a, b. Qed.

Lemma make_codes_helper_erase : forall root p d,
  make_codes_helper (erase_oid root) p d = make_codes_helper root p d.
Proof.
  fix IH 1. intros [i [c|] f l r] p d; simpl; [done|].
  destruct l as [l|], r as [r|]; rewrite ?IH; done.
Qed.

Section commutes.
Lemma commutes_bind {A A' B B'} (g : A -> A') (h : B -> B')
  (m : method A) (m' : method A') (k : A -> method B) (k' : A' -> method B') :
commutes g m m' -> (forall a, commutes h (k a) (k' (g a))) ->
commutes h (m ≫= k) (m' ≫= k').
Proof.
intros Hm Hk s. unfold mbind, method_bind. rewrite Hm.
destruct (m s) as [[a| | |] s']; simpl; try done. apply Hk.
Qed.

Lemma commutes_ret {A A'} (g : A -> A') a : commutes g (ret a) (ret (g a)).
Proof. by intros s. Qed.

Lemma commutes_lift {A A'} (g : A -> A') (m : outcome A) (m' : outcome A') :
m' = g <$> m -> commutes g (lift m) (lift m').
Proof. by intros -> s. Qed.

Lemma commutes_get_heap :
commutes (fmap (M:=list) erase_oid) (get_attr heap) (get_attr heap).
Proof. by intros s. Qed.

Lemma commutes_get_codes : commutes id (get_attr codes) (get_attr codes).
Proof. by intros s. Qed.

Lemma commutes_put_heap h :
commutes id (put_heap h) (put_heap (erase_oid <$> h)).
Proof. by intros s. Qed.

Lemma commutes_put_codes c : commutes id (put_codes c) (put_codes c).
Proof. by intros s. Qed.
End commutes.

Lemma make_heap_loop_commutes ident frequency : forall keys i,
  commutes id (make_heap_loop ident i frequency keys)
    (make_heap_loop no_identity i frequency keys).
Proof.
  induction keys as [|key keys IH]; intros i; cbn [make_heap_loop].
  - apply (commutes_ret id).
  - eapply (commutes_bind id); [by apply commutes_lift; destruct dict_getitem|].
    intros f. eapply commutes_bind; [apply commutes_get_heap|].
    intros h. eapply (commutes_bind (fmap (M:=list) erase_oid)).
    { apply commutes_lift.
      by rewrite <- (heappush_fmap HeapNode_lt _ _ HeapNode_lt_erase). }
    intros h'. eapply commutes_bind; [apply commutes_put_heap|].
    intros _. apply IH.
Qed.

Lemma merge_loop_commutes ident : forall fuel i,
  commutes id (merge_loop fuel ident i) (merge_loop fuel no_identity i).
Proof.
  assert (forall s, length (heap (erase_self s)) = length (heap s)) as Hlen.
  { intros s. simpl. apply length_fmap. }
  induction fuel as [|fuel IH]; intros i s; cbn [merge_loop]; rewrite Hlen;
    case_decide as Hd; try done.
  clear Hd. revert s. eapply commutes_bind; [apply commutes_get_heap|].
  intros h. eapply (commutes_bind (prod_map erase_oid (fmap (M:=list) erase_oid))).
  { apply commutes_lift. apply (heappop_fmap HeapNode_lt _ _ HeapNode_lt_erase). }
  intros [node1 h1]. eapply commutes_bind; [apply commutes_put_heap|].
  intros _. eapply (commutes_bind (prod_map erase_oid (fmap (M:=list) erase_oid))).
  { apply commutes_lift. apply (heappop_fmap HeapNode_lt _ _ HeapNode_lt_erase). }
  intros [node2 h2]. eapply commutes_bind; [apply commutes_put_heap|].
  intros _. eapply (commutes_bind (fmap (M:=list) erase_oid)).
  { apply commutes_lift.
    rewrite <- (heappush_fmap HeapNode_lt _ _ HeapNode_lt_erase). simpl.
    by destruct node1, node2. }
  intros h3. eapply commutes_bind; [apply commutes_put_heap|].
  intros _. apply IH.
Qed.

Lemma make_codes_commutes : commutes id make_codes make_codes.
Proof.
  unfold make_codes. eapply commutes_bind; [apply commutes_get_heap|].
  intros h. eapply (commutes_bind (prod_map erase_oid (fmap (M:=list) erase_oid))).
  { apply commutes_lift. apply (heappop_fmap HeapNode_lt _ _ HeapNode_lt_erase). }
  intros [root h1]. eapply commutes_bind; [apply commutes_put_heap|].
  intros _. eapply commutes_bind; [apply commutes_get_codes|].
  intros c. simpl. rewrite make_codes_helper_erase. apply commutes_put_codes.
Qed.

Lemma build_codes_commutes ident frequency :
  commutes id (build_codes ident frequency) (build_codes no_identity frequency).
Proof.
  unfold build_codes. eapply commutes_bind; [apply make_heap_loop_commutes|].
  intros _. eapply (commutes_bind id).
  { intros s. unfold merge_nodes. simpl. rewrite length_fmap.
    apply merge_loop_commutes. }
  intros _. apply make_codes_commutes.
Qed.





Lemma scanstring_quote rest : scanstring (34%N :: rest) = Ok ([], rest).
Proof. reflexivity. Qed.

Lemma scanstring_plain c rest :
  c ≠ 34%N -> c ≠ 92%N -> (31 < c)%N ->
  scanstring (c :: rest) = '(str, r) ← scanstring rest; Ok (c :: str, r).
Proof.
  intros H1 H2 H3. cbn [scanstring].
  rewrite (proj2 (N.eqb_neq c 34)), (proj2 (N.eqb_neq c 92)) by done.
  by rewrite (proj2 (N.leb_gt c 31)).
Qed.

Lemma scanstring_simple esc ch rest :
  esc ≠ 117%N -> simple_escape esc = Some ch ->
  scanstring (92%N :: esc :: rest) = '(str, r) ← scanstring rest; Ok (ch :: str, r).
Proof.
  intros H1 H2. cbn [scanstring]. change (92 =? 34)%N with false.
  change (92 =? 92)%N with true. cbv iota.
  rewrite (proj2 (N.eqb_neq esc 117)) by done. by rewrite H2.
Qed.

Lemma scanstring_u h1 h2 h3 h4 x r uni :
  hex4_val h1 h2 h3 h4 = Some uni -> is_high_surrogate uni = false ->
  scanstring (92%N :: 117%N :: h1 :: h2 :: h3 :: h4 :: x :: r)
  = '(str, r') ← scanstring (x :: r); Ok (uni :: str, r').
Proof.
  intros H1 H2.
  change (scanstring (92%N :: 117%N :: h1 :: h2 :: h3 :: h4 :: x :: r))
    with (match hex4_val h1 h2 h3 h4 with
          | None => Raise JSONDecodeError
          | Some uni =>
              let lone :=
                '(str, rest') ← scanstring (x :: r); Ok (uni :: str, rest') in
              if is_high_surrogate uni then
                match x :: r with
                | b :: u :: g1 :: g2 :: g3 :: g4 :: ((_ :: _) as rest3) =>
                    if ((b =? 92) && (u =? 117))%N then
                      match hex4_val g1 g2 g3 g4 with
                      | None => Raise JSONDecodeError
                      | Some uni2 =>
                          if is_low_surrogate uni2 then
                            '(str, rest') ← scanstring rest3;
                            Ok (join_surrogates uni uni2 :: str, rest')
                          else lone
                      end
                    else lone
                | _ => lone
                end
              else lone
          end).
  rewrite H1. cbv zeta. by rewrite H2.
Qed.

Lemma scanstring_pair h1 h2 h3 h4 g1 g2 g3 g4 x r hi lo :
  hex4_val h1 h2 h3 h4 = Some hi -> is_high_surrogate hi = true ->
  hex4_val g1 g2 g3 g4 = Some lo -> is_low_surrogate lo = true ->
  scanstring (92%N :: 117%N :: h1 :: h2 :: h3 :: h4
              :: 92%N :: 117%N :: g1 :: g2 :: g3 :: g4 :: x :: r)
  = '(str, r') ← scanstring (x :: r); Ok (join_surrogates hi lo :: str, r').
Proof.
  intros H1 H2 H3 H4.
  change (scanstring (92%N :: 117%N :: h1 :: h2 :: h3 :: h4
              :: 92%N :: 117%N :: g1 :: g2 :: g3 :: g4 :: x :: r))
    with (match hex4_val h1 h2 h3 h4 with
          | None => Raise JSONDecodeError
          | Some uni =>
              let lone :=
                '(str, rest') ←
                  scanstring (92%N :: 117%N :: g1 :: g2 :: g3 :: g4 :: x :: r);
                Ok (uni :: str, rest') in
              if is_high_surrogate uni then
                match hex4_val g1 g2 g3 g4 with
                | None => Raise JSONDecodeError
                | Some uni2 =>
                    if is_low_surrogate uni2 then
                      '(str, rest') ← scanstring (x :: r);
                      Ok (join_surrogates uni uni2 :: str, rest')
                    else lone
                end
              else lone
          end).
  rewrite H1. cbv zeta. by rewrite H2, H3, H4.
Qed.

Ltac lia_div := zify; Z.to_euclidean_division_equations; lia.

Lemma lor_shiftl_low a b :
  (b < 1024)%N -> N.lor (N.shiftl a 10) b = (a * 1024 + b)%N.
Proof.
  intros Hb.
  assert (N.land (N.shiftl a 10) b = 0%N) as Hland.
  { rewrite <- (N.mod_small b (2 ^ 10)) by done.
    rewrite <- N.land_ones, (N.land_comm b), N.land_assoc, N.land_ones.
    rewrite N.shiftl_mul_pow2, N.Div0.mod_mul. apply N.land_0_l. }
  rewrite <- N.lxor_lor, <- N.add_nocarry_lxor by done.
  by rewrite N.shiftl_mul_pow2.
Qed.

Lemma land_0x3ff a : N.land a 0x3ff = (a mod 1024)%N.
Proof. change 0x3ff%N with (N.ones 10). apply N.land_ones. Qed.

Lemma shiftr_10 a : N.shiftr a 10 = (a / 1024)%N.
Proof. apply N.shiftr_div_pow2. Qed.

Lemma small_N_cases (P : N -> Prop) (d : N) :
  (d < 16)%N ->
  P 0%N -> P 1%N -> P 2%N -> P 3%N -> P 4%N -> P 5%N -> P 6%N -> P 7%N ->
  P 8%N -> P 9%N -> P 10%N -> P 11%N -> P 12%N -> P 13%N -> P 14%N -> P 15%N ->
  P d.
Proof.
  intros Hd. destruct d as [|p]; [tauto|].
  do 4 (try destruct p as [p|p|]); try lia; tauto.
Qed.

Lemma hex_val_digit d : (d < 16)%N -> hex_val (hex_digit d) = Some d.
Proof. intros Hd. pattern d. by apply small_N_cases. Qed.

Lemma hex_digit_printable d : (d < 16)%N -> printable (hex_digit d).
Proof.
  intros Hd. pattern d. apply small_N_cases; [done|..]; by compute.
Qed.

Lemma hex4_val_hex4 n :
  (n < 0x10000)%N ->
  match hex4 n with
  | [h1; h2; h3; h4] => hex4_val h1 h2 h3 h4 = Some n
  | _ => False
  end.
Proof.
  intros Hn. unfold hex4, hex4_val.
  rewrite !hex_val_digit by (apply N.mod_lt; lia). simpl. f_equal. lia_div.
Qed.

Lemma hex4_printable n : Forall printable (hex4 n).
Proof.
  unfold hex4. repeat constructor; apply hex_digit_printable, N.mod_lt; lia.
Qed.

Lemma printable_92_117 l : Forall printable l -> Forall printable ([92; 117]%N ++ l).
Proof. intros H. repeat (constructor; [by compute|]). done. Qed.

Lemma escape_char_printable c : Forall printable (escape_char c).
Proof.
  unfold escape_char.
  repeat (case_match; [solve [repeat (constructor; [by compute|]); constructor]|]).
  case_match.
  { apply andb_true_iff in H6 as [?%N.leb_le ?%N.leb_le]. by repeat constructor. }
  case_match.
  - apply printable_92_117, hex4_printable.
  - cbv zeta. apply printable_92_117, Forall_app. split; [apply hex4_printable|].
    apply printable_92_117, hex4_printable.
Qed.

Lemma surrogate_pair c :
  (0x10000 <= c < 0x110000)%N ->
  let n := (c - 0x10000)%N in
  let s1 := N.lor 0xd800 (N.land (N.shiftr n 10) 0x3ff) in
  let s2 := N.lor 0xdc00 (N.land n 0x3ff) in
  is_high_surrogate s1 = true /\ is_low_surrogate s2 = true
  /\ (s1 < 0x10000)%N /\ (s2 < 0x10000)%N /\ join_surrogates s1 s2 = c.
Proof.
  intros Hc n s1 s2.
  assert (s1 = 0xd800 + n / 1024)%N as E1.
  { unfold s1. rewrite land_0x3ff, shiftr_10.
    change (N.lor 0xd800 ?x) with (N.lor (N.shiftl 54 10) x).
    rewrite lor_shiftl_low by lia_div. unfold n. lia_div. }
  assert (s2 = 0xdc00 + n mod 1024)%N as E2.
  { unfold s2. rewrite land_0x3ff.
    change (N.lor 0xdc00 ?x) with (N.lor (N.shiftl 55 10) x).
    rewrite lor_shiftl_low by lia_div. lia. }
  unfold is_high_surrogate, is_low_surrogate, join_surrogates.
  rewrite E1, E2. clear E1 E2 s1 s2. subst n. split_and!.
  - apply andb_true_iff. split; apply N.leb_le; lia_div.
  - apply andb_true_iff. split; apply N.leb_le; lia_div.
  - lia_div.
  - lia_div.
  - set (n := (c - 0x10000)%N).
    rewrite (N.add_comm 0xd800), (N.add_comm 0xdc00), !N.add_sub.
    rewrite lor_shiftl_low by lia_div. unfold n. lia_div.
Qed.

Lemma scanstring_escape_char c x r :
  text_char c ->
  scanstring (escape_char c ++ x :: r)
  = '(str, r') ← scanstring (x :: r); Ok (c :: str, r').
Proof.
  intros [Hc Hhigh]. unfold escape_char.
  destruct (N.eqb_spec c 34) as [->|N34]; [by apply scanstring_simple|].
  destruct (N.eqb_spec c 92) as [->|N92]; [by apply scanstring_simple|].
  destruct (N.eqb_spec c 10) as [->|N10]; [by apply scanstring_simple|].
  destruct (N.eqb_spec c 13) as [->|N13]; [by apply scanstring_simple|].
  destruct (N.eqb_spec c 9) as [->|N9]; [by apply scanstring_simple|].
  destruct (N.eqb_spec c 12) as [->|N12]; [by apply scanstring_simple|].
  destruct (N.eqb_spec c 8) as [->|N8]; [by apply scanstring_simple|].
  destruct ((32 <=? c)%N && (c <=? 126)%N) eqn:Hrange.
  { apply andb_true_iff in Hrange as [?%N.leb_le ?%N.leb_le].
    apply scanstring_plain; [done..|lia]. }
  destruct (N.ltb_spec c 0x10000) as [Hlt|Hge].
  - pose proof (hex4_val_hex4 c Hlt) as Hhex. unfold hex4 in *.
    by apply scanstring_u.
  - cbv zeta.
    destruct (surrogate_pair c) as (H1 & H2 & L1 & L2 & Hjoin); [lia|].
    cbv zeta in H1, H2, L1, L2, Hjoin.
    pose proof (hex4_val_hex4 _ L1) as Hhex1.
    pose proof (hex4_val_hex4 _ L2) as Hhex2. unfold hex4 in *.
    etrans; [by eapply scanstring_pair|]. by rewrite Hjoin.
Qed.

Lemma scanstring_escaped s rest :
  text s ->
  scanstring (concat (escape_char <$> s) ++ 34%N :: rest) = Ok (s, rest).
Proof.
  induction 1 as [|c s Hc Hs IH]; [apply scanstring_quote|].
  rewrite fmap_cons. cbn [concat]. rewrite <- app_assoc.
  destruct (concat (escape_char <$> s) ++ 34%N :: rest) as [|x r] eqn:E.
  { by apply app_eq_nil in E as [_ ?]. }
  by rewrite scanstring_escape_char, IH.
Qed.

Lemma encode_basestring_ascii_printable s :
  Forall printable (encode_basestring_ascii s).
Proof.
  unfold encode_basestring_ascii. constructor; [by compute|].
  apply Forall_app. split; [|by repeat constructor].
  apply Forall_concat, Forall_fmap, Forall_forall. intros c _.
  apply escape_char_printable.
Qed.

(** *** Integers *)

Lemma nzhead_leading u :
  Decimal.nzhead u = Decimal.Nil \/ leading_nonzero (Decimal.nzhead u).
Proof. induction u; simpl; auto. Qed.

Lemma to_uint_leading p : leading_nonzero (Pos.to_uint p).
Proof.
  pose proof (DecimalPos.Unsigned.to_of (Pos.to_uint p)) as H.
  rewrite DecimalPos.Unsigned.of_to in H. simpl in H.
  pose proof (DecimalPos.Unsigned.to_uint_nonzero p) as Hnz.
  rewrite H in Hnz |- *. unfold Decimal.unorm in *.
  destruct (nzhead_leading (Pos.to_uint p)) as [E|E]; [by rewrite E in Hnz|].
  by destruct (Decimal.nzhead (Pos.to_uint p)).
Qed.

Lemma uint_digits_digit u : Forall (fun c => is_digit c = true) (uint_digits u).
Proof. induction u; simpl; by constructor. Qed.

Lemma uint_digits_printable u : Forall printable (uint_digits u).
Proof. induction u; simpl; constructor; (done || by compute). Qed.

Lemma uint_of_digits u : foldr digit_uint Decimal.Nil (uint_digits u) = u.
Proof. induction u; simpl; [done|by rewrite IHu..]. Qed.

Lemma scan_digits_all ds c rest :
  Forall (fun c => is_digit c = true) ds -> is_digit c = false ->
  scan_digits (ds ++ c :: rest) = (ds, c :: rest).
Proof.
  induction 1 as [|d ds Hd _ IH]; intros Hc; simpl.
  - by rewrite Hc.
  - by rewrite Hd, IH.
Qed.

Lemma float_follows_delimiter c rest :
  c = 44%N \/ c = 125%N -> float_follows (c :: rest) = false.
Proof. intros [-> | ->]; by destruct rest. Qed.

Lemma parse_number_uint p c rest :
  c = 44%N \/ c = 125%N ->
  match uint_digits (Pos.to_uint p) ++ c :: rest with
  | d :: s2 =>
      d ≠ 45%N /\ d ≠ 48%N
      /\ scan_digits (d :: s2) = (uint_digits (Pos.to_uint p), c :: rest)
  | [] => False
  end
  /\ uint_digits (Pos.to_uint p) ≠ []
  /\ int_of_digits (uint_digits (Pos.to_uint p)) = Z.pos p.
Proof.
  intros Hc. pose proof (to_uint_leading p) as Hl. split_and!.
  - pose proof (scan_digits_all (uint_digits (Pos.to_uint p)) c rest
                  (uint_digits_digit _)) as Hs.
    destruct (Pos.to_uint p); try done; simpl in *;
      (split_and!; [done|done|]); apply Hs; by destruct Hc as [-> | ->].
  - by destruct (Pos.to_uint p).
  - unfold int_of_digits. rewrite uint_of_digits.
    change (N.of_uint (Pos.to_uint p)) with (Pos.of_uint (Pos.to_uint p)).
    by rewrite DecimalPos.Unsigned.of_to.
Qed.

Lemma parse_number_int_repr z c rest :
  c = 44%N \/ c = 125%N ->
  parse_number (int_repr z ++ c :: rest) = Ok (JInt z, c :: rest).
Proof.
  intros Hc. pose proof (float_follows_delimiter c rest Hc) as Hf.
  unfold int_repr. destruct z as [|p|p]; cbn [Z.to_int].
  - clear Hf. by destruct Hc as [-> | ->], rest.
  - destruct (parse_number_uint p c rest Hc) as (H1 & H2 & H3).
    unfold parse_number.
    destruct (uint_digits (Pos.to_uint p) ++ c :: rest) as [|d s2] eqn:E; [done|].
    destruct H1 as (N45 & N48 & Hscan).
    rewrite (proj2 (N.eqb_neq d 45)), (proj2 (N.eqb_neq d 48)), Hscan by done.
    destruct (uint_digits (Pos.to_uint p)) eqn:E'; [done|].
    by rewrite Hf, H3.
  - destruct (parse_number_uint p c rest Hc) as (H1 & H2 & H3).
    unfold parse_number. cbn [app]. change (45 =? 45)%N with true. cbv iota.
    destruct (uint_digits (Pos.to_uint p) ++ c :: rest) as [|d s2] eqn:E; [done|].
    destruct H1 as (N45 & N48 & Hscan).
    rewrite (proj2 (N.eqb_neq d 48)), Hscan by done.
    destruct (uint_digits (Pos.to_uint p)) eqn:E'; [done|].
    by rewrite Hf, H3.
Qed.

Lemma int_repr_printable z : Forall printable (int_repr z).
Proof.
  unfold int_repr. destruct (Z.to_int z); [apply uint_digits_printable|].
  constructor; [by compute|apply uint_digits_printable].
Qed.

(** *** Objects *)

Lemma int_repr_head z rest :
  exists d ds, int_repr z ++ rest = d :: ds
    /\ is_ws d = false /\ d ≠ 34%N /\ d ≠ 123%N
    /\ unmodelled_value (d :: ds) = false.
Proof.
  unfold int_repr. destruct z as [|p|p]; cbn [Z.to_int].
  - by eexists _, _.
  - pose proof (to_uint_leading p). destruct (Pos.to_uint p); try done;
      by eexists _, _.
  - pose proof (to_uint_leading p). destruct (Pos.to_uint p); try done;
      by eexists _, _.
Qed.

Lemma parse_value_int_repr fuel z c rest :
  c = 44%N \/ c = 125%N ->
  parse_value (S fuel) (int_repr z ++ c :: rest) = Ok (JInt z, c :: rest).
Proof.
  intros Hc. destruct (int_repr_head z (c :: rest)) as (d & ds & E & _ & N1 & N2 & Hu).
  rewrite <- (parse_number_int_repr z c rest Hc). rewrite E.
  cbn [parse_value].
  by rewrite (proj2 (N.eqb_neq d 34)), (proj2 (N.eqb_neq d 123)), Hu.
Qed.

Lemma skip_ws_int_repr z rest :
  skip_ws (32%N :: int_repr z ++ rest) = int_repr z ++ rest.
Proof.
  destruct (int_repr_head z rest) as (d & ds & -> & Hws & _).
  cbn. by rewrite Hws.
Qed.

Lemma parse_members_S fuel s :
  parse_members (S fuel) s =
  '(key, rest) ← scanstring s;
  match skip_ws rest with
  | c :: rest =>
      if (c =? 58)%N then
        '(value, rest) ← parse_value fuel (skip_ws rest);
        match skip_ws rest with
        | c :: rest =>
            if (c =? 125)%N then Ok ([(key, value)], rest)
            else if (c =? 44)%N then
              match skip_ws rest with
              | c :: rest =>
                  if (c =? 34)%N then
                    '(pairs, rest) ← parse_members fuel rest;
                    Ok ((key, value) :: pairs, rest)
                  else Raise JSONDecodeError
              | [] => Raise JSONDecodeError
              end
            else Raise JSONDecodeError
        | [] => Raise JSONDecodeError
        end
      else Raise JSONDecodeError
  | [] => Raise JSONDecodeError
  end.
Proof. reflexivity. Qed.

Lemma parse_value_S fuel c rest :
  parse_value (S fuel) (c :: rest) =
  if (c =? 34)%N then
    '(str, rest') ← scanstring rest; Ok (JStr str, rest')
  else if (c =? 123)%N then
    match skip_ws rest with
    | c' :: rest' =>
        if (c' =? 125)%N then Ok (JObj [], rest')
        else if (c' =? 34)%N then
          '(pairs, rest'') ← parse_members fuel rest';
          Ok (JObj (dict_of_pairs pairs), rest'')
        else Raise JSONDecodeError
    | [] => Raise JSONDecodeError
    end
  else if unmodelled_value (c :: rest) then OutOfModel
  else parse_number (c :: rest).
Proof. reflexivity. Qed.

Lemma skip_ws_space s : skip_ws (32%N :: s) = skip_ws s.
Proof. reflexivity. Qed.

Lemma skip_ws_stop c s : is_ws c = false -> skip_ws (c :: s) = c :: s.
Proof. intros H. cbn [skip_ws]. by rewrite H. Qed.

Lemma parse_members_frequency (items : dict pystr Z) :
  forall k z fuel after,
    text k -> Forall (fun item => text item.1) items ->
    length items + 1 < fuel ->
    parse_members fuel
      (concat (escape_char <$> k) ++ 34%N :: 58%N :: 32%N :: int_repr z
       ++ dumps_members json_dumps (frequency_items items) false
       ++ 125%N :: after)
    = Ok ((k, JInt z) :: frequency_items items, after).
Proof.
  unfold frequency_items.
  induction items as [|[k' z'] items IH]; intros k z fuel after Hk Hitems Hfuel;
    (destruct fuel as [|[|fuel]]; [simpl in Hfuel; lia..|]);
    rewrite parse_members_S, scanstring_escaped by done;
    cbn [mbind outcome_bind];
    rewrite (skip_ws_stop 58) by done; change (58 =? 58)%N with true; cbv iota;
    rewrite skip_ws_int_repr.
  - cbn [fmap list_fmap dumps_members app].
    rewrite parse_value_int_repr by auto. cbn [mbind outcome_bind].
    by rewrite (skip_ws_stop 125).
  - cbn [fmap list_fmap dumps_members app fst snd].
    rewrite parse_value_int_repr by auto. cbn [mbind outcome_bind].
    rewrite (skip_ws_stop 44) by done.
    change (44 =? 125)%N with false. change (44 =? 44)%N with true. cbv iota.
    unfold encode_basestring_ascii. cbn [json_dumps].
    repeat (progress (rewrite <- ?app_assoc; cbn [app])).
    rewrite skip_ws_space, (skip_ws_stop 34) by done.
    change (34 =? 34)%N with true. cbv iota.
    rewrite (IH k' z' (S fuel) after).
    + done.
    + by apply Forall_cons in Hitems as [? _].
    + by apply Forall_cons in Hitems as [_ ?].
    + simpl in *. lia.
Qed.

Lemma dict_of_pairs_NoDup {V} (items : list (pystr * V)) :
  NoDup items.*1 -> dict_of_pairs items = items.
Proof.
  intros Hnd. unfold dict_of_pairs.
  by rewrite (dict_set_all_fresh items []).
Qed.

Lemma frequency_items_keys frequency :
  (frequency_items frequency).*1 = dict_keys frequency.
Proof.
  unfold frequency_items, dict_keys. rewrite <- list_fmap_compose.
  by apply list_fmap_ext.
Qed.

Lemma parse_value_string fuel s after :
  text s ->
  parse_value (S fuel) (encode_basestring_ascii s ++ after) = Ok (JStr s, after).
Proof.
  intros Hs. unfold encode_basestring_ascii.
  repeat (progress (rewrite <- ?app_assoc; cbn [app])).
  rewrite parse_value_S. change (34 =? 34)%N with true. cbv iota.
  by rewrite scanstring_escaped.
Qed.

Lemma parse_value_frequency frequency fuel after :
  Forall (fun item => text item.1) frequency ->
  NoDup (dict_keys frequency) ->
  length frequency + 2 < fuel ->
  parse_value fuel (json_dumps (frequency_json frequency) ++ after)
  = Ok (frequency_json frequency, after).
Proof.
  intros Ht Hnd Hfuel. destruct fuel as [|fuel]; [lia|].
  unfold frequency_json. fold (frequency_items frequency). cbn [json_dumps].
  repeat (progress (rewrite <- ?app_assoc; cbn [app])).
  rewrite parse_value_S. change (123 =? 34)%N with false.
  change (123 =? 123)%N with true. cbv iota.
  destruct frequency as [|[k z] items].
  - cbn [frequency_items fmap list_fmap dumps_members app].
    by rewrite (skip_ws_stop 125).
  - cbn [frequency_items fmap list_fmap dumps_members app fst snd json_dumps].
    unfold encode_basestring_ascii.
    repeat (progress (rewrite <- ?app_assoc; cbn [app])).
    rewrite (skip_ws_stop 34) by done.
    change (34 =? 125)%N with false. change (34 =? 34)%N with true. cbv iota.
    apply Forall_cons in Ht as [Hk Ht].
    pose proof (parse_members_frequency items k z fuel after Hk Ht) as Hp.
    unfold frequency_items in Hp. rewrite Hp by (simpl in Hfuel; lia).
    cbn [mbind outcome_bind]. rewrite dict_of_pairs_NoDup; [done|].
    change ((k, JInt z) :: ((λ item : list N * Z, (item.1, JInt item.2)) <$> items))
      with (frequency_items ((k, z) :: items)).
    by rewrite frequency_items_keys.
Qed.

Lemma key_frequency_text : text key_frequency.
Proof. repeat constructor. Qed.

Lemma key_original_extension_text : text key_original_extension.
Proof. repeat constructor. Qed.

Lemma parse_value_header frequency ext fuel :
  Forall (fun item => text item.1) frequency ->
  NoDup (dict_keys frequency) ->
  text ext ->
  length frequency + 4 < fuel ->
  parse_value fuel (json_dumps (header_json frequency ext))
  = Ok (header_json frequency ext, []).
Proof.
  intros Ht Hnd Hext Hfuel. destruct fuel as [|[|[|[|fuel]]]]; [lia..|].
  unfold header_json.
  cbn [json_dumps dumps_members]. unfold encode_basestring_ascii at 1 2.
  repeat (progress (rewrite <- ?app_assoc; cbn [app])).
  rewrite parse_value_S. change (123 =? 34)%N with false.
  change (123 =? 123)%N with true. cbv iota.
  rewrite (skip_ws_stop 34) by done.
  change (34 =? 125)%N with false. change (34 =? 34)%N with true. cbv iota.
  rewrite parse_members_S, (scanstring_escaped _ _ key_frequency_text).
  cbn [mbind outcome_bind].
  rewrite (skip_ws_stop 58) by done. change (58 =? 58)%N with true. cbv iota.
  rewrite skip_ws_space.
  assert (forall after, skip_ws (json_dumps (frequency_json frequency) ++ after)
                        = json_dumps (frequency_json frequency) ++ after) as ->.
  { intros after. by apply skip_ws_stop. }
  rewrite parse_value_frequency by (done || lia).
  cbn [mbind outcome_bind].
  rewrite (skip_ws_stop 44) by done.
  change (44 =? 125)%N with false. change (44 =? 44)%N with true. cbv iota.
  rewrite skip_ws_space, (skip_ws_stop 34) by done.
  change (34 =? 34)%N with true. cbv iota.
  rewrite parse_members_S, (scanstring_escaped _ _ key_original_extension_text).
  cbn [mbind outcome_bind].
  rewrite (skip_ws_stop 58) by done. change (58 =? 58)%N with true. cbv iota.
  rewrite skip_ws_space.
  change (34%N :: concat (escape_char <$> ext) ++ [34%N; 125%N])
    with (encode_basestring_ascii ext ++ [125%N]).
  assert (skip_ws (encode_basestring_ascii ext ++ [125%N])
          = encode_basestring_ascii ext ++ [125%N]) as ->.
  { by apply skip_ws_stop. }
  rewrite parse_value_string by done.
  cbn [mbind outcome_bind].
  rewrite (skip_ws_stop 125) by done. change (125 =? 125)%N with true. cbv iota.
  cbn [mbind outcome_bind]. reflexivity.
Qed.

Lemma dumps_members_length dumps items first :
  length items <= length (dumps_members dumps items first).
Proof.
  revert first. induction items as [|[k v] items IH]; intros first;
    cbn [dumps_members length]; [lia|].
  specialize (IH false). repeat (rewrite ?length_app; cbn [length]). lia.
Qed.

Lemma header_length frequency ext :
  length frequency + 4 < S (length (json_dumps (header_json frequency ext))).
Proof.
  unfold header_json. cbn [json_dumps dumps_members].
  unfold frequency_json. cbn [json_dumps].
  pose proof (dumps_members_length json_dumps
                ((λ item : list N * Z, (item.1, JInt item.2)) <$> frequency) true) as H.
  rewrite length_fmap in H.
  repeat (rewrite ?length_app; cbn [length]). lia.
Qed.

Lemma json_loads_header frequency ext :
  Forall (fun item => text item.1) frequency ->
  NoDup (dict_keys frequency) ->
  text ext ->
  json_loads (json_dumps (header_json frequency ext))
  = Ok (header_json frequency ext).
Proof.
  intros Ht Hnd Hext. unfold json_loads.
  assert (exists s, json_dumps (header_json frequency ext) = 123%N :: s) as [s Hs].
  { by eexists. }
  assert (starts_with [0xfeff%N] (json_dumps (header_json frequency ext)) = false)
    as -> by (by rewrite Hs).
  assert (skip_ws (json_dumps (header_json frequency ext))
          = json_dumps (header_json frequency ext)) as -> by (by rewrite Hs).
  rewrite parse_value_header by (done || apply header_length).
  done.
Qed.

(** *** The text of the header is printable *)

Lemma dumps_members_printable items first :
  Forall (fun item => Forall printable (json_dumps item.2)) items ->
  Forall printable (dumps_members json_dumps items first).
Proof.
  revert first. induction items as [|[k v] items IH]; intros first Hv;
    cbn [dumps_members]; [constructor|].
  apply Forall_cons in Hv as [Hv Hitems].
  apply Forall_app_2; [destruct first; repeat constructor; by compute|].
  apply Forall_app_2; [apply encode_basestring_ascii_printable|].
  apply Forall_app_2; [repeat constructor; by compute|].
  apply Forall_app_2; [done|by apply IH].
Qed.

Lemma frequency_json_printable frequency :
  Forall printable (json_dumps (frequency_json frequency)).
Proof.
  unfold frequency_json. cbn [json_dumps].
  constructor; [by compute|]. apply Forall_app_2; [|by repeat constructor].
  apply dumps_members_printable, Forall_fmap, Forall_forall.
  intros [k z] _. apply int_repr_printable.
Qed.

Lemma header_printable frequency ext :
  Forall printable (json_dumps (header_json frequency ext)).
Proof.
  unfold header_json. cbn [json_dumps].
  constructor; [by compute|]. apply Forall_app_2; [|by repeat constructor].
  apply dumps_members_printable.
  apply Forall_cons; split; [apply frequency_json_printable|].
  apply Forall_cons; split; [apply encode_basestring_ascii_printable|constructor].
Qed.

Lemma printable_not_newline s : Forall printable s -> 10%N ∉ s.
Proof.
  intros H Hin. rewrite Forall_forall in H. specialize (H _ Hin).
  unfold printable in H. lia.
Qed.

(** *** ASCII text and UTF-8 *)

Lemma utf8_encode_char_ascii c : (c < 0x80)%N -> utf8_encode_char c = Ok [c].
Proof. intros Hc. unfold utf8_encode_char. by rewrite (proj2 (N.ltb_lt c 0x80)). Qed.

Lemma utf8_encode_ascii s :
  Forall (fun c => (c < 0x80)%N) s -> utf8_encode s = Ok s.
Proof.
  intros Hs. unfold utf8_encode.
  assert (mapM_outcome utf8_encode_char s = Ok ((fun c => [c]) <$> s)) as ->.
  { induction Hs as [|c s Hc _ IH]; [done|].
    cbn [mapM_outcome]. by rewrite utf8_encode_char_ascii, IH. }
  cbn [mbind outcome_bind]. f_equal.
  clear Hs. induction s as [|c s IH]; [done|]. rewrite fmap_cons. cbn [concat app].
  by rewrite IH.
Qed.

Lemma utf8_decode_ascii s :
  Forall (fun c => (c < 0x80)%N) s -> utf8_decode s = Ok s.
Proof.
  induction 1 as [|c s Hc _ IH]; [done|].
  cbn [utf8_decode]. rewrite (proj2 (N.ltb_lt c 0x80)) by done.
  by rewrite IH.
Qed.

Lemma printable_ascii s : Forall printable s -> Forall (fun c => (c < 0x80)%N) s.
Proof. intros H. eapply Forall_impl; [exact H|]. unfold printable. lia. Qed.

Lemma read_header_delimited header_bytes payload :
  10%N ∉ header_bytes ->
  read_header (header_bytes ++ 10%N :: payload) = Ok (header_bytes, payload).
Proof.
  induction header_bytes as [|b bs IH]; intros Hnl; [done|].
  apply not_elem_of_cons in Hnl as [Hb Hbs].
  cbn [app read_header]. rewrite (proj2 (N.eqb_neq b 10)) by done.
  by rewrite IH.
Qed.

Lemma compress_steps ident ext text self :
  compress ident ext text self
  = (_ ← build_codes ident (make_frequency_dict text);
     write_artifact ext text (make_frequency_dict text)) self.
Proof.
  unfold compress, build_codes, write_artifact, mbind, method_bind.
  destruct (make_heap ident (make_frequency_dict text) self) as [[[]| | |] s1];
    try done.
  by destruct (merge_nodes _ s1) as [[[]| | |] s2].
Qed.

Lemma decompress_steps ident file self :
  decompress ident file self
  = ('(frequency, ext, payload) ← lift (read_artifact_header file);
     _ ← build_codes ident frequency;
     read_payload payload ext) self.
Proof.
  unfold decompress, read_artifact_header, build_codes, read_payload,
    mbind, method_bind, outcome_bind, lift.
  destruct (read_header file) as [[header_bytes payload]| | |]; try done.
  destruct (utf8_decode header_bytes) as [header_text| | |]; try done.
  destruct (json_loads header_text) as [header| | |]; try done.
  destruct (subscript header key_frequency) as [frequency| | |]; try done.
  destruct (subscript header key_original_extension) as [ext| | |]; try done.
  destruct (as_frequency frequency) as [fr| | |]; try done.
  destruct (make_heap ident fr self) as [[[]| | |] s1]; try done.
  by destruct (merge_nodes _ s1) as [[[]| | |] s2].
Qed.

Lemma elem_of_dict_keys_set {K V} `{EqDecision K} (k k' : K) (v : V) d :
  k' ∈ dict_keys (dict_set k v d) <-> k' ∈ dict_keys d \/ k' = k.
Proof.
  rewrite dict_keys_set. case_decide as Hin.
  - split; [auto|]. intros [?| ->]; done.
  - rewrite elem_of_app, list_elem_of_singleton. done.
Qed.

Section make_frequency_dict.
Let count (frequency : dict pystr Z) (c : N) : dict pystr Z :=
dict_set [c] (default 0%Z (dict_get [c] frequency) + 1)%Z frequency.

Lemma frequency_fold_keys text : forall f0 k,
k ∈ dict_keys (fold_left count text f0)
<-> k ∈ dict_keys f0 \/ exists c, c ∈ text /\ k = [c].
Proof.
induction text as [|c text IH]; intros f0 k; simpl.
- split; [auto|]. intros [?|(c & Hc & _)]; [done|]. by apply elem_of_nil in Hc.
- rewrite IH. unfold count. rewrite elem_of_dict_keys_set. split.
  + intros [[?| ->]|(c' & Hc' & ->)]; eauto.
    * right. exists c. split; [left|done].
    * right. exists c'. split; [by right|done].
  + intros [?|(c' & [->|Hc']%elem_of_cons & ->)]; eauto.
Qed.

Lemma frequency_fold_NoDup text : forall f0,
NoDup (dict_keys f0) -> NoDup (dict_keys (fold_left count text f0)).
Proof.
induction text as [|c text IH]; intros f0 Hnd; simpl; [done|].
apply IH. by apply dict_set_NoDup.
Qed.

Lemma make_frequency_dict_keys text k :
k ∈ dict_keys (make_frequency_dict text) <-> exists c, c ∈ text /\ k = [c].
Proof.
unfold make_frequency_dict. fold count. rewrite frequency_fold_keys.
split; [|auto]. intros [H|H]; [|done]. by apply elem_of_nil in H.
Qed.

Lemma make_frequency_dict_NoDup text :
NoDup (dict_keys (make_frequency_dict text)).
Proof. apply frequency_fold_NoDup. constructor. Qed.

Lemma make_frequency_dict_nil text :
make_frequency_dict text = [] <-> text = [].
Proof.
split; [|by intros ->]. intros E. destruct text as [|c text]; [done|].
assert ([c] ∈ dict_keys (make_frequency_dict (c :: text))) as Hin.
{ apply make_frequency_dict_keys. exists c. split; [left|done]. }
rewrite E in Hin. by apply elem_of_nil in Hin.
Qed.
End make_frequency_dict.

Lemma make_frequency_dict_text s :
  text s -> Forall (fun item => text item.1) (make_frequency_dict s).
Proof.
  intros Hs. apply Forall_forall. intros [k z] Hin.
  assert (k ∈ dict_keys (make_frequency_dict s)) as Hk.
  { apply list_elem_of_fmap. by exists (k, z). }
  apply make_frequency_dict_keys in Hk as (c & Hc & ->).
  constructor; [|constructor]. unfold text in Hs. rewrite Forall_forall in Hs. auto.
Qed.

(** *** The header *)

Lemma as_frequency_json frequency :
  as_frequency (frequency_json frequency) = Ok frequency.
Proof.
  unfold frequency_json, as_frequency.
  induction frequency as [|[k z] items IH]; [done|].
  rewrite fmap_cons. cbn [mapM_outcome fst snd]. rewrite IH. done.
Qed.

Lemma read_artifact_header_written frequency ext payload :
  Forall (fun item => text item.1) frequency ->
  NoDup (dict_keys frequency) ->
  text ext ->
  read_artifact_header ((json_dumps (header_json frequency ext) ++ [10%N]) ++ payload)
  = Ok (frequency, JStr ext, payload).
Proof.
  intros Ht Hnd Hext. unfold read_artifact_header.
  pose proof (header_printable frequency ext) as Hp.
  rewrite <- app_assoc. cbn [app].
  rewrite read_header_delimited by by apply printable_not_newline.
  cbn [mbind outcome_bind].
  rewrite utf8_decode_ascii by by apply printable_ascii.
  cbn [mbind outcome_bind].
  rewrite json_loads_header by done.
  cbn [mbind outcome_bind].
  change (subscript (header_json frequency ext) key_frequency)
    with (Ok (A:=json) (frequency_json frequency)).
  cbn [mbind outcome_bind].
  change (subscript (header_json frequency ext) key_original_extension)
    with (Ok (A:=json) (JStr ext)).
  cbn [mbind outcome_bind].
  by rewrite as_frequency_json.
Qed.

Lemma utf8_encode_header frequency ext :
  utf8_encode (json_dumps (header_json frequency ext) ++ [10%N])
  = Ok (json_dumps (header_json frequency ext) ++ [10%N]).
Proof.
  apply utf8_encode_ascii, Forall_app_2;
    [apply printable_ascii, header_printable|by repeat constructor].
Qed.

(** *** compress on an object that was used before *)






Lemma leaf_codes_under root :
  built root -> forall p, leaf_codes root p = under p <$> leaf_codes root [].
Proof.
  induction 1 as [i c f|i f l r _ IHl _ IHr]; intros p; simpl.
  - unfold under. simpl. by rewrite app_nil_r.
  - rewrite fmap_app, (IHl (p ++ [false])), (IHr (p ++ [true])).
    rewrite (IHl [false]), (IHr [true]), <- !list_fmap_compose.
    f_equal; apply list_fmap_ext; intros _ [k q] _; unfold under; simpl;
      by rewrite <- app_assoc.
Qed.

Lemma decode_tree_add_app p q ch node :
  decode_tree_add (p ++ q) ch node = update_at p (decode_tree_add q ch) node.
Proof.
  revert node. induction p as [|b p IH]; intros node; simpl; [done|].
  by rewrite IH.
Qed.

Lemma dnode_child_set node b child :
  dnode_child (dnode_set_child node b child) b = Some child.
Proof. by destruct node, b. Qed.

Lemma dnode_set_child_twice node b c1 c2 :
  dnode_set_child (dnode_set_child node b c1) b c2 = dnode_set_child node b c2.
Proof. by destruct node, b. Qed.

Lemma update_at_twice p f g : forall node,
  update_at p g (update_at p f node) = update_at p (fun t => g (f t)) node.
Proof.
  induction p as [|b p IH]; intros node; simpl; [done|].
  rewrite dnode_child_set, dnode_set_child_twice. cbn [default from_option id].
  by rewrite IH.
Qed.

Lemma add_all_under p items : forall f node,
  add_all (under p <$> items) (update_at p f node)
  = update_at p (fun t => add_all items (f t)) node.
Proof.
  unfold add_all.
  induction items as [|[k q] items IH]; intros f node; [done|].
  rewrite fmap_cons. cbn [fold_left under fst snd].
  rewrite decode_tree_add_app, update_at_twice. apply IH.
Qed.

Lemma add_all_under_nonempty p items node :
  items ≠ [] ->
  add_all (under p <$> items) node = update_at p (add_all items) node.
Proof.
  destruct items as [|[k q] items]; [done|]. intros _.
  rewrite fmap_cons. unfold add_all at 1. cbn [fold_left under fst snd].
  rewrite decode_tree_add_app. apply (add_all_under p items).
Qed.

Lemma add_all_app l1 l2 tree : add_all (l1 ++ l2) tree = add_all l2 (add_all l1 tree).
Proof. apply fold_left_app. Qed.

Lemma add_all_mirror root :
  built root -> add_all (leaf_codes root []) dnode_empty = mirror root.
Proof.
  induction 1 as [i c f|i f l r Hl IHl Hr IHr]; [done|].
  cbn [leaf_codes mirror app].
  rewrite add_all_app, (leaf_codes_under l Hl), (leaf_codes_under r Hr).
  rewrite !add_all_under_nonempty by by apply leaf_codes_nonempty.
  cbn. by rewrite IHl, IHr.
Qed.

Lemma decode_codeword root :
  built root -> char root = None ->
  forall x q tree rest acc,
    (x, q) ∈ leaf_codes root [] ->
    decode_loop tree (q ++ rest) (mirror root) acc
    = decode_loop tree rest tree (acc ++ [x]).
Proof.
  induction 1 as [i c f|i f l r Hl IHl Hr IHr]; [done|].
  intros _ x q tree rest acc Hin. cbn [leaf_codes app] in Hin.
  rewrite (leaf_codes_under l Hl), (leaf_codes_under r Hr) in Hin.
  apply elem_of_app in Hin as [Hin|Hin];
    apply list_elem_of_fmap in Hin as ([x' q'] & [= -> ->] & Hin); cbn.
  - destruct Hl as [i' c' f'|i' f' l' r' Hl1 Hl2].
    + apply list_elem_of_singleton in Hin as [= -> ->]. done.
    + apply (IHl eq_refl _ _ tree rest acc Hin).
  - destruct Hr as [i' c' f'|i' f' l' r' Hr1 Hr2].
    + apply list_elem_of_singleton in Hin as [= -> ->]. done.
    + apply (IHr eq_refl _ _ tree rest acc Hin).
Qed.

Lemma decode_message root (codes : dict pystr bitstring) :
  built root -> char root = None -> codes = leaf_codes root [] ->
  forall msg chunks acc,
    mapM_outcome (fun ch => dict_getitem [ch] codes) msg = Ok chunks ->
    decode_loop (mirror root) (concat chunks) (mirror root) acc
    = Ok (acc ++ ((fun ch => [ch]) <$> msg)).
Proof.
  intros Hb Hc ->. induction msg as [|ch msg IH]; intros chunks acc Hm.
  - injection Hm as <-. by rewrite app_nil_r.
  - cbn [mapM_outcome] in Hm.
    destruct (dict_getitem [ch] (leaf_codes root [])) as [q| | |] eqn:Hq;
      try discriminate Hm.
    change (Ok q ≫= ?f) with (f q) in Hm. cbv beta in Hm.
    destruct (mapM_outcome _ msg) as [chunks'| | |] eqn:E;
      try discriminate Hm.
    unfold dict_getitem in Hq.
    destruct (dict_get [ch] (leaf_codes root [])) as [q'|] eqn:Hq'; [|done].
    injection Hq as ->.
    injection Hm as <-. cbn [concat].
    rewrite (decode_codeword root Hb Hc [ch] q) by by apply dict_get_Some_elem.
    rewrite (IH chunks') by done. rewrite fmap_cons, <- app_assoc. done.
Qed.

Lemma concat_singletons (s : pystr) : concat ((fun ch => [ch]) <$> s) = s.
Proof. induction s as [|c s IH]; [done|]. rewrite fmap_cons. simpl. by rewrite IH. Qed.

Lemma mapM_outcome_Ok {A B} (f : A -> outcome B) l :
  (forall a, a ∈ l -> exists b, f a = Ok b) ->
  exists bs, mapM_outcome f l = Ok bs.
Proof.
  induction l as [|a l IH]; intros H; [by eexists|].
  destruct (H a) as [b Hb]; [left|].
  destruct IH as [bs Hbs]; [intros a' Ha'; apply H; by right|].
  exists (b :: bs). cbn [mapM_outcome]. by rewrite Hb, Hbs.
Qed.

Lemma built_leaf_count root : built root -> char root ≠ None -> length (node_leaves root) = 1.
Proof. by destruct 1. Qed.

Lemma get_byte_array_padded (b : bitstring) :
  exists bytes,
    get_byte_array (pad_encoded_text b) = Ok bytes
    /\ 8 * length bytes = length (pad_encoded_text b)
    /\ bit_string_of_bytes bytes = pad_encoded_text b.
Proof.
  destruct (pad_encoded_text_aligned b) as [m Hm].
  destruct (get_byte_array_chunks m (pad_encoded_text b) Hm)
    as (bytes & Hrun & Hlen & Hbits).
  exists bytes. unfold get_byte_array. rewrite Hm, range_step_8.
  split_and!; [done|lia|done].
Qed.

Lemma get_encoded_text_Ok (s : list N) self chunks :
  mapM_outcome (fun ch => dict_getitem [ch] (codes self)) s = Ok chunks ->
  get_encoded_text s self = (Ok (concat chunks), self).
Proof.
  intros H. unfold get_encoded_text, mbind, method_bind, get_attr, lift, ret.
  by rewrite H.
Qed.

Lemma built_root_merged root (keys : list (list N)) :
  built root -> node_leaves root ≡ₚ keys -> 2 <= length keys -> char root = None.
Proof.
  intros Hb Hl Hk. destruct Hb as [i c f|]; [|done].
  apply Permutation_length in Hl. unfold node_leaves in Hl. simpl in Hl. lia.
Qed.

Lemma mapM_outcome_lookup {A B} (f : A -> outcome B) l : forall bs k x,
  mapM_outcome f l = Ok bs -> bs !! k = Some x ->
  exists a, l !! k = Some a /\ f a = Ok x.
Proof.
  induction l as [|a l IH]; intros bs k x Hm Hk; cbn [mapM_outcome] in Hm.
  - injection Hm as <-. done.
  - destruct (f a) as [b| | |] eqn:Hb; try discriminate Hm.
    change (Ok b ≫= ?g) with (g b) in Hm. cbv beta in Hm.
    destruct (mapM_outcome f l) as [bs'| | |] eqn:Hbs; try discriminate Hm.
    injection Hm as <-. destruct k as [|k].
    + injection Hk as <-. by exists a.
    + destruct (IH bs' k x eq_refl Hk) as (a' & Ha' & Hf). by exists a'.
Qed.

Lemma as_byte_Ok n x : as_byte n = Ok x -> n = x.
Proof. unfold as_byte. case_match; [by intros [= ->]|done]. Qed.

(** * The claims of the specification *)

(** C1: for the text [aaaa], whose alphabet has one symbol, [compress]
    writes an artifact and [decompress] returns the empty text from it, not
    [aaaa]: the round trip of the claim fails there. *)
Theorem single_symbol_text_is_lost ident ident' :
  exists artifact self,
    compress ident dot_txt aaaa init = (Ok artifact, self)
    /\ (decompress ident' artifact init).1 = Ok ([], JStr dot_txt).
Proof.
  eexists _, _. split.
  - vm_compute. reflexivity.
  - vm_compute. reflexivity.
Qed.

(** C2: when the frequency table has one entry, the code that the three
    calls of code generation store for its symbol is the empty string, not a
    code of one bit. *)
Theorem single_symbol_code_is_empty ident key f :
  build_codes ident [(key, f)] init
  = (Ok tt, {| heap := []; codes := [(key, [])]; reverse_mapping := [] |}).
Proof.
  unfold build_codes, make_heap. cbn [dict_keys fmap list_fmap fst make_heap_loop].
  unfold mbind at 1, method_bind. unfold mbind at 1, method_bind.
  unfold lift at 1, dict_getitem. cbn [dict_get]. rewrite decide_True by done.
  reflexivity.
Qed.

(** C3, as amended: for the empty text [make_frequency_dict] returns the
    empty table without an error, and [compress] then raises [IndexError]
    (from [heappop] in [make_codes]); nothing is written and the object is
    as before. *)
Theorem compress_empty_raises_IndexError ident ext :
  make_frequency_dict [] = []
  /\ compress ident ext [] init = (Raise IndexError, init).
Proof. split; reflexivity. Qed.

(** C3, as stated, fails on the empty text: the error is not
    [EmptyInputError]. *)
Lemma empty_input_counterexample :
  (compress no_identity dot_txt [] init).1 = Raise IndexError
  /\ (compress no_identity dot_txt [] init).1 <> Raise EmptyInputError.
Proof. split; [reflexivity|discriminate]. Qed.

(** C4: [remove_padding] undoes [pad_encoded_text] on every bit-string, and
    the padding is between one and eight zero bits after the bit-string,
    behind the eight bits of their count. *)
Theorem padding_roundtrip (b : list bool) :
  remove_padding (pad_encoded_text b) = Ok b
  /\ exists k,
       1 <= k <= 8
       /\ pad_encoded_text b = format_08b (N.of_nat k) ++ b ++ replicate k false
       /\ length (format_08b (N.of_nat k)) = 8
       /\ (length b mod 8 = 0 -> k = 8).
Proof.
  split; [apply remove_padding_pad|].
  exists (8 - length b mod 8).
  pose proof (extra_padding_range (length b)) as Hk.
  split_and!; [lia|lia|done|by apply format_08b_small|lia].
Qed.

(** C10: the padded bit-string has a length divisible by eight, and
    [get_byte_array] turns it into one byte for each group of eight bits,
    with no bit left over. *)
Theorem padded_text_is_whole_bytes (b : list bool) :
  length (pad_encoded_text b) mod 8 = 0
  /\ exists bytes,
       get_byte_array (pad_encoded_text b) = Ok bytes
       /\ 8 * length bytes = length (pad_encoded_text b)
       /\ (forall k x, bytes !! k = Some x ->
             length (take 8 (drop (8 * k) (pad_encoded_text b))) = 8
             /\ int2 (take 8 (drop (8 * k) (pad_encoded_text b))) = Ok x)
       /\ bit_string_of_bytes bytes = pad_encoded_text b.
Proof.
  destruct (get_byte_array_padded b) as (bytes & Hrun & Hlen & Hbits).
  split.
  { rewrite <- Hlen, Nat.mul_comm. apply Nat.Div0.mod_mul. }
  exists bytes. split_and!; [done..| |done].
  intros k x Hk. pose proof (lookup_lt_Some _ _ _ Hk) as Hlt.
  split; [rewrite length_take, length_drop; lia|].
  unfold get_byte_array in Hrun.
  destruct (mapM_outcome_lookup _ _ _ _ _ Hrun Hk) as (i & Hi & Hf).
  unfold range_step in Hi. rewrite list_lookup_fmap in Hi.
  destruct (seq 0 _ !! k) as [k'|] eqn:Hseq; [|done].
  apply lookup_seq in Hseq as [-> _]. injection Hi as <-.
  rewrite Nat.mul_comm.
  destruct (int2 _) as [n| | |]; try discriminate Hf.
  by apply as_byte_Ok in Hf as ->.
Qed.







(** C8: the text of the header has no newline and is written as it is;
    reading up to the first newline gives back the text of the header and
    leaves the payload, and parsing that text gives back the frequency table
    and the extension.  The strings have no high surrogate, as every text
    decoded from UTF-8. *)
Theorem header_framing (frequency : dict (list N) Z) ext payload :
  Forall (fun item => text item.1) frequency ->
  NoDup (dict_keys frequency) ->
  text ext ->
  let header_text := json_dumps (header_json frequency ext) in
  (10%N ∉ header_text)
  /\ utf8_encode (header_text ++ [10%N]) = Ok (header_text ++ [10%N])
  /\ read_header ((header_text ++ [10%N]) ++ payload) = Ok (header_text, payload)
  /\ read_artifact_header ((header_text ++ [10%N]) ++ payload)
     = Ok (frequency, JStr ext, payload).
Proof.
  intros Ht Hnd Hext header_text.
  pose proof (header_printable frequency ext) as Hp. fold header_text in Hp.
  split_and!.
  - by apply printable_not_newline.
  - apply utf8_encode_header.
  - rewrite <- app_assoc. apply read_header_delimited.
    by apply printable_not_newline.
  - by apply read_artifact_header_written.
Qed.

Lemma header_framing_witness :
  Forall (fun item : list N * Z => text item.1) (make_frequency_dict abracadabra)
  /\ NoDup (dict_keys (make_frequency_dict abracadabra))
  /\ text dot_txt
  /\ let header_text :=
       json_dumps (header_json (make_frequency_dict abracadabra) dot_txt) in
     (10%N ∉ header_text)
     /\ utf8_encode (header_text ++ [10%N]) = Ok (header_text ++ [10%N])
     /\ read_header ((header_text ++ [10%N]) ++ [1; 124]%N)
        = Ok (header_text, [1; 124]%N)
     /\ read_artifact_header ((header_text ++ [10%N]) ++ [1; 124]%N)
        = Ok (make_frequency_dict abracadabra, JStr dot_txt, [1; 124]%N).
Proof.
  assert (Forall (fun item : list N * Z => text item.1)
            (make_frequency_dict abracadabra)) as H1
    by (apply (bool_decide_unpack _); vm_compute; exact I).
  assert (NoDup (dict_keys (make_frequency_dict abracadabra))) as H2
    by (apply (bool_decide_unpack _); vm_compute; exact I).
  assert (text dot_txt) as H3
    by (apply (bool_decide_unpack _); vm_compute; exact I).
  split; [exact H1|]. split; [exact H2|]. split; [exact H3|].
  exact (header_framing _ _ [1; 124]%N H1 H2 H3).
Defined.




(** * Further properties of the code *)

Lemma count_character_get frequency c x :
  dict_get [x] (count_character frequency c)
  = if decide (x = c) then Some (default 0 (dict_get [c] frequency) + 1)%Z
    else dict_get [x] frequency.
Proof.
  unfold count_character. rewrite dict_get_set.
  destruct (decide (x = c)) as [->|Hne].
  - by rewrite decide_True.
  - rewrite decide_False; [done|]. by intros [= ->].
Qed.

Lemma occurrences_cons c x s :
  occurrences c (x :: s)
  = ((if decide (x = c) then 1 else 0) + occurrences c s)%Z.
Proof.
  unfold occurrences. rewrite filter_cons.
  destruct (decide (x = c)); simpl length; lia.
Qed.

Lemma occurrences_pos c s : c ∈ s -> (0 < occurrences c s)%Z.
Proof.
  induction s as [|x s IH]; [by intros ?%elem_of_nil|].
  rewrite occurrences_cons. intros [->|Hin]%elem_of_cons.
  - rewrite decide_True by done. unfold occurrences. lia.
  - specialize (IH Hin). destruct (decide (x = c)); lia.
Qed.

Lemma occurrences_not_in c s : c ∉ s -> occurrences c s = 0%Z.
Proof.
  induction s as [|x s IH]; [done|].
  rewrite occurrences_cons. intros [Hne Hin]%not_elem_of_cons.
  rewrite decide_False by done. rewrite IH by done. lia.
Qed.

Lemma frequency_fold_get s : forall frequency c,
  dict_get [c] (fold_left count_character s frequency)
  = match dict_get [c] frequency with
    | Some v => Some (v + occurrences c s)%Z
    | None => if decide (c ∈ s) then Some (occurrences c s) else None
    end.
Proof.
  induction s as [|x s IH]; intros frequency c; cbn [fold_left].
  - destruct (dict_get [c] frequency); [f_equal; unfold occurrences; simpl; lia|].
    case_decide as Hin; [by apply elem_of_nil in Hin|done].
  - rewrite IH, count_character_get, occurrences_cons.
    destruct (decide (c = x)) as [->|Hne].
    + rewrite decide_True by done.
      destruct (dict_get [x] frequency) as [v|]; simpl.
      * f_equal; lia.
      * rewrite decide_True by left. f_equal; lia.
    + destruct (decide (x = c)) as [->|_]; [done|].
      destruct (dict_get [c] frequency) as [v|]; [f_equal; lia|].
      destruct (decide (c ∈ s)) as [Hin|Hin].
      * rewrite decide_True by (by right). f_equal; lia.
      * rewrite decide_False; [done|]. by intros [?|?]%elem_of_cons.
Qed.

Lemma values_sum_set (k : list N) v (frequency : dict (list N) Z) :
  values_sum (dict_set k v frequency)
  = (values_sum frequency + v - default 0 (dict_get k frequency))%Z.
Proof.
  induction frequency as [|[k' v'] frequency IH]; cbn [dict_set dict_get].
  - simpl. lia.
  - destruct (decide (k = k')) as [->|Hne]; cbn [values_sum foldr snd default from_option id].
    + simpl. lia.
    + fold (values_sum (dict_set k v frequency)). fold (values_sum frequency).
      rewrite IH. lia.
Qed.

Lemma frequency_fold_sum s : forall frequency,
  values_sum (fold_left count_character s frequency)
  = (values_sum frequency + Z.of_nat (length s))%Z.
Proof.
  induction s as [|x s IH]; intros frequency; cbn [fold_left length].
  - lia.
  - rewrite IH. unfold count_character at 1. rewrite values_sum_set. lia.
Qed.

Lemma frequency_fold_order s : forall frequency seen,
  dict_keys frequency = (fun c => [c]) <$> seen ->
  dict_keys (fold_left count_character s frequency)
  = (fun c => [c]) <$>
      fold_left (fun seen c => if decide (c ∈ seen) then seen else seen ++ [c]) s seen.
Proof.
  induction s as [|x s IH]; intros frequency seen Hk; cbn [fold_left]; [done|].
  apply IH. unfold count_character. rewrite dict_keys_set, Hk.
  destruct (decide (x ∈ seen)) as [Hin|Hin].
  - rewrite decide_True; [done|]. apply list_elem_of_fmap. by exists x.
  - rewrite decide_False.
    + by rewrite fmap_app.
    + intros (y & [= ->] & Hy)%list_elem_of_fmap. done.
Qed.

(** X16: the frequency table of a text maps each character of the text to
    the number of its occurrences and has no other key. *)
Theorem make_frequency_dict_counts (s : pystr) (c : codepoint) :
  dict_get [c] (make_frequency_dict s)
  = if decide (c ∈ s) then Some (occurrences c s) else None.
Proof.
  change (make_frequency_dict s) with (fold_left count_character s []).
  by rewrite frequency_fold_get.
Qed.

(** X17: the frequencies of a text add up to the length of the text. *)
Theorem make_frequency_dict_sum (s : pystr) :
  values_sum (make_frequency_dict s) = Z.of_nat (length s).
Proof.
  change (make_frequency_dict s) with (fold_left count_character s []).
  by rewrite frequency_fold_sum.
Qed.

(** X18: the keys of the frequency table are the characters of the text in
    the order in which each comes first, each once; this is the order in
    which [make_heap] pushes the leaves. *)
Theorem make_frequency_dict_order (s : pystr) :
  dict_keys (make_frequency_dict s) = (fun c => [c]) <$> first_occurrences s
  /\ NoDup (dict_keys (make_frequency_dict s)).
Proof.
  split; [|apply make_frequency_dict_NoDup].
  change (make_frequency_dict s) with (fold_left count_character s []).
  by apply frequency_fold_order.
Qed.

Lemma heap_weight_Permutation (h h' : list HeapNode) :
  h ≡ₚ h' -> heap_weight h = heap_weight h'.
Proof.
  unfold heap_weight. induction 1; simpl; try lia.
Qed.

Lemma heap_weight_app (h h' : list HeapNode) :
  heap_weight (h ++ h') = (heap_weight h + heap_weight h')%Z.
Proof.
  unfold heap_weight. induction h as [|n h IH]; simpl; lia.
Qed.

Lemma make_heap_loop_nodes ident frequency : forall keys i h0,
  (forall key, key ∈ keys -> is_Some (dict_get key frequency)) ->
  exists h,
    (forall self, heap self = h0 ->
       make_heap_loop ident i frequency keys self = (Ok tt, set_heap h self))
    /\ h ≡ₚ h0 ++ leaf_nodes ident i frequency keys.
Proof.
  induction keys as [|key keys IH]; intros i h0 Hk.
  - exists h0. rewrite app_nil_r. split; [|done].
    intros [] <-. reflexivity.
  - destruct (Hk key) as [f Hf]; [left|].
    destruct (heappush_spec HeapNode_lt h0
                (mkHeapNode (ident i) (Some key) f None None))
      as (h1 & Hpush & Hperm).
    destruct (IH (S i) h1) as (h & Hrun & Hl).
    { intros k' Hk'. apply Hk. by right. }
    exists h. split.
    + intros self <-. cbn [make_heap_loop].
      unfold mbind at 1, method_bind, lift.
      unfold dict_getitem. rewrite Hf.
      unfold mbind at 1, method_bind, get_attr.
      unfold mbind at 1, method_bind. rewrite Hpush.
      unfold mbind at 1, method_bind, put_heap.
      rewrite (Hrun (set_heap h1 self)) by done. by destruct self.
    + rewrite Hl, Hperm. cbn [leaf_nodes]. rewrite Hf. cbn [default from_option id].
      by rewrite <- Permutation_middle.
Qed.

Lemma merge_loop_total ident : forall fuel i h0,
  length h0 <= S fuel ->
  exists h,
    (forall self, heap self = h0 ->
       merge_loop fuel ident i self = (Ok tt, set_heap h self))
    /\ length h = Nat.min 1 (length h0)
    /\ heap_weight h = heap_weight h0
    /\ (Forall weighed h0 -> Forall weighed h).
Proof.
  induction fuel as [|fuel IH]; intros i h0 Hfuel;
    (destruct (decide (1 < length h0)) as [Hlen|Hlen];
     [|exists h0; split_and!; [|lia|done|done];
       intros self <-; destruct fuel || idtac; simpl;
       rewrite decide_False by done; by destruct self]); [lia|].
  destruct (heappop_spec HeapNode_lt h0) as (node1 & h1 & Hpop1 & Hp1).
  { intros E. rewrite E in Hlen. simpl in Hlen. lia. }
  destruct (heappop_spec HeapNode_lt h1) as (node2 & h2 & Hpop2 & Hp2).
  { intros ->. apply Permutation_length in Hp1. simpl in Hp1. lia. }
  set (merged := mkHeapNode (ident i) None (freq node1 + freq node2)
                   (Some node1) (Some node2)).
  destruct (heappush_spec HeapNode_lt h2 merged) as (h3 & Hpush & Hp3).
  destruct (IH (S i) h3) as (h & Hrun & Hlenh & Hw & Hwd).
  { apply Permutation_length in Hp1, Hp2, Hp3. simpl in *. lia. }
  exists h. split_and!.
  - intros self <-. cbn [merge_loop]. rewrite decide_True by done.
    unfold mbind at 1, method_bind, get_attr.
    unfold mbind at 1, method_bind, lift. rewrite Hpop1.
    unfold mbind at 1, method_bind, put_heap.
    unfold mbind at 1, method_bind. simpl heap. rewrite Hpop2.
    unfold mbind at 1, method_bind.
    unfold mbind at 1, method_bind. fold merged. rewrite Hpush.
    unfold mbind at 1, method_bind.
    rewrite (Hrun (set_heap h3 (set_heap h2 (set_heap h1 self)))) by done.
    by destruct self.
  - apply Permutation_length in Hp3.
    rewrite Hp3 in Hlenh. cbn [length] in Hlenh. lia.
  - rewrite Hw, (heap_weight_Permutation _ _ Hp3).
    rewrite <- (heap_weight_Permutation _ _ Hp1).
    cbn [heap_weight foldr]. fold (heap_weight h1). fold (heap_weight h2).
    rewrite <- (heap_weight_Permutation _ _ Hp2).
    cbn [heap_weight foldr]. fold (heap_weight h2). simpl freq. lia.
  - intros Hall. apply Hwd. rewrite Hp3.
    rewrite <- Hp1, <- Hp2 in Hall.
    apply Forall_cons in Hall as [W1 [W2 W3]%Forall_cons].
    constructor; [|done]. unfold weighed in *. simpl. lia.
Qed.

Lemma leaf_nodes_weighed ident frequency : forall keys i,
  Forall weighed (leaf_nodes ident i frequency keys).
Proof.
  induction keys as [|key keys IH]; intros i; constructor; [done|apply IH].
Qed.

Lemma leaf_nodes_weight ident (frequency : dict (list N) Z) :
  forall (items : list (list N * Z)) i,
  (forall item, item ∈ items -> dict_get item.1 frequency = Some item.2) ->
  heap_weight (leaf_nodes ident i frequency items.*1) = values_sum items.
Proof.
  induction items as [|[k v] items IH]; intros i Hitems; [done|].
  cbn [fmap list_fmap fst leaf_nodes heap_weight values_sum foldr snd].
  fold (heap_weight (leaf_nodes ident (S i) frequency items.*1)).
  fold (values_sum items).
  pose proof (Hitems (k, v) ltac:(left)) as Hk. cbn [fst snd] in Hk.
  rewrite Hk. rewrite IH; [done|].
  intros item Hin. apply Hitems. by right.
Qed.

(** The tree [make_heap] and [merge_nodes] build on an object whose heap is
    empty. *)
Lemma build_tree_spec ident (frequency : dict (list N) Z) :
  NoDup (dict_keys frequency) -> frequency ≠ [] ->
  exists root,
    (forall self, heap self = [] ->
       build_tree ident frequency self = (Ok tt, set_heap [root] self))
    /\ built root
    /\ node_leaves root ≡ₚ dict_keys frequency
    /\ weighed root
    /\ freq root = values_sum frequency.
Proof.
  intros Hnd Hne. unfold build_tree, make_heap, merge_nodes.
  destruct (make_heap_loop_spec ident frequency (dict_keys frequency) 0 [])
    as (h1 & Hrun1 & Hb1 & Hl1 & Hlen1); [constructor|apply dict_getitem_keys|].
  destruct (make_heap_loop_nodes ident frequency (dict_keys frequency) 0 [])
    as (h1' & Hrun1' & Hp1); [apply dict_getitem_keys|].
  assert (h1' = h1) as ->.
  { pose proof (Hrun1 init eq_refl) as E. rewrite (Hrun1' init eq_refl) in E.
    by injection E. }
  simpl in Hl1, Hlen1, Hp1.
  destruct (merge_loop_spec (fun i => ident (length frequency + i))
              (length h1) 0 h1)
    as (h2 & Hrun2 & Hb2 & Hl2 & Hlen2); [lia|done|].
  destruct (merge_loop_total (fun i => ident (length frequency + i))
              (length h1) 0 h1)
    as (h2' & Hrun2' & _ & Hw & Hwd); [lia|].
  assert (h2' = h2) as ->.
  { pose proof (Hrun2 (set_heap h1 init) eq_refl) as E.
    rewrite (Hrun2' (set_heap h1 init) eq_refl) in E. by injection E. }
  assert (length h1 ≠ 0) as Hh1.
  { rewrite Hlen1. unfold dict_keys. rewrite length_fmap.
    by destruct frequency. }
  destruct h2 as [|root [|? ?]]; cbn [length] in Hlen2; [lia| |lia].
  exists root. split_and!.
  - intros self Hheap.
    unfold mbind at 1, method_bind. rewrite (Hrun1 self Hheap).
    change (heap (set_heap h1 self)) with h1.
    rewrite (Hrun2 (set_heap h1 self)) by done.
    destruct self; simpl in *. by subst.
  - by apply Forall_cons in Hb2 as [? _].
  - rewrite <- Hl1, <- Hl2. unfold heap_leaves. simpl. by rewrite app_nil_r.
  - assert (Forall weighed [root]) as Hr; [|by apply Forall_cons in Hr as [? _]].
    apply Hwd. rewrite Hp1. apply leaf_nodes_weighed.
  - cbn [heap_weight foldr] in Hw. rewrite (heap_weight_Permutation _ _ Hp1) in Hw.
    unfold dict_keys in Hw. rewrite leaf_nodes_weight in Hw; [lia|].
    intros [k v] Hin. by apply dict_get_NoDup.
Qed.

(** X10: on every object, [make_heap] returns, and the heap is afterwards a
    permutation of what it held before and one new leaf for each key of the
    table, with the frequency of the key: nodes an earlier call left are
    kept. *)
Theorem make_heap_pushes_a_leaf_for_each_key ident (frequency : dict (list N) Z) self :
  exists h,
    make_heap ident frequency self = (Ok tt, set_heap h self)
    /\ h ≡ₚ heap self ++ leaf_nodes ident 0 frequency (dict_keys frequency).
Proof.
  destruct (make_heap_loop_nodes ident frequency (dict_keys frequency) 0 (heap self))
    as (h & Hrun & Hp); [apply dict_getitem_keys|].
  exists h. split; [by apply Hrun|done].
Qed.

(** X11: on every object, the loop of [merge_nodes] ends; the heap holds one
    node afterwards (none when it was empty), the sum of the frequencies of
    the heap is as before, and when every node had the frequency of its
    leaves, the node that is left has too. *)
Theorem merge_nodes_leaves_one_node ident self :
  exists h,
    merge_nodes ident self = (Ok tt, set_heap h self)
    /\ length h = Nat.min 1 (length (heap self))
    /\ heap_weight h = heap_weight (heap self)
    /\ (Forall weighed (heap self) -> Forall weighed h).
Proof.
  destruct (merge_loop_total ident (length (heap self)) 0 (heap self))
    as (h & Hrun & Hlen & Hw & Hwd); [lia|].
  exists h. split_and!; [|done..]. unfold merge_nodes. by apply Hrun.
Qed.

(** X9: for a text that is not empty, [make_heap] and [merge_nodes] on a new
    object leave one node in the heap; it is a tree whose leaves are the
    distinct characters of the text, every node of which has the sum of the
    frequencies of its leaves, and the frequency of the root is the length
    of the text. *)
Theorem tree_weight_is_text_length ident (s : pystr) :
  s ≠ [] ->
  exists root,
    build_tree ident (make_frequency_dict s) init = (Ok tt, set_heap [root] init)
    /\ built root
    /\ node_leaves root ≡ₚ (fun c => [c]) <$> first_occurrences s
    /\ weighed root
    /\ freq root = Z.of_nat (length s).
Proof.
  intros Hs.
  destruct (build_tree_spec ident (make_frequency_dict s))
    as (root & Hrun & Hb & Hl & Hw & Hf).
  { apply make_frequency_dict_NoDup. }
  { by rewrite make_frequency_dict_nil. }
  exists root. split_and!; [by apply Hrun|done| |done|].
  - rewrite Hl.
    change (make_frequency_dict s) with (fold_left count_character s []).
    by rewrite (frequency_fold_order s [] []).
  - rewrite Hf.
    change (make_frequency_dict s) with (fold_left count_character s []).
    by rewrite frequency_fold_sum.
Qed.

Lemma tree_weight_is_text_length_witness :
  abracadabra ≠ []
  /\ exists root,
       build_tree no_identity (make_frequency_dict abracadabra) init
       = (Ok tt, set_heap [root] init)
       /\ built root
       /\ node_leaves root ≡ₚ (fun c => [c]) <$> first_occurrences abracadabra
       /\ weighed root
       /\ freq root = Z.of_nat (length abracadabra).
Proof.
  assert (abracadabra ≠ []) as H by discriminate.
  split; [exact H|]. exact (tree_weight_is_text_length no_identity abracadabra H).
Defined.

Lemma mapM_outcome_KeyError {A B} (f : A -> outcome B) (l : list A) a :
  (forall x, x ∈ l -> (exists b, f x = Ok b) \/ f x = Raise KeyError) ->
  a ∈ l -> f a = Raise KeyError ->
  mapM_outcome f l = Raise KeyError.
Proof.
  induction l as [|x l IH]; intros Hall Hin Ha; [by apply elem_of_nil in Hin|].
  cbn [mapM_outcome].
  destruct (Hall x) as [[b Hb]|Hx]; [left| |by rewrite Hx].
  rewrite Hb. change (Ok b ≫= ?g) with (g b). cbv beta.
  apply elem_of_cons in Hin as [->|Hin]; [congruence|].
  rewrite IH; [done| |done..].
  intros y Hy. apply Hall. by right.
Qed.

Lemma dict_getitem_cases {V} (k : list N) (d : dict (list N) V) :
  (exists v, dict_getitem k d = Ok v) \/ dict_getitem k d = Raise KeyError.
Proof. unfold dict_getitem. destruct (dict_get k d); eauto. Qed.

Lemma bits_of_byte_small (b : N) :
  (b < 256)%N ->
  length (bits_of_byte b) = 8 /\ int2 (bits_of_byte b) = Ok b /\ as_byte b = Ok b.
Proof.
  intros Hb. destruct b as [|p]; [by vm_compute|].
  do 8 (try destruct p as [p|p|]); try lia; by vm_compute.
Qed.

Lemma bytes_chunks : forall bs : list N,
  Forall (fun b => (b < 256)%N) bs ->
  mapM_outcome
    (fun i => n ← int2 (take 8 (drop i (bit_string_of_bytes bs))); as_byte n)
    ((fun k => k * 8) <$> seq 0 (length bs)) = Ok bs
  /\ length (bit_string_of_bytes bs) = 8 * length bs.
Proof.
  induction bs as [|b bs IH]; intros Hall; [done|].
  apply Forall_cons in Hall as [Hb Hall].
  destruct (bits_of_byte_small b Hb) as (Hlen & Hint & Hbyte).
  destruct (IH Hall) as [Hrun Hl]. split.
  - assert (bit_string_of_bytes (b :: bs)
            = bits_of_byte b ++ bit_string_of_bytes bs) as -> by reflexivity.
    cbn [length]. rewrite <- cons_seq, fmap_cons. cbn [mapM_outcome].
    change (0 * 8) with 0.
    rewrite drop_0, take_app_length' by done. rewrite Hint.
    change (Ok b ≫= ?g) with (g b). cbv beta. rewrite Hbyte.
    change (Ok b ≫= ?g) with (g b). cbv beta.
    rewrite <- fmap_S_seq, <- list_fmap_compose, mapM_outcome_fmap.
    rewrite mapM_outcome_fmap in Hrun.
    erewrite mapM_outcome_ext; [rewrite Hrun; done|].
    intros k _. cbn [compose].
    replace (S k * 8) with (8 + k * 8) by lia.
    rewrite <- drop_drop, drop_app_length' by done. reflexivity.
  - unfold bit_string_of_bytes in *. rewrite fmap_cons. cbn [concat length].
    rewrite length_app, Hl, Hlen. lia.
Qed.

Lemma read_header_no_newline (file : list N) :
  10%N ∉ file -> read_header file = Diverge.
Proof.
  induction file as [|b file IH]; [done|].
  intros [Hb Hfile]%not_elem_of_cons. cbn [read_header].
  rewrite (proj2 (N.eqb_neq b 10)) by done. by rewrite IH.
Qed.

Lemma decode_loop_KeyError tree : forall bits node acc,
  position tree bits node = None ->
  decode_loop tree bits node acc = Raise KeyError.
Proof.
  induction bits as [|bit bits IH]; intros node acc Hpos; [done|].
  cbn [position decode_loop] in *.
  destruct (dnode_child node bit) as [child|]; [|done].
  destruct (dnode_chr child); by apply IH.
Qed.

(** X19: when a character of the text has no code in [codes],
    [get_encoded_text] raises [KeyError] and leaves the object as it is. *)
Theorem get_encoded_text_KeyError (s : pystr) (c : codepoint) self :
  c ∈ s -> dict_get [c] (codes self) = None ->
  get_encoded_text s self = (Raise KeyError, self).
Proof.
  intros Hin Hc.
  unfold get_encoded_text, mbind, method_bind, get_attr, lift.
  rewrite (mapM_outcome_KeyError _ s c); [done| |done|].
  - intros x _. apply dict_getitem_cases.
  - unfold dict_getitem. by rewrite Hc.
Qed.

Lemma get_encoded_text_KeyError_witness :
  98%N ∈ abracadabra /\ dict_get [98%N] (codes init) = None
  /\ get_encoded_text abracadabra init = (Raise KeyError, init).
Proof.
  assert (98%N ∈ abracadabra) as H1
    by (apply (bool_decide_unpack _); vm_compute; exact I).
  assert (dict_get [98%N] (codes init) = None) as H2 by reflexivity.
  split; [exact H1|]. split; [exact H2|].
  exact (get_encoded_text_KeyError abracadabra 98%N init H1 H2).
Defined.

(** X20: [remove_padding] reads the first eight bits as a count and drops as
    many bits from the end of the rest, whatever they are and however many
    the count says; for the count zero it returns the empty bit-string,
    because the slice [[8:-0]] is empty. *)
Theorem remove_padding_trusts_the_count (hdr b : bitstring) (k : N) :
  length hdr = 8 -> int2 hdr = Ok k ->
  remove_padding (hdr ++ b)
  = Ok (if decide (k = 0%N) then [] else take (length b - N.to_nat k) b).
Proof.
  intros Hlen Hk. unfold remove_padding.
  rewrite take_app_length' by done. rewrite Hk.
  change (Ok k ≫= ?g) with (g k). cbv beta. f_equal.
  unfold slice_to_neg. rewrite drop_app_length' by done.
  destruct (decide (k = 0%N)) as [->|Hne]; [done|].
  destruct (N.to_nat k) as [|e] eqn:E; [lia|].
  f_equal. rewrite length_app. lia.
Qed.

Lemma remove_padding_trusts_the_count_witness :
  length (format_08b 0) = 8 /\ int2 (format_08b 0) = Ok 0%N
  /\ remove_padding (format_08b 0 ++ [true; false; true])
     = Ok (if decide (0%N = 0%N) then []
           else take (length [true; false; true] - N.to_nat 0) [true; false; true]).
Proof.
  assert (length (format_08b 0) = 8) as H1 by reflexivity.
  assert (int2 (format_08b 0) = Ok 0%N) as H2 by reflexivity.
  split; [exact H1|]. split; [exact H2|].
  exact (remove_padding_trusts_the_count _ [true; false; true] 0%N H1 H2).
Defined.

(** X21: on a bit-string of eight bits or fewer, [remove_padding] raises
    [ValueError] when it is empty and returns the empty bit-string
    otherwise. *)
Theorem remove_padding_short (s : bitstring) :
  length s <= 8 ->
  remove_padding s = match s with [] => Raise ValueError | _ => Ok [] end.
Proof.
  intros Hlen. unfold remove_padding.
  rewrite take_ge by done.
  destruct s as [|b s]; [done|].
  unfold int2. change (Ok ?n ≫= ?g) with (g n). cbv beta. f_equal.
  unfold slice_to_neg. rewrite drop_ge by done. by rewrite take_nil.
Qed.

Lemma remove_padding_short_witness :
  length [true; false] <= 8
  /\ remove_padding [true; false] = Ok [].
Proof.
  assert (length [true; false] <= 8) as H by (simpl; lia).
  split; [exact H|]. exact (remove_padding_short [true; false] H).
Defined.

(** X22: the bit-string that the loop of [decompress] makes from bytes has
    eight bits for each byte, and [get_byte_array] packs it back into the
    same bytes. *)
Theorem bytes_of_bits_of_bytes (bs : list N) :
  Forall (fun b => (b < 256)%N) bs ->
  length (bit_string_of_bytes bs) = 8 * length bs
  /\ get_byte_array (bit_string_of_bytes bs) = Ok bs.
Proof.
  intros Hall. destruct (bytes_chunks bs Hall) as [Hrun Hlen].
  split; [done|]. unfold get_byte_array. by rewrite Hlen, range_step_8.
Qed.

Lemma bytes_of_bits_of_bytes_witness :
  Forall (fun b => (b < 256)%N) [1; 124; 255]%N
  /\ length (bit_string_of_bytes [1; 124; 255]%N) = 8 * length [1; 124; 255]%N
  /\ get_byte_array (bit_string_of_bytes [1; 124; 255]%N) = Ok [1; 124; 255]%N.
Proof.
  assert (Forall (fun b => (b < 256)%N) [1; 124; 255]%N) as H
    by (repeat constructor).
  split; [exact H|]. exact (bytes_of_bits_of_bytes _ H).
Defined.

(** X23: when a bit of the bit-string has no entry in the dictionary the loop
    stands on, [decode_text_tree] raises [KeyError]; with the tree of a
    table with one key this happens at the first bit. *)
Theorem decode_text_tree_KeyError (tree : dnode) (encoded_text : bitstring) :
  position tree encoded_text tree = None ->
  decode_text_tree encoded_text tree = Raise KeyError.
Proof.
  intros Hpos. unfold decode_text_tree.
  by rewrite (decode_loop_KeyError tree encoded_text tree [] Hpos).
Qed.

Lemma decode_text_tree_KeyError_witness :
  position single_symbol_tree [false] single_symbol_tree = None
  /\ decode_text_tree [false] single_symbol_tree = Raise KeyError.
Proof.
  assert (position single_symbol_tree [false] single_symbol_tree = None) as H
    by reflexivity.
  split; [exact H|]. exact (decode_text_tree_KeyError _ _ H).
Defined.

(** X24: on a file without a newline, the loop of [decompress] that reads
    the header never ends: at the end of the file [read(1)] returns the
    empty bytes object, which is not the newline. *)
Theorem decompress_without_newline_never_returns ident (file : list N) self :
  10%N ∉ file -> decompress ident file self = (Diverge, self).
Proof.
  intros Hnl. unfold decompress, mbind, method_bind, lift.
  by rewrite read_header_no_newline.
Qed.

Lemma decompress_without_newline_never_returns_witness :
  (10%N ∉ [123; 125]%N)
  /\ decompress no_identity [123; 125]%N init = (Diverge, init).
Proof.
  assert (10%N ∉ [123; 125]%N) as H
    by (apply (bool_decide_unpack _); vm_compute; exact I).
  split; [exact H|].
  exact (decompress_without_newline_never_returns no_identity _ init H).
Defined.

Lemma method_bind_assoc {A B C} (m : method A) (k : A -> method B)
    (k' : B -> method C) self :
  ((m ≫= k) ≫= k') self = (m ≫= fun a => k a ≫= k') self.
Proof.
  unfold mbind, method_bind. by destruct (m self) as [[a| | |] self'].
Qed.

Lemma build_codes_build_tree ident frequency self :
  build_codes ident frequency self
  = (_ ← build_tree ident frequency; make_codes) self.
Proof. unfold build_codes, build_tree. by rewrite method_bind_assoc. Qed.

Lemma write_artifact_state ext text frequency self :
  (write_artifact ext text frequency self).2 = self.
Proof.
  unfold write_artifact, get_encoded_text.
  unfold mbind, method_bind, lift, ret, get_attr.
  destruct (mapM_outcome _ text) as [chunks| | |]; try done.
  destruct (get_byte_array _) as [byte_array| | |]; try done.
  by destruct (utf8_encode _).
Qed.

Lemma read_payload_state payload ext self :
  (read_payload payload ext self).2 = self.
Proof.
  unfold read_payload, build_decode_tree.
  unfold mbind, method_bind, lift, ret, get_attr.
  destruct (remove_padding _) as [encoded_text| | |]; try done.
  by destruct (decode_text_tree _ _).
Qed.



Lemma build_codes_single ident key f :
  build_codes ident [(key, f)] init
  = (Ok tt, {| heap := []; codes := [(key, [])]; reverse_mapping := [] |}).
Proof.
  unfold build_codes, make_heap. cbn [dict_keys fmap list_fmap fst make_heap_loop].
  unfold mbind at 1, method_bind. unfold mbind at 1, method_bind.
  unfold lift at 1, dict_getitem. cbn [dict_get]. rewrite decide_True by done.
  reflexivity.
Qed.

Lemma frequency_fold_single c : forall n v,
  fold_left count_character (replicate n c) [([c], v)]
  = [([c], (v + Z.of_nat n)%Z)].
Proof.
  induction n as [|n IH]; intros v; cbn [replicate fold_left].
  - do 2 f_equal. lia.
  - unfold count_character at 2. cbn [dict_get dict_set].
    rewrite !decide_True by done. cbn [default from_option id].
    rewrite IH. do 2 f_equal. lia.
Qed.

Lemma make_frequency_dict_single c n :
  make_frequency_dict (replicate (S n) c) = [([c], Z.of_nat (S n))].
Proof.
  change (make_frequency_dict (replicate (S n) c))
    with (fold_left count_character (replicate n c) [([c], 1%Z)]).
  rewrite frequency_fold_single. do 2 f_equal. lia.
Qed.

Lemma single_code_chunks (c : N) : forall n,
  mapM_outcome (fun ch => dict_getitem [ch] [([c], @nil bool)]) (replicate n c)
  = Ok (replicate n []).
Proof.
  induction n as [|n IH]; [done|].
  cbn [replicate mapM_outcome]. rewrite IH.
  unfold dict_getitem. cbn [dict_get]. by rewrite decide_True.
Qed.

Lemma concat_replicate_nil {A} n : concat (replicate n (@nil A)) = [].
Proof. induction n as [|n IH]; [done|]. by cbn [replicate concat app]. Qed.

Section keeps_reverse_mapping.
Lemma keeps_bind {A B} (m : method A) (k : A -> method B) :
keeps_reverse_mapping m -> (forall a, keeps_reverse_mapping (k a)) ->
keeps_reverse_mapping (m ≫= k).
Proof.
intros Hm Hk self. unfold mbind, method_bind.
specialize (Hm self). destruct (m self) as [[a| | |] self']; try done.
cbn [snd] in Hm. by rewrite Hk.
Qed.

Lemma keeps_ret {A} (a : A) : keeps_reverse_mapping (ret a).
Proof. done. Qed.

Lemma keeps_lift {A} (m : outcome A) : keeps_reverse_mapping (lift m).
Proof. done. Qed.

Lemma keeps_get_attr {A} (f : HuffmanCoding -> A) :
keeps_reverse_mapping (get_attr f).
Proof. done. Qed.

Lemma keeps_put_heap h : keeps_reverse_mapping (put_heap h).
Proof. by intros []. Qed.

Lemma keeps_put_codes c : keeps_reverse_mapping (put_codes c).
Proof. by intros []. Qed.
End keeps_reverse_mapping.

Ltac keeps :=
  repeat first
    [ apply keeps_ret | apply keeps_lift | apply keeps_get_attr
    | apply keeps_put_heap | apply keeps_put_codes
    | apply keeps_bind; [|intros ?]
    | match goal with |- keeps_reverse_mapping (let '(_, _) := ?p in _) =>
        destruct p end ].

Lemma keeps_make_heap_loop ident frequency : forall keys i,
  keeps_reverse_mapping (make_heap_loop ident i frequency keys).
Proof.
  induction keys as [|key keys IH]; intros i; cbn [make_heap_loop]; keeps.
  apply IH.
Qed.

Lemma keeps_merge_loop ident : forall fuel i,
  keeps_reverse_mapping (merge_loop fuel ident i).
Proof.
  induction fuel as [|fuel IH]; intros i self; cbn [merge_loop];
    case_decide as Hd; try done.
  clear Hd. revert self.
  change (keeps_reverse_mapping
            (h ← get_attr heap;
             '(node1, h) ← lift (heappop HeapNode_lt h);
             _ ← put_heap h;
             '(node2, h) ← lift (heappop HeapNode_lt h);
             _ ← put_heap h;
             h ← lift (heappush HeapNode_lt h
                         (mkHeapNode (ident i) None (freq node1 + freq node2)
                            (Some node1) (Some node2)));
             _ ← put_heap h;
             merge_loop fuel ident (S i))).
  keeps. apply IH.
Qed.

Lemma keeps_build_codes ident frequency :
  keeps_reverse_mapping (build_codes ident frequency).
Proof.
  unfold build_codes, make_heap, merge_nodes, make_codes. keeps.
  - apply keeps_make_heap_loop.
  - intros self. apply keeps_merge_loop.
Qed.


(** What the three calls leave on a new object, for a table with two keys or
    more. *)
Lemma build_codes_fresh ident (frequency : dict (list N) Z) :
  NoDup (dict_keys frequency) -> frequency ≠ [] ->
  exists root,
    built root
    /\ node_leaves root ≡ₚ dict_keys frequency
    /\ build_tree ident frequency init = (Ok tt, set_heap [root] init)
    /\ build_codes ident frequency init
       = (Ok tt, set_codes (leaf_codes root []) init).
Proof.
  intros Hnd Hne.
  destruct (build_tree_spec ident frequency Hnd Hne)
    as (root & Hrun & Hb & Hl & _ & _).
  exists root. split_and!; [done|done|by apply Hrun|].
  rewrite build_codes_build_tree.
  rewrite (method_bind_Ok _ _ _ _ _ (Hrun init eq_refl)).
  unfold make_codes, mbind, method_bind, get_attr, lift, put_heap, put_codes.
  cbn. rewrite fresh_codes; [done|done|]. by rewrite Hl.
Qed.

Lemma leaf_codes_chunks root (msg : pystr) :
  built root ->
  (forall c, c ∈ msg -> [c] ∈ node_leaves root) ->
  exists chunks,
    mapM_outcome (fun ch => dict_getitem [ch] (leaf_codes root [])) msg = Ok chunks.
Proof.
  intros Hb Hmsg. apply mapM_outcome_Ok. intros ch Hch. unfold dict_getitem.
  destruct (dict_get [ch] (leaf_codes root [])) as [q|] eqn:Hq; [by eexists|].
  apply dict_get_None in Hq. exfalso. apply Hq. unfold dict_keys.
  rewrite leaf_codes_keys by done. by apply Hmsg.
Qed.

(** X3: on a new object and any text that is not empty, [compress] returns;
    what it writes is the JSON text of the header, a newline and the payload,
    the bits of the payload are the padded encoded text, the heap is empty
    afterwards and the code table has the characters of the text as keys. *)
Theorem compress_returns_on_nonempty_text ident ext (s : pystr) :
  s ≠ [] ->
  exists encoded_text payload self,
    compress ident ext s init
    = (Ok ((json_dumps (header_json (make_frequency_dict s) ext) ++ [10%N])
           ++ payload), self)
    /\ get_encoded_text s self = (Ok encoded_text, self)
    /\ bit_string_of_bytes payload = pad_encoded_text encoded_text
    /\ heap self = []
    /\ dict_keys (codes self) ≡ₚ dict_keys (make_frequency_dict s).
Proof.
  intros Hs.
  destruct (build_codes_fresh ident (make_frequency_dict s))
    as (root & Hb & Hl & _ & Hrun).
  { apply make_frequency_dict_NoDup. }
  { by rewrite make_frequency_dict_nil. }
  destruct (leaf_codes_chunks root s Hb) as [chunks Hchunks].
  { intros c Hc. rewrite Hl. apply make_frequency_dict_keys. eauto. }
  destruct (get_byte_array_padded (concat chunks)) as (bytes & Hbytes & _ & Hbits).
  exists (concat chunks), bytes, (set_codes (leaf_codes root []) init).
  split_and!.
  - rewrite compress_steps.
    rewrite (method_bind_Ok _ _ _ _ _ Hrun).
    unfold write_artifact.
    erewrite method_bind_Ok; [|apply get_encoded_text_Ok; exact Hchunks].
    unfold mbind, method_bind, lift, ret.
    by rewrite Hbytes, utf8_encode_header.
  - by apply get_encoded_text_Ok.
  - done.
  - done.
  - cbn. unfold dict_keys. by rewrite leaf_codes_keys.
Qed.

Lemma compress_returns_on_nonempty_text_witness :
  abracadabra ≠ []
  /\ exists encoded_text payload self,
       compress no_identity dot_txt abracadabra init
       = (Ok ((json_dumps (header_json (make_frequency_dict abracadabra) dot_txt)
               ++ [10%N]) ++ payload), self)
       /\ get_encoded_text abracadabra self = (Ok encoded_text, self)
       /\ bit_string_of_bytes payload = pad_encoded_text encoded_text
       /\ heap self = []
       /\ dict_keys (codes self) ≡ₚ dict_keys (make_frequency_dict abracadabra).
Proof.
  assert (abracadabra ≠ []) as H by discriminate.
  split; [exact H|].
  exact (compress_returns_on_nonempty_text no_identity dot_txt abracadabra H).
Defined.

(** X6: for the codes built from a frequency table with two distinct keys or
    more, and every message over the characters of the table (whatever the
    weights), [get_encoded_text] returns a bit-string that
    [decode_text_tree] decodes, with the tree of [build_decode_tree], to the
    message. *)
Theorem decode_inverts_encode ident (frequency : dict (list N) Z) (msg : pystr) :
  NoDup (dict_keys frequency) -> 2 <= length frequency ->
  (forall c, c ∈ msg -> [c] ∈ dict_keys frequency) ->
  exists self encoded_text tree,
    build_codes ident frequency init = (Ok tt, self)
    /\ get_encoded_text msg self = (Ok encoded_text, self)
    /\ build_decode_tree self = (Ok tree, self)
    /\ decode_text_tree encoded_text tree = Ok msg.
Proof.
  intros Hnd Htwo Hmsg.
  assert (frequency ≠ []) as Hne by (intros ->; simpl in Htwo; lia).
  destruct (build_codes_fresh ident frequency Hnd Hne)
    as (root & Hb & Hl & _ & Hrun).
  destruct (leaf_codes_chunks root msg Hb) as [chunks Hchunks].
  { intros c Hc. rewrite Hl. by apply Hmsg. }
  pose proof (built_root_merged root _ Hb Hl
                ltac:(unfold dict_keys; by rewrite length_fmap)) as Hmerged.
  exists (set_codes (leaf_codes root []) init), (concat chunks), (mirror root).
  split_and!; [done|by apply get_encoded_text_Ok| |].
  - unfold build_decode_tree, mbind, method_bind, get_attr, ret. cbn [fst snd].
    change (codes (set_codes ?c init)) with c.
    fold (add_all (leaf_codes root []) dnode_empty).
    by rewrite add_all_mirror.
  - unfold decode_text_tree.
    rewrite (decode_message root _ Hb Hmerged eq_refl msg chunks [] Hchunks).
    simpl. by rewrite concat_singletons.
Qed.

Lemma decode_inverts_encode_witness :
  NoDup (dict_keys (make_frequency_dict abracadabra))
  /\ 2 <= length (make_frequency_dict abracadabra)
  /\ (forall c, c ∈ [100; 97; 98]%N -> [c] ∈ dict_keys (make_frequency_dict abracadabra))
  /\ exists self encoded_text tree,
       build_codes no_identity (make_frequency_dict abracadabra) init = (Ok tt, self)
       /\ get_encoded_text [100; 97; 98]%N self = (Ok encoded_text, self)
       /\ build_decode_tree self = (Ok tree, self)
       /\ decode_text_tree encoded_text tree = Ok [100; 97; 98]%N.
Proof.
  assert (NoDup (dict_keys (make_frequency_dict abracadabra))) as H1
    by (apply (bool_decide_unpack _); vm_compute; exact I).
  assert (2 <= length (make_frequency_dict abracadabra)) as H2
    by (vm_compute; lia).
  assert (forall c, c ∈ [100; 97; 98]%N
            -> [c] ∈ dict_keys (make_frequency_dict abracadabra)) as H3.
  { apply Forall_forall. apply (bool_decide_unpack _). vm_compute. exact I. }
  split; [exact H1|]. split; [exact H2|]. split; [exact H3|].
  exact (decode_inverts_encode no_identity _ _ H1 H2 H3).
Defined.

(** X7: on a new object [make_codes] stores the code of every leaf of the
    tree that [make_heap] and [merge_nodes] leave, in the order of the
    leaves, and [build_decode_tree] returns nested dictionaries of the shape
    of that tree, with the character of each leaf. *)
Theorem decode_tree_mirrors_the_tree ident (frequency : dict (list N) Z) :
  NoDup (dict_keys frequency) -> frequency ≠ [] ->
  exists root self,
    build_tree ident frequency init = (Ok tt, set_heap [root] init)
    /\ build_codes ident frequency init = (Ok tt, self)
    /\ codes self = leaf_codes root []
    /\ build_decode_tree self = (Ok (mirror root), self).
Proof.
  intros Hnd Hne.
  destruct (build_codes_fresh ident frequency Hnd Hne)
    as (root & Hb & Hl & Htree & Hrun).
  exists root, (set_codes (leaf_codes root []) init).
  split_and!; [done..|].
  unfold build_decode_tree, mbind, method_bind, get_attr, ret. cbn [fst snd].
  change (codes (set_codes ?c init)) with c.
  fold (add_all (leaf_codes root []) dnode_empty).
  by rewrite add_all_mirror.
Qed.

Lemma decode_tree_mirrors_the_tree_witness :
  NoDup (dict_keys (make_frequency_dict abracadabra))
  /\ make_frequency_dict abracadabra ≠ []
  /\ exists root self,
       build_tree no_identity (make_frequency_dict abracadabra) init
       = (Ok tt, set_heap [root] init)
       /\ build_codes no_identity (make_frequency_dict abracadabra) init = (Ok tt, self)
       /\ codes self = leaf_codes root []
       /\ build_decode_tree self = (Ok (mirror root), self).
Proof.
  assert (NoDup (dict_keys (make_frequency_dict abracadabra))) as H1
    by (apply (bool_decide_unpack _); vm_compute; exact I).
  assert (make_frequency_dict abracadabra ≠ []) as H2
    by (vm_compute; discriminate).
  split; [exact H1|]. split; [exact H2|].
  exact (decode_tree_mirrors_the_tree no_identity _ H1 H2).
Defined.

(** X8: when the frequency table has two distinct keys or more, every code
    of the code table built on a new object has one bit or more. *)
Theorem codes_have_a_bit_for_two_symbols ident (frequency : dict (list N) Z) :
  NoDup (dict_keys frequency) -> 2 <= length frequency ->
  exists self,
    build_codes ident frequency init = (Ok tt, self)
    /\ forall x cx, dict_get x (codes self) = Some cx -> cx ≠ [].
Proof.
  intros Hnd Htwo.
  assert (frequency ≠ []) as Hne by (intros ->; simpl in Htwo; lia).
  destruct (build_codes_fresh ident frequency Hnd Hne)
    as (root & Hb & Hl & _ & Hrun).
  pose proof (built_root_merged root _ Hb Hl
                ltac:(unfold dict_keys; by rewrite length_fmap)) as Hmerged.
  eexists. split; [done|].
  intros x cx Hx%dict_get_Some_elem. cbn in Hx.
  destruct Hb as [i c f|i f l r Hbl Hbr]; [done|].
  cbn [leaf_codes] in Hx.
  apply elem_of_app in Hx as [Hx|Hx].
  - pose proof (leaf_codes_prefix l Hbl ([] ++ [false])) as Hp.
    rewrite Forall_forall in Hp. destruct (Hp _ Hx) as [k Hk].
    simpl in Hk. by rewrite Hk.
  - pose proof (leaf_codes_prefix r Hbr ([] ++ [true])) as Hp.
    rewrite Forall_forall in Hp. destruct (Hp _ Hx) as [k Hk].
    simpl in Hk. by rewrite Hk.
Qed.

Lemma codes_have_a_bit_for_two_symbols_witness :
  NoDup (dict_keys (make_frequency_dict abracadabra))
  /\ 2 <= length (make_frequency_dict abracadabra)
  /\ exists self,
       build_codes no_identity (make_frequency_dict abracadabra) init = (Ok tt, self)
       /\ forall x cx, dict_get x (codes self) = Some cx -> cx ≠ [].
Proof.
  assert (NoDup (dict_keys (make_frequency_dict abracadabra))) as H1
    by (apply (bool_decide_unpack _); vm_compute; exact I).
  assert (2 <= length (make_frequency_dict abracadabra)) as H2
    by (vm_compute; lia).
  split; [exact H1|]. split; [exact H2|].
  exact (codes_have_a_bit_for_two_symbols no_identity _ H1 H2).
Defined.



(** X27: [compress] and [decompress] leave the attribute [reverse_mapping]
    as it is, on every object and every input. *)
Theorem reverse_mapping_is_never_written ident ext (s : pystr) (file : list N) self :
  reverse_mapping (compress ident ext s self).2 = reverse_mapping self
  /\ reverse_mapping (decompress ident file self).2 = reverse_mapping self.
Proof.
  split.
  - rewrite compress_steps. revert self.
    apply keeps_bind; [apply keeps_build_codes|]. intros _ self.
    by rewrite write_artifact_state.
  - rewrite decompress_steps. revert self.
    apply keeps_bind; [apply keeps_lift|]. intros [[frequency ext'] payload].
    apply keeps_bind; [apply keeps_build_codes|]. intros _ self.
    by rewrite read_payload_state.
Qed.


(** X2: for every text that repeats one character, one time or more,
    [compress] returns an artifact and [decompress] decodes it to the empty
    text: the only code is the empty string, so the payload holds no bit of
    the text. *)
Theorem single_symbol_text_decodes_to_empty ident ident' ext (c : codepoint) (n : nat) :
  text_char c -> text ext ->
  exists artifact self,
    compress ident ext (replicate (S n) c) init = (Ok artifact, self)
    /\ (decompress ident' artifact init).1 = Ok ([], JStr ext).
Proof.
  intros Hc Hext.
  pose proof (make_frequency_dict_single c n) as Hfreq.
  pose proof (utf8_encode_header [([c], Z.of_nat (S n))] ext) as Hutf.
  assert (read_artifact_header
            ((json_dumps (header_json [([c], Z.of_nat (S n))] ext) ++ [10%N])
             ++ [8; 0]%N)
          = Ok ([([c], Z.of_nat (S n))], JStr ext, [8; 0]%N)) as Hread.
  { apply read_artifact_header_written; [|apply NoDup_singleton|done].
    apply Forall_singleton. by apply Forall_singleton. }
  eexists _, _. split.
  - rewrite compress_steps, Hfreq.
    rewrite (method_bind_Ok _ _ _ _ _ (build_codes_single ident [c] _)).
    unfold write_artifact.
    erewrite method_bind_Ok;
      [|apply get_encoded_text_Ok; cbn [codes]; apply single_code_chunks].
    rewrite concat_replicate_nil.
    unfold mbind, method_bind, lift, ret. rewrite Hutf.
    change (get_byte_array (pad_encoded_text [])) with (Ok [8; 0]%N).
    reflexivity.
  - rewrite decompress_steps.
    unfold mbind at 1, method_bind, lift. rewrite Hread.
    rewrite (method_bind_Ok _ _ _ _ _ (build_codes_single ident' [c] _)).
    reflexivity.
Qed.

Lemma single_symbol_text_decodes_to_empty_witness :
  text_char 97%N /\ text dot_txt
  /\ exists artifact self,
       compress no_identity dot_txt (replicate 4 97%N) init = (Ok artifact, self)
       /\ (decompress no_identity artifact init).1 = Ok ([], JStr dot_txt).
Proof.
  assert (text_char 97%N) as H1
    by (apply (bool_decide_unpack _); vm_compute; exact I).
  assert (text dot_txt) as H2
    by (apply (bool_decide_unpack _); vm_compute; exact I).
  split; [exact H1|]. split; [exact H2|].
  exact (single_symbol_text_decodes_to_empty no_identity no_identity dot_txt
           97%N 3 H1 H2).
Defined.

(** X25: on a file that ends after the newline of a header for a table that
    is not empty, [decompress] raises [ValueError], from [remove_padding] on
    the empty bit-string. *)
Theorem decompress_empty_payload_raises_ValueError ident
    (frequency : dict (list N) Z) ext :
  Forall (fun item => text item.1) frequency ->
  NoDup (dict_keys frequency) -> text ext -> frequency ≠ [] ->
  (decompress ident (json_dumps (header_json frequency ext) ++ [10%N]) init).1
  = Raise ValueError.
Proof.
  intros Ht Hnd Hext Hne.
  pose proof (read_artifact_header_written frequency ext [] Ht Hnd Hext) as Hread.
  rewrite app_nil_r in Hread.
  destruct (build_codes_spec ident frequency Hne) as (root & _ & _ & Hrun).
  rewrite decompress_steps.
  unfold mbind at 1, method_bind, lift. rewrite Hread.
  by rewrite (method_bind_Ok _ _ _ _ _ (Hrun init eq_refl)).
Qed.

Lemma decompress_empty_payload_raises_ValueError_witness :
  Forall (fun item : list N * Z => text item.1) (make_frequency_dict abracadabra)
  /\ NoDup (dict_keys (make_frequency_dict abracadabra))
  /\ text dot_txt
  /\ make_frequency_dict abracadabra ≠ []
  /\ (decompress no_identity
        (json_dumps (header_json (make_frequency_dict abracadabra) dot_txt)
         ++ [10%N]) init).1
     = Raise ValueError.
Proof.
  assert (Forall (fun item : list N * Z => text item.1)
            (make_frequency_dict abracadabra)) as H1
    by (apply (bool_decide_unpack _); vm_compute; exact I).
  assert (NoDup (dict_keys (make_frequency_dict abracadabra))) as H2
    by (apply (bool_decide_unpack _); vm_compute; exact I).
  assert (text dot_txt) as H3
    by (apply (bool_decide_unpack _); vm_compute; exact I).
  assert (make_frequency_dict abracadabra ≠ []) as H4
    by (vm_compute; discriminate).
  split; [exact H1|]. split; [exact H2|]. split; [exact H3|]. split; [exact H4|].
  exact (decompress_empty_payload_raises_ValueError no_identity _ _ H1 H2 H3 H4).
Defined.

(** X29: whatever the characters of the text and of the extension, the JSON
    text of the header consists of printable ASCII characters, so it has no
    newline and its UTF-8 encoding is the text itself. *)
Theorem header_line_is_printable_ascii (frequency : dict (list N) Z) ext :
  Forall printable (json_dumps (header_json frequency ext))
  /\ (10%N ∉ json_dumps (header_json frequency ext))
  /\ utf8_encode (json_dumps (header_json frequency ext) ++ [10%N])
     = Ok (json_dumps (header_json frequency ext) ++ [10%N]).
Proof.
  pose proof (header_printable frequency ext) as Hp.
  split_and!; [done|by apply printable_not_newline|apply utf8_encode_header].
Qed.

Lemma mirror_chr n : built n -> dnode_chr (mirror n) = char n.
Proof. by intros [i c f|i f l r Hl Hr]. Qed.

Lemma mirror_child i f l r (bit : bool) :
  dnode_child (mirror (mkHeapNode i None f (Some l) (Some r))) bit
  = Some (mirror (if bit then r else l)).
Proof. by destruct bit. Qed.

(** In the decode tree of a tree with two leaves or more, every bit has a
    branch. *)
Lemma decode_loop_total root :
  built root -> char root = None ->
  forall bits n acc,
    built n -> char n = None ->
    exists decoded,
      decode_loop (mirror root) bits (mirror n) acc = Ok decoded.
Proof.
  intros Hroot Hc.
  induction bits as [|bit bits IH]; intros n acc Hn Hcn; [by eexists|].
  destruct Hn as [i c f|i f l r Hl Hr]; [done|].
  cbn [decode_loop]. rewrite mirror_child.
  set (child := if bit then r else l).
  assert (built child) as Hchild by (by destruct bit).
  rewrite (mirror_chr child Hchild).
  destruct (char child) as [ch|] eqn:Hch.
  - by apply IH.
  - by apply IH.
Qed.



(** X5: with the decode tree built from the codes of a frequency table with
    two distinct keys or more, [decode_text_tree] returns a text for every
    bit-string; the lookup [node[bit]] never fails there. *)
Theorem decode_text_tree_accepts_every_bit_string ident
    (frequency : dict (list N) Z) (encoded_text : bitstring) :
  NoDup (dict_keys frequency) -> 2 <= length frequency ->
  exists self tree decoded,
    build_codes ident frequency init = (Ok tt, self)
    /\ build_decode_tree self = (Ok tree, self)
    /\ decode_text_tree encoded_text tree = Ok decoded.
Proof.
  intros Hnd Htwo.
  assert (frequency ≠ []) as Hne by (intros ->; simpl in Htwo; lia).
  destruct (build_codes_fresh ident frequency Hnd Hne)
    as (root & Hb & Hl & _ & Hrun).
  pose proof (built_root_merged root _ Hb Hl
                ltac:(unfold dict_keys; by rewrite length_fmap)) as Hmerged.
  destruct (decode_loop_total root Hb Hmerged encoded_text root [] Hb Hmerged)
    as [decoded Hdec].
  exists (set_codes (leaf_codes root []) init), (mirror root), (concat decoded).
  split_and!; [done| |].
  - unfold build_decode_tree, mbind, method_bind, get_attr, ret. cbn [fst snd].
    change (codes (set_codes ?c init)) with c.
    fold (add_all (leaf_codes root []) dnode_empty).
    by rewrite add_all_mirror.
  - unfold decode_text_tree. by rewrite Hdec.
Qed.

Lemma decode_text_tree_accepts_every_bit_string_witness :
  NoDup (dict_keys (make_frequency_dict abracadabra))
  /\ 2 <= length (make_frequency_dict abracadabra)
  /\ exists self tree decoded,
       build_codes no_identity (make_frequency_dict abracadabra) init = (Ok tt, self)
       /\ build_decode_tree self = (Ok tree, self)
       /\ decode_text_tree [true; true; false; true] tree = Ok decoded.
Proof.
  assert (NoDup (dict_keys (make_frequency_dict abracadabra))) as H1
    by (apply (bool_decide_unpack _); vm_compute; exact I).
  assert (2 <= length (make_frequency_dict abracadabra)) as H2
    by (vm_compute; lia).
  split; [exact H1|]. split; [exact H2|].
  exact (decode_text_tree_accepts_every_bit_string no_identity _
           [true; true; false; true] H1 H2).
Defined.



(** X1: for a text with two distinct characters or more (code points of
    Unicode without high surrogates, as is the extension), [compress] on a
    new object returns an artifact, and [decompress] on a new object decodes
    that artifact to the same text and extension. *)
Theorem roundtrip_two_symbols_or_more ident ident' ext (s : list N) :
  text s -> text ext ->
  2 <= length (make_frequency_dict s) ->
  exists artifact self,
    compress ident ext s init = (Ok artifact, self)
    /\ (decompress ident' artifact init).1 = Ok (s, JStr ext).
Proof.
  intros Hs Hext Htwo.
  pose proof (make_frequency_dict_NoDup s) as Hnd.
  pose proof (make_frequency_dict_text s Hs) as Hkeys.
  pose proof (make_frequency_dict_keys s) as Hchars.
  rewrite compress_steps.
  remember (make_frequency_dict s) as frequency eqn:Hfreq.
  assert (frequency ≠ []) as Hne by (intros ->; simpl in Htwo; lia).
  (* the codes on both sides *)
  destruct (build_codes_spec ident frequency Hne) as (root & Hb & Hl & Hrun).
  destruct (build_codes_spec ident' frequency Hne) as (root' & Hb' & Hl' & Hrun').
  assert (make_codes_helper root [] [] = leaf_codes root' []) as Hcodes.
  { pose proof (build_codes_commutes ident frequency init) as E.
    rewrite (build_codes_commutes ident' frequency init) in E.
    apply (f_equal (fun r => codes r.2)) in E. cbn [snd] in E.
    change (codes (erase_self ?x)) with (codes x) in E.
    rewrite (Hrun init), (Hrun' init) in E by done. simpl in E. symmetry in E.
    rewrite E. apply fresh_codes; [done|]. by rewrite Hl'. }
  pose proof (built_root_merged root' _ Hb' Hl' ltac:(unfold dict_keys; by rewrite length_fmap))
    as Hmerged.
  (* compress *)
  destruct (mapM_outcome_Ok (fun ch => dict_getitem [ch] (leaf_codes root' [])) s)
    as [chunks Hchunks].
  { intros ch Hch. unfold dict_getitem.
    destruct (dict_get [ch] (leaf_codes root' [])) as [q|] eqn:Hq; [by eexists|].
    apply dict_get_None in Hq. exfalso. apply Hq. unfold dict_keys.
    rewrite leaf_codes_keys, Hl' by done.
    apply Hchars. eauto. }
  destruct (get_byte_array_padded (concat chunks)) as (bytes & Hbytes & _ & Hbits).
  pose proof (utf8_encode_header frequency ext) as Hutf.
  pose proof (read_artifact_header_written frequency ext bytes Hkeys Hnd Hext)
    as Hread.
  eexists _, _. split.
  - rewrite (method_bind_Ok _ _ _ _ _ (Hrun init eq_refl)).
    unfold write_artifact.
    erewrite method_bind_Ok;
      [|apply get_encoded_text_Ok; simpl; rewrite Hcodes; exact Hchunks].
    unfold mbind, method_bind, lift, ret. rewrite Hbytes, Hutf. reflexivity.
  - rewrite decompress_steps.
    unfold mbind at 1, method_bind, lift. rewrite Hread.
    rewrite (method_bind_Ok _ _ _ _ _ (Hrun' init eq_refl)).
    unfold read_payload, build_decode_tree.
    unfold mbind, method_bind, lift, ret, get_attr.
    rewrite Hbits, remove_padding_pad. simpl codes.
    rewrite fresh_codes by (done || by rewrite Hl').
    fold (add_all (leaf_codes root' []) dnode_empty).
    rewrite add_all_mirror by done.
    unfold decode_text_tree.
    rewrite (decode_message root' _ Hb' Hmerged eq_refl s chunks [] Hchunks).
    simpl. by rewrite concat_singletons.
Qed.

Lemma roundtrip_two_symbols_or_more_witness :
  text abracadabra /\ text dot_txt
  /\ 2 <= length (make_frequency_dict abracadabra)
  /\ exists artifact self,
       compress no_identity dot_txt abracadabra init = (Ok artifact, self)
       /\ (decompress no_identity artifact init).1 = Ok (abracadabra, JStr dot_txt).
Proof.
  assert (text abracadabra) as H1
    by (apply (bool_decide_unpack _); vm_compute; exact I).
  assert (text dot_txt) as H2
    by (apply (bool_decide_unpack _); vm_compute; exact I).
  assert (2 <= length (make_frequency_dict abracadabra)) as H3
    by (vm_compute; lia).
  split; [exact H1|]. split; [exact H2|]. split; [exact H3|].
  exact (roundtrip_two_symbols_or_more no_identity no_identity dot_txt abracadabra H1 H2 H3).
Defined.

Lemma parent_spec j :
  0 < j -> 2 * ((j - 1) / 2) + 1 = j \/ 2 * ((j - 1) / 2) + 2 = j.
Proof.
  intros Hj. pose proof (Nat.div_mod_eq (j - 1) 2) as H1.
  pose proof (Nat.mod_upper_bound (j - 1) 2) as H2. lia.
Qed.

Lemma lookup_insert_inv {A} (h : list A) i v j y :
  <[i:=v]> h !! j = Some y -> (j = i /\ y = v) \/ (j ≠ i /\ h !! j = Some y).
Proof.
  intros [(-> & -> & _)|[Hne Hj]]%list_lookup_insert_Some; [by left|right].
  split; [congruence|done].
Qed.

Section heap_order_facts.
Context {A : Type} (key : A -> Z) (lt : A -> A -> bool).
Hypothesis lt_key : forall a b, lt a b = (key a <? key b)%Z.
Implicit Types heap : list A.

Lemma heap_ok_min heap x :
heap_ok key heap -> heap !! 0 = Some x ->
forall j y, heap !! j = Some y -> (key x <= key y)%Z.
Proof.
intros Hok Hx j. induction (lt_wf j) as [j _ IH]. intros y Hy.
destruct (decide (j = 0)) as [->|Hj]; [by simplify_eq|].
pose proof (parent_spec j ltac:(lia)) as Hp.
destruct (lookup_lt_is_Some_2 heap ((j - 1) / 2)) as [p Hpar].
{ apply lookup_lt_Some in Hy. lia. }
specialize (IH ((j - 1) / 2) ltac:(lia) p Hpar).
specialize (Hok j ltac:(lia) p y Hpar Hy). lia.
Qed.

(** Putting [x] at [pos] gives a heap, when the rest is in order, [x] is
  not above the children of [pos] and not below its parent. *)
Lemma place_ok heap pos x :
(forall j, 0 < j -> j ≠ pos -> le_at key heap ((j - 1) / 2) j) ->
(forall j y, 0 < j -> (j - 1) / 2 = pos -> heap !! j = Some y ->
   (key x <= key y)%Z) ->
(0 < pos -> forall p, heap !! ((pos - 1) / 2) = Some p -> (key p <= key x)%Z) ->
heap_ok key (<[pos:=x]> heap).
Proof.
intros I1 I2 I0 j Hj a b Ha Hb.
pose proof (parent_spec j Hj) as Hp.
apply lookup_insert_inv in Ha as [[Hpar ->]|[Hpne Ha]];
  apply lookup_insert_inv in Hb as [[-> ->]|[Hjne Hb]].
- lia.
- by eapply I2.
- by eapply I0.
- by eapply I1.
Qed.

Lemma siftdown_loop_heap fuel : forall heap x pos,
pos <= fuel -> pos < length heap ->
(forall j, 0 < j -> j ≠ pos -> le_at key heap ((j - 1) / 2) j) ->
(forall j y, 0 < j -> (j - 1) / 2 = pos -> heap !! j = Some y ->
   (key x <= key y)%Z) ->
(forall j, 0 < j -> (j - 1) / 2 = pos -> 0 < pos ->
   le_at key heap ((pos - 1) / 2) j) ->
exists heap', siftdown_loop lt fuel heap x 0 pos = Ok heap' /\ heap_ok key heap'.
Proof.
induction fuel as [|fuel IH]; intros heap x pos Hfuel Hpos I1 I2 I3;
  rewrite ?siftdown_loop_0, ?siftdown_loop_S;
  (destruct (decide (0 < pos)) as [Hlt|Hge];
   [|rewrite setitem_Ok by done; eexists; split; [done|];
     apply place_ok; [done|done|lia]]); [lia|].
pose proof (parent_spec pos Hlt) as Hpp.
destruct (lookup_lt_is_Some_2 heap ((pos - 1) / 2)) as [parent Hp]; [lia|].
rewrite (getitem_Ok _ _ _ Hp), bind_Ok, lt_key.
destruct (Z.ltb_spec (key x) (key parent)) as [Hxp|Hxp].
- rewrite setitem_Ok, bind_Ok by done.
  apply IH; [lia|rewrite length_insert; lia|..].
  + intros j Hj Hjp a b Ha Hb.
    pose proof (parent_spec j Hj) as Hpj.
    apply lookup_insert_inv in Ha as [[Hpar ->]|[Hpne Ha]];
      apply lookup_insert_inv in Hb as [[-> ->]|[Hjne Hb]].
    * lia.
    * by apply (I3 j Hj Hpar Hlt parent b).
    * simplify_eq. lia.
    * by apply (I1 j Hj Hjne a b).
  + intros j y Hj Hpar Hy.
    apply lookup_insert_inv in Hy as [[-> ->]|[Hjne Hy]]; [lia|].
    rewrite <- Hpar in Hp. pose proof (I1 j Hj Hjne parent y Hp Hy). lia.
  + intros j Hj Hpar Hpos0 a b Ha Hb.
    pose proof (parent_spec _ Hpos0) as Hpg.
    apply lookup_insert_inv in Ha as [[Hg _]|[_ Ha]]; [lia|].
    assert (key a <= key parent)%Z as Hap.
    { apply (I1 ((pos - 1) / 2) Hpos0 ltac:(lia) a parent Ha Hp). }
    apply lookup_insert_inv in Hb as [[-> ->]|[Hjne Hb]]; [done|].
    rewrite <- Hpar in Hp. pose proof (I1 j Hj Hjne parent b Hp Hb). lia.
- rewrite setitem_Ok by done. eexists. split; [done|].
  apply place_ok; [done|done|].
  intros _ p Hp'. simplify_eq. lia.
Qed.

Lemma siftup_loop_heap fuel : forall heap pos,
length heap <= fuel + pos -> pos < length heap ->
(forall j, 0 < j -> j ≠ pos -> (j - 1) / 2 ≠ pos ->
   le_at key heap ((j - 1) / 2) j) ->
(0 < pos -> forall j, 0 < j -> (j - 1) / 2 = pos ->
   le_at key heap ((pos - 1) / 2) j) ->
exists heap' pos',
  siftup_loop lt fuel heap (length heap) pos = Ok (heap', pos')
  /\ pos' < length heap
  /\ length heap' = length heap
  /\ length heap <= 2 * pos' + 1
  /\ forall j, 0 < j -> j ≠ pos' -> le_at key heap' ((j - 1) / 2) j.
Proof.
induction fuel as [|fuel IH]; intros heap pos Hfuel Hpos J1 J2;
  rewrite ?siftup_loop_0, ?siftup_loop_S;
  (destruct (decide (2 * pos + 1 < length heap)) as [Hc|Hc];
   [|exists heap, pos; split_and!; [done|done|done|lia|];
     intros j Hj Hjp a b Ha Hb;
     destruct (decide ((j - 1) / 2 = pos)) as [Hpar|Hpar];
     [pose proof (parent_spec j Hj); apply lookup_lt_Some in Hb; lia
     |by apply (J1 j Hj Hjp Hpar a b)]]); [lia|].
set (childpos := 2 * pos + 1) in *.
assert (exists c child, c < length heap /\ (c - 1) / 2 = pos /\ 0 < c
  /\ heap !! c = Some child
  /\ (forall j y, 0 < j -> (j - 1) / 2 = pos -> heap !! j = Some y ->
        (key child <= key y)%Z)
  /\ (if decide (childpos + 1 < length heap)
      then l ← getitem heap childpos; r ← getitem heap (childpos + 1);
           Ok (if negb (lt l r) then childpos + 1 else childpos)
      else Ok childpos) = Ok c) as (c & child & Hc1 & Hc2 & Hc3 & Hchild & Hmin & ->).
{ destruct (lookup_lt_is_Some_2 heap childpos) as [l Hl]; [lia|].
  destruct (decide (childpos + 1 < length heap)) as [Hr|Hr].
  - destruct (lookup_lt_is_Some_2 heap (childpos + 1)) as [r Hr']; [lia|].
    rewrite (getitem_Ok _ _ _ Hl), bind_Ok, (getitem_Ok _ _ _ Hr'), bind_Ok.
    rewrite lt_key.
    destruct (Z.ltb_spec (key l) (key r)) as [Hlr|Hlr]; cbn [negb].
    + exists childpos, l. split_and!; [lia| |lia|done| |done].
      * unfold childpos. replace (2 * pos + 1 - 1) with (pos * 2) by lia.
        apply Nat.div_mul. lia.
      * intros j y Hj Hpar Hy. pose proof (parent_spec j Hj).
        destruct (decide (j = childpos)) as [->|Hne]; [simplify_eq; lia|].
        replace j with (childpos + 1) in Hy by lia. simplify_eq. lia.
    + exists (childpos + 1), r. split_and!; [lia| |lia|done| |done].
      * unfold childpos. replace (2 * pos + 1 + 1 - 1) with (1 + pos * 2) by lia.
        rewrite Nat.div_add by lia. reflexivity.
      * intros j y Hj Hpar Hy. pose proof (parent_spec j Hj).
        destruct (decide (j = childpos)) as [->|Hne]; [simplify_eq; lia|].
        replace j with (childpos + 1) in Hy by lia. simplify_eq. lia.
  - exists childpos, l. split_and!; [lia| |lia|done| |done].
    + unfold childpos. replace (2 * pos + 1 - 1) with (pos * 2) by lia.
      apply Nat.div_mul. lia.
    + intros j y Hj Hpar Hy. pose proof (parent_spec j Hj).
      apply lookup_lt_Some in Hy as Hjl.
      replace j with childpos in Hy by lia. simplify_eq. lia. }
rewrite bind_Ok.
rewrite (getitem_Ok _ _ _ Hchild), bind_Ok, setitem_Ok, bind_Ok by done.
pose proof (parent_spec c Hc3) as Hpc.
destruct (IH (<[pos:=child]> heap) c)
  as (heap' & pos' & Hrun & Hp & Hl & Hleaf & Hord).
{ rewrite length_insert. lia. }
{ rewrite length_insert. lia. }
{ intros j Hj Hjc Hparc a b Ha Hb.
  pose proof (parent_spec j Hj) as Hpj.
  apply lookup_insert_inv in Ha as [[Hpar ->]|[Hpne Ha]];
    apply lookup_insert_inv in Hb as [[-> ->]|[Hjne Hb]].
  - lia.
  - by apply (Hmin j b).
  - apply (J2 Hj c Hc3 Hc2 a child Ha Hchild).
  - by apply (J1 j Hj Hjne Hpne a b). }
{ intros _ j Hj Hpar a b Ha Hb.
  pose proof (parent_spec j Hj) as Hpj.
  rewrite Hc2 in Ha.
  apply lookup_insert_inv in Ha as [[_ ->]|[Hne _]]; [|done].
  apply lookup_insert_inv in Hb as [[-> _]|[Hjne Hb]]; [lia|].
  rewrite <- Hpar in Hchild.
  apply (J1 j Hj Hjne ltac:(lia) child b Hchild Hb). }
rewrite length_insert in Hrun, Hp, Hl, Hleaf. rewrite Hrun.
exists heap', pos'. split_and!; done.
Qed.

Lemma _siftup_heap heap :
0 < length heap ->
(forall j, 0 < j -> (j - 1) / 2 ≠ 0 -> le_at key heap ((j - 1) / 2) j) ->
exists heap', _siftup lt heap 0 = Ok heap' /\ heap_ok key heap'.
Proof.
intros Hpos Hord. unfold _siftup.
destruct (lookup_lt_is_Some_2 heap 0 Hpos) as [newitem Hn].
rewrite (getitem_Ok _ _ _ Hn), bind_Ok.
destruct (siftup_loop_heap (length heap) heap 0)
  as (heap1 & pos1 & -> & Hp & Hl & Hleaf & Hord1); [lia|done| |lia|].
{ intros j Hj _ Hpar. by apply Hord. }
rewrite bind_Ok, setitem_Ok, bind_Ok by lia.
unfold _siftdown.
rewrite (getitem_Ok _ _ newitem), bind_Ok
  by (apply list_lookup_insert_eq; lia).
apply siftdown_loop_heap; [done|rewrite length_insert; lia|..].
- intros j Hj Hjp a b Ha Hb. pose proof (parent_spec j Hj) as Hpj.
  apply lookup_insert_inv in Hb as [[-> _]|[_ Hb]]; [done|].
  apply lookup_lt_Some in Hb as Hjl.
  apply lookup_insert_inv in Ha as [[Hpar _]|[_ Ha]]; [lia|].
  by apply (Hord1 j Hj Hjp a b).
- intros j y Hj Hpar Hy. pose proof (parent_spec j Hj) as Hpj.
  apply lookup_lt_Some in Hy. rewrite length_insert in Hy. lia.
- intros j Hj Hpar _ a b _ Hb. pose proof (parent_spec j Hj) as Hpj.
  apply lookup_lt_Some in Hb. rewrite length_insert in Hb. lia.
Qed.

Lemma heappush_heap heap item :
heap_ok key heap ->
exists heap', heappush lt heap item = Ok heap' /\ heap_ok key heap'.
Proof.
intros Hok. unfold heappush, _siftdown.
rewrite length_app. cbn [length].
replace (length heap + 1 - 1) with (length heap) by lia.
rewrite (getitem_Ok _ _ item), bind_Ok
  by (by rewrite lookup_app_r, Nat.sub_diag).
apply siftdown_loop_heap; [done|rewrite length_app; simpl; lia|..].
- intros j Hj Hjp a b Ha Hb. pose proof (parent_spec j Hj) as Hpj.
  apply lookup_lt_Some in Hb as Hjl. rewrite length_app in Hjl. simpl in Hjl.
  rewrite lookup_app_l in Ha, Hb by lia. by apply (Hok j Hj a b).
- intros j y Hj Hpar Hy. pose proof (parent_spec j Hj) as Hpj.
  apply lookup_lt_Some in Hy. rewrite length_app in Hy. simpl in Hy. lia.
- intros j Hj Hpar _ a b _ Hb. pose proof (parent_spec j Hj) as Hpj.
  apply lookup_lt_Some in Hb. rewrite length_app in Hb. simpl in Hb. lia.
Qed.

Lemma heappop_heap heap :
heap_ok key heap -> heap ≠ [] ->
exists item heap',
  heappop lt heap = Ok (item, heap')
  /\ heap_ok key heap'
  /\ forall y, y ∈ heap -> (key item <= key y)%Z.
Proof.
intros Hok Hne. destruct (exists_last Hne) as (h & lastelt & ->).
unfold heappop. rewrite list_pop_snoc, bind_Ok.
destruct h as [|returnitem h].
- exists lastelt, []. split_and!; [done| |].
  + intros j Hj a b Ha. done.
  + intros y ->%list_elem_of_singleton. lia.
- change (getitem (returnitem :: h) 0) with (Ok (A:=A) returnitem).
  rewrite bind_Ok, setitem_Ok, bind_Ok by (simpl; lia).
  simpl insert.
  destruct (_siftup_heap (lastelt :: h)) as (heap' & -> & Hok');
    [simpl; lia| |].
  { intros j Hj Hpar a b Ha Hb. pose proof (parent_spec j Hj) as Hpj.
    destruct j as [|j]; [lia|].
    destruct ((S j - 1) / 2) as [|p] eqn:Ep; [done|].
    apply (Hok (S j) Hj a b).
    - rewrite Ep. cbn [lookup list_lookup] in *.
      by apply lookup_app_l_Some.
    - cbn [lookup list_lookup] in *. by apply lookup_app_l_Some. }
  exists returnitem, heap'. split_and!; [done..|].
  intros y [j Hy]%list_elem_of_lookup.
  by apply (heap_ok_min _ returnitem Hok eq_refl j y).
Qed.
End heap_order_facts.

Lemma HeapNode_lt_freq a b : HeapNode_lt a b = (freq a <? freq b)%Z.
Proof. reflexivity. Qed.

Lemma merged_greedily_Permutation h h' root :
  h ≡ₚ h' -> merged_greedily h root -> merged_greedily h' root.
Proof.
  intros Hp Hm. destruct Hm as [root|h node1 node2 rest i root Hh H12 Hrest Hm].
  - apply Permutation_singleton_l in Hp as <-. constructor.
  - eapply greedy_step; [|done..]. by rewrite <- Hp.
Qed.

Lemma make_heap_loop_ordered ident frequency : forall keys i h0,
  (forall key, key ∈ keys -> is_Some (dict_get key frequency)) ->
  heap_ok freq h0 ->
  exists h,
    (forall self, heap self = h0 ->
       make_heap_loop ident i frequency keys self = (Ok tt, set_heap h self))
    /\ h ≡ₚ h0 ++ leaf_nodes ident i frequency keys
    /\ heap_ok freq h.
Proof.
  induction keys as [|key keys IH]; intros i h0 Hk Hok.
  - exists h0. rewrite app_nil_r. split_and!; [|done..].
    intros [] <-. reflexivity.
  - destruct (Hk key) as [f Hf]; [left|].
    destruct (heappush_spec HeapNode_lt h0
                (mkHeapNode (ident i) (Some key) f None None))
      as (h1 & Hpush & Hperm).
    destruct (heappush_heap freq HeapNode_lt HeapNode_lt_freq h0
                (mkHeapNode (ident i) (Some key) f None None) Hok)
      as (h1' & Hpush' & Hok1).
    assert (h1' = h1) as -> by congruence.
    destruct (IH (S i) h1) as (h & Hrun & Hl & Hokh); [|done|].
    { intros k' Hk'. apply Hk. by right. }
    exists h. split_and!; [| |done].
    + intros self <-. cbn [make_heap_loop].
      unfold mbind at 1, method_bind, lift.
      unfold dict_getitem. rewrite Hf.
      unfold mbind at 1, method_bind, get_attr.
      unfold mbind at 1, method_bind. rewrite Hpush.
      unfold mbind at 1, method_bind, put_heap.
      rewrite (Hrun (set_heap h1 self)) by done. by destruct self.
    + rewrite Hl, Hperm. cbn [leaf_nodes]. rewrite Hf. cbn [default from_option id].
      by rewrite <- Permutation_middle.
Qed.

Lemma merge_loop_greedy ident : forall fuel i h0,
  length h0 <= S fuel -> h0 ≠ [] -> heap_ok freq h0 ->
  exists root,
    (forall self, heap self = h0 ->
       merge_loop fuel ident i self = (Ok tt, set_heap [root] self))
    /\ merged_greedily h0 root.
Proof.
  induction fuel as [|fuel IH]; intros i h0 Hfuel Hne Hok;
    (destruct (decide (1 < length h0)) as [Hlen|Hlen];
     [|destruct h0 as [|root [|? ?]]; [done| |simpl in Hlen; lia];
       exists root; split; [|apply greedy_done];
       intros [h c r] [= ->]; destruct fuel || idtac; reflexivity]); [lia|].
  destruct (heappop_spec HeapNode_lt h0 Hne) as (node1 & h1 & Hpop1 & Hp1).
  destruct (heappop_heap freq HeapNode_lt HeapNode_lt_freq h0 Hok Hne)
    as (node1' & h1' & Hpop1' & Hok1 & Hmin1).
  assert (node1' = node1 /\ h1' = h1) as [-> ->]
    by (split; congruence).
  assert (h1 ≠ []) as Hne1.
  { intros ->. apply Permutation_length in Hp1. simpl in Hp1. lia. }
  destruct (heappop_spec HeapNode_lt h1 Hne1) as (node2 & h2 & Hpop2 & Hp2).
  destruct (heappop_heap freq HeapNode_lt HeapNode_lt_freq h1 Hok1 Hne1)
    as (node2' & h2' & Hpop2' & Hok2 & Hmin2).
  assert (node2' = node2 /\ h2' = h2) as [-> ->]
    by (split; congruence).
  set (merged := mkHeapNode (ident i) None (freq node1 + freq node2)
                   (Some node1) (Some node2)).
  destruct (heappush_spec HeapNode_lt h2 merged) as (h3 & Hpush & Hp3).
  destruct (heappush_heap freq HeapNode_lt HeapNode_lt_freq h2 merged Hok2)
    as (h3' & Hpush' & Hok3).
  assert (h3' = h3) as -> by congruence.
  destruct (IH (S i) h3) as (root & Hrun & Hgreedy); [|
    intros ->; by apply Permutation_nil_cons in Hp3|done|].
  { apply Permutation_length in Hp1, Hp2, Hp3. simpl in *. lia. }
  exists root. split.
  - intros self <-. cbn [merge_loop]. rewrite decide_True by done.
    unfold mbind at 1, method_bind, get_attr.
    unfold mbind at 1, method_bind, lift. rewrite Hpop1.
    unfold mbind at 1, method_bind, put_heap.
    unfold mbind at 1, method_bind. simpl heap. rewrite Hpop2.
    unfold mbind at 1, method_bind.
    unfold mbind at 1, method_bind. fold merged. rewrite Hpush.
    unfold mbind at 1, method_bind.
    rewrite (Hrun (set_heap h3 (set_heap h2 (set_heap h1 self)))) by done.
    by destruct self.
  - apply (greedy_step h0 node1 node2 h2 (ident i) root).
    + by rewrite <- Hp1, <- Hp2.
    + apply Hmin1. rewrite <- Hp1, <- Hp2. right. left.
    + apply Forall_forall. intros n Hn. apply Hmin2. rewrite <- Hp2. by right.
    + by apply (merged_greedily_Permutation h3).
Qed.

(** X13: when the heap of the object has the order of [heapq] (no node has a
    frequency below that of its parent, the node at [(j - 1) >> 1]),
    [make_heap] returns and the heap has that order afterwards; its first
    node then has the least frequency. *)
Theorem make_heap_keeps_heap_order ident (frequency : dict (list N) Z) self :
  heap_ok freq (heap self) ->
  exists h,
    make_heap ident frequency self = (Ok tt, set_heap h self)
    /\ heap_ok freq h
    /\ forall first n, h !! 0 = Some first -> n ∈ h -> (freq first <= freq n)%Z.
Proof.
  intros Hok.
  destruct (make_heap_loop_ordered ident frequency (dict_keys frequency) 0
              (heap self)) as (h & Hrun & _ & Hokh);
    [apply dict_getitem_keys|done|].
  exists h. split_and!; [by apply Hrun|done|].
  intros first n Hfirst [j Hn]%list_elem_of_lookup.
  by apply (heap_ok_min freq h first Hokh Hfirst j n).
Qed.

Lemma make_heap_keeps_heap_order_witness :
  heap_ok freq (heap init)
  /\ exists h,
       make_heap no_identity (make_frequency_dict abracadabra) init
       = (Ok tt, set_heap h init)
       /\ heap_ok freq h
       /\ forall first n, h !! 0 = Some first -> n ∈ h -> (freq first <= freq n)%Z.
Proof.
  assert (heap_ok freq (heap init)) as H by (intros j Hj a b Ha; discriminate Ha).
  split; [exact H|].
  exact (make_heap_keeps_heap_order no_identity
           (make_frequency_dict abracadabra) init H).
Defined.

(** X12: on a new object and a table that is not empty, the node that
    [make_heap] and [merge_nodes] leave comes from the leaves of the table
    by merging, step after step, two nodes of least frequency among those
    left, the lesser as the left child: the order of [heapq] makes every
    [heappop] return a node of least frequency. *)
Theorem tree_is_built_greedily ident (frequency : dict (list N) Z) :
  frequency ≠ [] ->
  exists root,
    build_tree ident frequency init = (Ok tt, set_heap [root] init)
    /\ merged_greedily (leaf_nodes ident 0 frequency (dict_keys frequency)) root.
Proof.
  intros Hne. unfold build_tree, make_heap, merge_nodes.
  destruct (make_heap_loop_ordered ident frequency (dict_keys frequency) 0 [])
    as (h1 & Hrun1 & Hp1 & Hok1); [apply dict_getitem_keys| |].
  { intros j Hj a b Ha. discriminate Ha. }
  simpl in Hp1.
  assert (h1 ≠ []) as Hne1.
  { intros ->. apply Permutation_length in Hp1. simpl in Hp1.
    destruct frequency; [done|]. simpl in Hp1. lia. }
  destruct (merge_loop_greedy (fun i => ident (length frequency + i))
              (length h1) 0 h1) as (root & Hrun2 & Hgreedy); [lia|done|done|].
  exists root. split.
  - unfold mbind, method_bind. rewrite (Hrun1 init eq_refl).
    change (heap (set_heap h1 init)) with h1.
    by rewrite (Hrun2 (set_heap h1 init) eq_refl).
  - by apply (merged_greedily_Permutation h1).
Qed.

Lemma tree_is_built_greedily_witness :
  make_frequency_dict abracadabra ≠ []
  /\ exists root,
       build_tree no_identity (make_frequency_dict abracadabra) init
       = (Ok tt, set_heap [root] init)
       /\ merged_greedily
            (leaf_nodes no_identity 0 (make_frequency_dict abracadabra)
               (dict_keys (make_frequency_dict abracadabra))) root.
Proof.
  assert (make_frequency_dict abracadabra ≠ []) as H
    by (vm_compute; discriminate).
  split; [exact H|].
  exact (tree_is_built_greedily no_identity _ H).
Defined.

Lemma dict_set_same {K V} `{EqDecision K} (k : K) (v : V) (d : dict K V) :
  dict_get k d = Some v -> dict_set k v d = d.
Proof.
  induction d as [|[k' v'] d IH]; [done|]. cbn [dict_get dict_set].
  destruct (decide (k = k')) as [->|Hne].
  - by intros [= ->].
  - intros Hk. by rewrite IH.
Qed.

Lemma store_all_same (items : list (list N * list bool)) : forall d,
  (forall k v, (k, v) ∈ items -> dict_get k d = Some v) ->
  store_all items d = d.
Proof.
  unfold store_all.
  induction items as [|[k v] items IH]; intros d Hd; [done|].
  cbn [fold_left fst snd]. rewrite dict_set_same by (apply Hd; left).
  apply IH. intros k' v' Hin. apply Hd. by right.
Qed.

Lemma as_byte_small n x : as_byte n = Ok x -> (x < 256)%N.
Proof.
  unfold as_byte. destruct (N.ltb_spec n 256); [|done]. by intros [= <-].
Qed.

(** X15: for every encoded text of n bits, [get_byte_array] on the padded
    text returns 2 + n // 8 bytes, each below 256, the first of which is the
    number of padding bits, 8 - n % 8. *)
Theorem payload_starts_with_the_padding_count (b : bitstring) :
  exists bytes,
    get_byte_array (pad_encoded_text b) = Ok bytes
    /\ length bytes = 2 + length b / 8
    /\ bytes !! 0 = Some (N.of_nat (8 - length b mod 8))
    /\ Forall (fun x => (x < 256)%N) bytes.
Proof.
  destruct (get_byte_array_padded b) as (bytes & Hrun & Hlen & _).
  pose proof (pad_encoded_text_length b) as Hpad.
  pose proof (Nat.div_mod_eq (length b) 8) as Hdiv.
  pose proof (Nat.mod_upper_bound (length b) 8 ltac:(lia)) as Hmod.
  exists bytes. split_and!; [done|lia| |].
  - destruct (lookup_lt_is_Some_2 bytes 0) as [x Hx]; [lia|].
    rewrite Hx. f_equal.
    unfold get_byte_array in Hrun.
    destruct (mapM_outcome_lookup _ _ _ _ _ Hrun Hx) as (i & Hi & Hf).
    assert (i = 0) as ->.
    { unfold range_step in Hi. rewrite list_lookup_fmap in Hi.
      destruct (seq 0 _ !! 0) as [k|] eqn:Hseq; [|done].
      apply lookup_seq in Hseq as [-> _]. by injection Hi as <-. }
    rewrite drop_0 in Hf. unfold pad_encoded_text in Hf.
    destruct (format_08b_small (8 - length b mod 8)) as [Hl Hint]; [lia|].
    rewrite take_app_length' in Hf by done. rewrite Hint in Hf.
    change (Ok ?n ≫= ?g) with (g n) in Hf. cbv beta in Hf.
    by apply as_byte_Ok in Hf.
  - apply Forall_lookup. intros k x Hx.
    unfold get_byte_array in Hrun.
    destruct (mapM_outcome_lookup _ _ _ _ _ Hrun Hx) as (i & _ & Hf).
    destruct (int2 _) as [n| | |]; try discriminate Hf.
    by apply as_byte_small in Hf.
Qed.

(** X14: for a text with two distinct characters or more, [decompress] on the
    object that has just compressed the text decodes the artifact to the
    text: [make_codes] stores the same codes again under the keys that
    [codes] already holds. *)
Theorem roundtrip_on_the_same_object ident ident' ext (s : pystr) :
  text s -> text ext ->
  2 <= length (make_frequency_dict s) ->
  exists artifact self,
    compress ident ext s init = (Ok artifact, self)
    /\ (decompress ident' artifact self).1 = Ok (s, JStr ext).
Proof.
  intros Hs Hext Htwo.
  pose proof (make_frequency_dict_NoDup s) as Hnd.
  pose proof (make_frequency_dict_text s Hs) as Hkeys.
  pose proof (make_frequency_dict_keys s) as Hchars.
  rewrite compress_steps.
  remember (make_frequency_dict s) as frequency eqn:Hfreq.
  assert (frequency ≠ []) as Hne by (intros ->; simpl in Htwo; lia).
  destruct (build_codes_fresh ident frequency Hnd Hne)
    as (root & Hb & Hl & _ & Hrun).
  destruct (build_codes_spec ident' frequency Hne) as (root' & Hb' & Hl' & Hrun').
  assert (leaf_codes root [] = leaf_codes root' []) as Hcodes.
  { pose proof (build_codes_commutes ident frequency init) as E.
    rewrite (build_codes_commutes ident' frequency init) in E.
    apply (f_equal (fun r => codes r.2)) in E. cbn [snd] in E.
    change (codes (erase_self ?x)) with (codes x) in E.
    rewrite Hrun, (Hrun' init) in E by done. simpl in E.
    rewrite <- E. apply fresh_codes; [done|]. by rewrite Hl'. }
  pose proof (built_root_merged root _ Hb Hl
                ltac:(unfold dict_keys; by rewrite length_fmap)) as Hmerged.
  destruct (leaf_codes_chunks root s Hb) as [chunks Hchunks].
  { intros c Hc. rewrite Hl. apply Hchars. eauto. }
  destruct (get_byte_array_padded (concat chunks)) as (bytes & Hbytes & _ & Hbits).
  pose proof (utf8_encode_header frequency ext) as Hutf.
  pose proof (read_artifact_header_written frequency ext bytes Hkeys Hnd Hext)
    as Hread.
  exists ((json_dumps (header_json frequency ext) ++ [10%N]) ++ bytes),
    (set_codes (leaf_codes root []) init).
  split.
  - rewrite (method_bind_Ok _ _ _ _ _ Hrun).
    unfold write_artifact.
    erewrite method_bind_Ok; [|apply get_encoded_text_Ok; exact Hchunks].
    unfold mbind, method_bind, lift, ret. by rewrite Hbytes, Hutf.
  - rewrite decompress_steps.
    unfold mbind at 1, method_bind, lift. rewrite Hread.
    rewrite (method_bind_Ok _ _ _ _ _
               (Hrun' (set_codes (leaf_codes root []) init) eq_refl)).
    unfold read_payload, build_decode_tree.
    unfold mbind, method_bind, lift, ret, get_attr.
    rewrite Hbits, remove_padding_pad. simpl codes.
    rewrite make_codes_helper_leaf_codes by done.
    rewrite <- Hcodes.
    rewrite store_all_same.
    2:{ intros k v Hin. apply dict_get_NoDup; [|done].
        unfold dict_keys. rewrite leaf_codes_keys by done. by rewrite Hl. }
    fold (add_all (leaf_codes root []) dnode_empty).
    rewrite add_all_mirror by done.
    unfold decode_text_tree.
    rewrite (decode_message root _ Hb Hmerged eq_refl s chunks [] Hchunks).
    simpl. by rewrite concat_singletons.
Qed.

Lemma roundtrip_on_the_same_object_witness :
  text abracadabra /\ text dot_txt
  /\ 2 <= length (make_frequency_dict abracadabra)
  /\ exists artifact self,
       compress no_identity dot_txt abracadabra init = (Ok artifact, self)
       /\ (decompress no_identity artifact self).1 = Ok (abracadabra, JStr dot_txt).
Proof.
  assert (text abracadabra) as H1
    by (apply (bool_decide_unpack _); vm_compute; exact I).
  assert (text dot_txt) as H2
    by (apply (bool_decide_unpack _); vm_compute; exact I).
  assert (2 <= length (make_frequency_dict abracadabra)) as H3
    by (vm_compute; lia).
  split; [exact H1|]. split; [exact H2|]. split; [exact H3|].
  exact (roundtrip_on_the_same_object no_identity no_identity dot_txt
           abracadabra H1 H2 H3).
Defined.
